(** * ProjectBluebird: the production scheduler (src/scheduler.py)

    A shallow embedding of [ProductionScheduler] and the properties of
    its scheduling kernel, capacity ledger, metrics and scenario drivers.

    Conventions of the embedding
    - a [datetime] is the number of microseconds since the midnight that
      begins proleptic-Gregorian ordinal day 0 (so [date_of] is Python's
      [toordinal]); a [timedelta] is a number of microseconds;
      [OverflowError] past year 9999 is not modelled;
    - a Python [float] priority is an exact rational ([Q]);
    - [datetime.now()] is a parameter [now] of the functions that read it;
    - a [dict] whose iteration order cannot influence a result is a
      [gmap]; one whose order matters is an association list;
    - a Python [set] is iterated in an unspecified order; the model
      iterates it as a duplicate-free list;
    - an exception is the result [Raise]; state reached before the
      exception is kept, as Python keeps the mutated object;
    - [print] and the debug switches are omitted. *)

From Stdlib Require Import ZArith QArith Qround String Ascii List Lia Bool.
From stdpp Require Import gmap strings list fin_maps sorting.

Open Scope string_scope.
Open Scope Z_scope.

(* ================================================================== *)
(** * Part I: definitions *)
(* ================================================================== *)

(** ** Results of code that may raise *)

Inductive res (A : Type) : Type :=
| Ok (a : A)
| Raise.
Arguments Ok {A} a.
Arguments Raise {A}.

(** ** Python string operations used by the scheduler *)

Module PyStr.

(** [str.isspace] on the code points below 256. *)
Definition is_space (c : ascii) : bool :=
  let n := nat_of_ascii c in
  existsb (Nat.eqb n) [9; 10; 11; 12; 13; 28; 29; 30; 31; 32; 133; 160]%nat.

Definition is_digit (c : ascii) : bool :=
  let n := nat_of_ascii c in (48 <=? n)%nat && (n <=? 57)%nat.

Fixpoint lstrip (s : string) : string :=
  match s with
  | EmptyString => EmptyString
  | String c s' => if is_space c then lstrip s' else s
  end.

Fixpoint rstrip (s : string) : string :=
  match s with
  | EmptyString => EmptyString
  | String c s' =>
      match rstrip s' with
      | EmptyString => if is_space c then EmptyString else String c EmptyString
      | r => String c r
      end
  end.

(** [s.strip()] *)
Definition strip (s : string) : string := rstrip (lstrip s).

(** [sub in s] *)
Fixpoint contains (sub s : string) : bool :=
  String.prefix sub s
  || match s with
     | EmptyString => false
     | String _ s' => contains sub s'
     end.

(** [s.split(sep)[0]] for a non-empty separator. *)
Fixpoint split_head (sep s : string) : string :=
  if String.prefix sep s then EmptyString
  else match s with
       | EmptyString => EmptyString
       | String c s' => String c (split_head sep s')
       end.

(** [s.split(c)] for a one-character separator. *)
Fixpoint split_char (c : ascii) (s : string) : list string :=
  match s with
  | EmptyString => [EmptyString]
  | String d s' =>
      if Ascii.eqb c d then EmptyString :: split_char c s'
      else match split_char c s' with
           | [] => [String d EmptyString]
           | p :: ps => String d p :: ps
           end
  end.

Fixpoint drop (n : nat) (s : string) : string :=
  match n, s with
  | O, _ => s
  | S n', EmptyString => EmptyString
  | S n', String _ s' => drop n' s'
  end.

Fixpoint remove_all_fuel (fuel : nat) (old s : string) : string :=
  match fuel with
  | O => s
  | S f =>
      match s with
      | EmptyString => EmptyString
      | String c s' =>
          if String.prefix old s then remove_all_fuel f old (drop (String.length old) s)
          else String c (remove_all_fuel f old s')
      end
  end.

(** [s.replace(old, '')] for a non-empty [old]. *)
Definition remove_all (old s : string) : string :=
  remove_all_fuel (S (String.length s)) old s.

Fixpoint digits_value (acc : Z) (s : string) : option Z :=
  match s with
  | EmptyString => Some acc
  | String c s' =>
      if is_digit c
      then digits_value (10 * acc + (Z.of_nat (nat_of_ascii c) - 48)) s'
      else None
  end.

(** [int(s)]: surrounding white space, an optional sign, decimal digits.
    Digit-group underscores and non-ASCII digits are not modelled. *)
Definition int (s : string) : res Z :=
  let body (t : string) : res Z :=
    match t with
    | EmptyString => Raise
    | _ => match digits_value 0 t with Some v => Ok v | None => Raise end
    end in
  match strip s with
  | String "-" t => match body t with Ok v => Ok (- v) | Raise => Raise end
  | String "+" t => body t
  | t => body t
  end.

Fixpoint take_digits (s : string) : string :=
  match s with
  | EmptyString => EmptyString
  | String c s' => if is_digit c then String c (take_digits s') else EmptyString
  end.

(** [re.search(r'(\d+)', s)]: the first maximal run of decimal digits. *)
Fixpoint first_digits (s : string) : option string :=
  match s with
  | EmptyString => None
  | String c s' => if is_digit c then Some (take_digits s) else first_digits s'
  end.

(** Truthiness of an optional string: [None] and [''] are falsy. *)
Definition truthy (o : option string) : bool :=
  match o with
  | Some s => negb (String.eqb s EmptyString)
  | None => false
  end.

End PyStr.

(** ** [datetime] and [timedelta] *)

Module DateTime.

Definition us_per_minute : Z := 60000000.
Definition us_per_hour : Z := 3600000000.
Definition us_per_day : Z := 86400000000.

(** [datetime(year, month, day, hour, minute)] from the day's ordinal. *)
Definition make (ordinal hour minute : Z) : Z :=
  ordinal * us_per_day + hour * us_per_hour + minute * us_per_minute.

(** [t.date()] as an ordinal, [t.hour], [t.minute]. *)
Definition date_of (t : Z) : Z := t / us_per_day.
Definition hour (t : Z) : Z := (t mod us_per_day) / us_per_hour.
Definition minute (t : Z) : Z := (t mod us_per_hour) / us_per_minute.

(** [t.weekday()]: Monday is 0; ordinal 1 is a Monday. *)
Definition weekday (t : Z) : Z := (date_of t + 6) mod 7.

(** [timedelta(minutes=n)], [timedelta(days=n)], [timedelta(hours=n)]. *)
Definition minutes (n : Z) : Z := n * us_per_minute.
Definition days (n : Z) : Z := n * us_per_day.
Definition hours (n : Z) : Z := n * us_per_hour.

(** [timedelta.days]: floor division. *)
Definition td_days (d : Z) : Z := d / us_per_day.

(** [t.replace(hour=0, minute=0, second=0, microsecond=0)] *)
Definition midnight (t : Z) : Z := t - t mod us_per_day.

(** [t.replace(hour=h, minute=m)] keeps seconds and microseconds and
    raises [ValueError] outside 0..23 and 0..59. *)
Definition replace_hm (t h m : Z) : res Z :=
  if (0 <=? h) && (h <? 24) && (0 <=? m) && (m <? 60)
  then Ok (t - hour t * us_per_hour - minute t * us_per_minute
           + h * us_per_hour + m * us_per_minute)
  else Raise.

(** [t.replace(minute=m)] *)
Definition replace_minute (t m : Z) : Z :=
  t - minute t * us_per_minute + m * us_per_minute.

(** [t.replace(hour=h, minute=0, second=0, microsecond=0)] *)
Definition at_hour (t h : Z) : Z := midnight t + h * us_per_hour.

(** [timedelta(days=x)] for a float [x]: the nearest microsecond, ties
    to even. *)
Definition days_q (x : Q) : Z :=
  let y := (x * inject_Z us_per_day)%Q in
  let f := Qfloor y in
  let r := (y - inject_Z f)%Q in
  match (r ?= 1 # 2)%Q with
  | Lt => f
  | Gt => f + 1
  | Eq => if Z.even f then f else f + 1
  end.

(** [date(2031, 1, 1).toordinal()], [date(2025, 8, 22).toordinal()] and
    [datetime.max]. *)
Definition ordinal_2031 : Z := 741443.
Definition ordinal_start : Z := 739485.
Definition max : Z := 3652059 * us_per_day + (us_per_day - 1).

(** [t.year > 2030] *)
Definition year_gt_2030 (t : Z) : bool := ordinal_2031 <=? date_of t.

End DateTime.

(** ** The data of the scheduler object *)

(** An entry of [self.tasks]. [team_skill] is [None] when the key is
    absent and [Some None] when it is present with the value [None]. *)
Record task_info : Type := {
  duration : Z;
  team : option string;
  skill : option string;
  team_skill : option (option string);
  mechanics_required : Z;
  is_quality : bool;
  is_customer : bool;
  task_type : string;
  product : option string
}.

(** The assignment [task_info['team'] = v]. *)
Definition with_team (v : option string) (info : task_info) : task_info :=
  {| duration := duration info;
     team := v;
     skill := skill info;
     team_skill := team_skill info;
     mechanics_required := mechanics_required info;
     is_quality := is_quality info;
     is_customer := is_customer info;
     task_type := task_type info;
     product := product info |}.

(** An entry of [self.quality_inspections]. *)
Record qi_info : Type := {
  primary_task : string;
  headcount : Z
}.

(** An entry of [self.task_schedule] (the display-only key
    [original_task_id] is left out). *)
Record sched_rec : Type := {
  start_time : Z;
  end_time : Z;
  rec_team : option string;
  rec_team_skill : string;
  rec_skill : option string;
  rec_product : option string;
  rec_duration : Z;
  rec_mechanics_required : Z;
  rec_is_quality : bool;
  rec_is_customer : bool;
  rec_task_type : string;
  shift : string
}.

(** A resolved constraint of the dynamic dependency list. *)
Record constraint : Type := {
  First : string;
  Second : string;
  Relationship : string
}.

(** A capacity configuration of scenario 3. *)
Record configuration : Type := {
  mechanic : gmap string Z;
  quality : gmap string Z
}.

(** The attributes of [ProductionScheduler] that scheduling reads or
    writes. *)
Record scheduler : Type := {
  late_part_delay_days : Q;
  tasks : gmap string task_info;
  quality_inspections : gmap string qi_info;
  customer_team_capacity : list (string * Z);
  customer_team_shifts : gmap string (list string);
  late_part_tasks : gset string;
  rework_tasks : gset string;
  on_dock_dates : gmap string Z;
  team_shifts : gmap string (list string);
  team_capacity : gmap string Z;
  quality_team_shifts : gmap string (list string);
  quality_team_capacity : gmap string Z;
  shift_hours : gmap string (string * string);
  delivery_dates : gmap string Z;
  holidays : gmap string (list Z);
  task_schedule : gmap string sched_rec;
  _dynamic_constraints_cache : option (list constraint);
  _critical_path_cache : gmap string Z;
  _original_team_capacity : gmap string Z;
  _original_quality_capacity : gmap string Z
}.

(** Lookup in an insertion-ordered dictionary. *)
Fixpoint assoc_get {V : Type} (k : string) (d : list (string * V)) : option V :=
  match d with
  | [] => None
  | (k', v) :: d' => if String.eqb k k' then Some v else assoc_get k d'
  end.

(** ** Relationship types *)

Definition mappings : list (string * string) :=
  [ ("FS", "Finish <= Start");
    ("Finish-Start", "Finish <= Start");
    ("F-S", "Finish <= Start");
    ("F=S", "Finish = Start");
    ("Finish=Start", "Finish = Start");
    ("FF", "Finish <= Finish");
    ("Finish-Finish", "Finish <= Finish");
    ("F-F", "Finish <= Finish");
    ("SS", "Start <= Start");
    ("Start-Start", "Start <= Start");
    ("S-S", "Start <= Start");
    ("S=S", "Start = Start");
    ("Start=Start", "Start = Start");
    ("SF", "Start <= Finish");
    ("Start-Finish", "Start <= Finish");
    ("S-F", "Start <= Finish") ].

(** [_normalize_relationship_type]; the argument is [None] for Python's
    [None]. *)
Definition _normalize_relationship_type (relationship : option string) : string :=
  if negb (PyStr.truthy relationship) then "Finish <= Start"
  else
    let relationship := PyStr.strip (default "" relationship) in
    default relationship (assoc_get relationship mappings).

(** [check_constraint_satisfied]; a missing schedule record is [None]. *)
Definition check_constraint_satisfied
    (first_schedule second_schedule : option sched_rec)
    (relationship : option string) : bool * option Z * option Z :=
  match first_schedule, second_schedule with
  | Some fs, Some ss =>
      let first_start := start_time fs in
      let first_end := end_time fs in
      let second_start := start_time ss in
      let second_end := end_time ss in
      let second_duration := rec_duration ss in
      let relationship := _normalize_relationship_type relationship in
      if String.eqb relationship "Finish <= Start" then
        (first_end <=? second_start,
         Some first_end, Some (first_end + DateTime.minutes second_duration))
      else if String.eqb relationship "Finish = Start" then
        (Z.abs (first_end - second_start) <? 60 * 1000000,
         Some first_end, Some (first_end + DateTime.minutes second_duration))
      else if String.eqb relationship "Finish <= Finish" then
        let earliest_end :=
          Z.max first_end (second_start + DateTime.minutes second_duration) in
        (first_end <=? second_end,
         Some (earliest_end - DateTime.minutes second_duration), Some earliest_end)
      else if String.eqb relationship "Start <= Start" then
        (first_start <=? second_start,
         Some first_start, Some (first_start + DateTime.minutes second_duration))
      else if String.eqb relationship "Start = Start" then
        (Z.abs (first_start - second_start) <? 60 * 1000000,
         Some first_start, Some (first_start + DateTime.minutes second_duration))
      else if String.eqb relationship "Start <= Finish" then
        let earliest_end :=
          Z.max first_start (second_start + DateTime.minutes second_duration) in
        (first_start <=? second_end,
         Some (earliest_end - DateTime.minutes second_duration), Some earliest_end)
      else
        (first_end <=? second_start,
         Some first_end, Some (first_end + DateTime.minutes second_duration))
  | _, _ => (true, None, None)
  end.

(** ** The error monad of code that may raise *)

Definition res_bind {A B : Type} (m : res A) (k : A -> res B) : res B :=
  match m with
  | Ok a => k a
  | Raise => Raise
  end.

Notation "'try!' x <- m 'in' k" := (res_bind m (fun x => k))
  (at level 10, x pattern, m at level 100, k at level 200).

(** ** Construction and field updates of the scheduler object *)

(** [ProductionScheduler.__init__] *)
Definition init (delay : Q) : scheduler :=
  {| late_part_delay_days := delay;
     tasks := ∅; quality_inspections := ∅;
     customer_team_capacity := []; customer_team_shifts := ∅;
     late_part_tasks := ∅; rework_tasks := ∅; on_dock_dates := ∅;
     team_shifts := ∅; team_capacity := ∅;
     quality_team_shifts := ∅; quality_team_capacity := ∅;
     shift_hours := ∅; delivery_dates := ∅; holidays := ∅;
     task_schedule := ∅;
     _dynamic_constraints_cache := None; _critical_path_cache := ∅;
     _original_team_capacity := ∅; _original_quality_capacity := ∅ |}.

Definition set_tasks (v : gmap string task_info) (st : scheduler) : scheduler :=
  {| late_part_delay_days := late_part_delay_days st;
     tasks := v; quality_inspections := quality_inspections st;
     customer_team_capacity := customer_team_capacity st;
     customer_team_shifts := customer_team_shifts st;
     late_part_tasks := late_part_tasks st; rework_tasks := rework_tasks st;
     on_dock_dates := on_dock_dates st;
     team_shifts := team_shifts st; team_capacity := team_capacity st;
     quality_team_shifts := quality_team_shifts st;
     quality_team_capacity := quality_team_capacity st;
     shift_hours := shift_hours st; delivery_dates := delivery_dates st;
     holidays := holidays st;
     task_schedule := task_schedule st;
     _dynamic_constraints_cache := _dynamic_constraints_cache st;
     _critical_path_cache := _critical_path_cache st;
     _original_team_capacity := _original_team_capacity st;
     _original_quality_capacity := _original_quality_capacity st |}.

Definition set_team_capacity (v : gmap string Z) (st : scheduler) : scheduler :=
  {| late_part_delay_days := late_part_delay_days st;
     tasks := tasks st; quality_inspections := quality_inspections st;
     customer_team_capacity := customer_team_capacity st;
     customer_team_shifts := customer_team_shifts st;
     late_part_tasks := late_part_tasks st; rework_tasks := rework_tasks st;
     on_dock_dates := on_dock_dates st;
     team_shifts := team_shifts st; team_capacity := v;
     quality_team_shifts := quality_team_shifts st;
     quality_team_capacity := quality_team_capacity st;
     shift_hours := shift_hours st; delivery_dates := delivery_dates st;
     holidays := holidays st;
     task_schedule := task_schedule st;
     _dynamic_constraints_cache := _dynamic_constraints_cache st;
     _critical_path_cache := _critical_path_cache st;
     _original_team_capacity := _original_team_capacity st;
     _original_quality_capacity := _original_quality_capacity st |}.

Definition set_quality_team_capacity (v : gmap string Z) (st : scheduler) : scheduler :=
  {| late_part_delay_days := late_part_delay_days st;
     tasks := tasks st; quality_inspections := quality_inspections st;
     customer_team_capacity := customer_team_capacity st;
     customer_team_shifts := customer_team_shifts st;
     late_part_tasks := late_part_tasks st; rework_tasks := rework_tasks st;
     on_dock_dates := on_dock_dates st;
     team_shifts := team_shifts st; team_capacity := team_capacity st;
     quality_team_shifts := quality_team_shifts st;
     quality_team_capacity := v;
     shift_hours := shift_hours st; delivery_dates := delivery_dates st;
     holidays := holidays st;
     task_schedule := task_schedule st;
     _dynamic_constraints_cache := _dynamic_constraints_cache st;
     _critical_path_cache := _critical_path_cache st;
     _original_team_capacity := _original_team_capacity st;
     _original_quality_capacity := _original_quality_capacity st |}.

Definition set_task_schedule (v : gmap string sched_rec) (st : scheduler) : scheduler :=
  {| late_part_delay_days := late_part_delay_days st;
     tasks := tasks st; quality_inspections := quality_inspections st;
     customer_team_capacity := customer_team_capacity st;
     customer_team_shifts := customer_team_shifts st;
     late_part_tasks := late_part_tasks st; rework_tasks := rework_tasks st;
     on_dock_dates := on_dock_dates st;
     team_shifts := team_shifts st; team_capacity := team_capacity st;
     quality_team_shifts := quality_team_shifts st;
     quality_team_capacity := quality_team_capacity st;
     shift_hours := shift_hours st; delivery_dates := delivery_dates st;
     holidays := holidays st;
     task_schedule := v;
     _dynamic_constraints_cache := _dynamic_constraints_cache st;
     _critical_path_cache := _critical_path_cache st;
     _original_team_capacity := _original_team_capacity st;
     _original_quality_capacity := _original_quality_capacity st |}.

Definition set_dynamic_constraints_cache (v : option (list constraint))
    (st : scheduler) : scheduler :=
  {| late_part_delay_days := late_part_delay_days st;
     tasks := tasks st; quality_inspections := quality_inspections st;
     customer_team_capacity := customer_team_capacity st;
     customer_team_shifts := customer_team_shifts st;
     late_part_tasks := late_part_tasks st; rework_tasks := rework_tasks st;
     on_dock_dates := on_dock_dates st;
     team_shifts := team_shifts st; team_capacity := team_capacity st;
     quality_team_shifts := quality_team_shifts st;
     quality_team_capacity := quality_team_capacity st;
     shift_hours := shift_hours st; delivery_dates := delivery_dates st;
     holidays := holidays st;
     task_schedule := task_schedule st;
     _dynamic_constraints_cache := v;
     _critical_path_cache := _critical_path_cache st;
     _original_team_capacity := _original_team_capacity st;
     _original_quality_capacity := _original_quality_capacity st |}.

Definition set_critical_path_cache (v : gmap string Z) (st : scheduler) : scheduler :=
  {| late_part_delay_days := late_part_delay_days st;
     tasks := tasks st; quality_inspections := quality_inspections st;
     customer_team_capacity := customer_team_capacity st;
     customer_team_shifts := customer_team_shifts st;
     late_part_tasks := late_part_tasks st; rework_tasks := rework_tasks st;
     on_dock_dates := on_dock_dates st;
     team_shifts := team_shifts st; team_capacity := team_capacity st;
     quality_team_shifts := quality_team_shifts st;
     quality_team_capacity := quality_team_capacity st;
     shift_hours := shift_hours st; delivery_dates := delivery_dates st;
     holidays := holidays st;
     task_schedule := task_schedule st;
     _dynamic_constraints_cache := _dynamic_constraints_cache st;
     _critical_path_cache := v;
     _original_team_capacity := _original_team_capacity st;
     _original_quality_capacity := _original_quality_capacity st |}.

(** ** Calendar *)

(** [is_working_day(date, product_line)] *)
Definition is_working_day (st : scheduler) (date : Z) (product_line : option string) : bool :=
  if 5 <=? DateTime.weekday date then false
  else if negb (PyStr.truthy product_line) then true
  else match holidays st !! default "" product_line with
       | None => true
       | Some hs =>
           negb (existsb (fun h => DateTime.date_of h =? DateTime.date_of date) hs)
       end.

(** [_parse_shift_time] *)
Definition _parse_shift_time (time_str : string) : res (Z * Z) :=
  let time_str := PyStr.strip time_str in
  let parse (text : string) : res (Z * Z) :=
    let time_parts := PyStr.split_char ":" text in
    try! hour <- PyStr.int (nth 0 time_parts "") in
    try! minute <- (if (1 <? length time_parts)%nat
                    then PyStr.int (nth 1 time_parts "") else Ok 0) in
    Ok (hour, minute) in
  if PyStr.contains "AM" time_str || PyStr.contains "PM" time_str then
    let time_str_clean :=
      PyStr.remove_all "PM" (PyStr.remove_all "AM"
        (PyStr.remove_all " PM" (PyStr.remove_all " AM" time_str))) in
    try! (hour, minute) <- parse time_str_clean in
    if PyStr.contains "PM" time_str && negb (hour =? 12) then Ok (hour + 12, minute)
    else if PyStr.contains "AM" time_str && (hour =? 12) then Ok (0, minute)
    else Ok (hour, minute)
  else parse time_str.

(** ** Metrics *)

Definition earliest_start_time (m : gmap string sched_rec) : option Z :=
  map_fold (fun _ r acc =>
              Some (match acc with
                    | Some a => Z.min a (start_time r)
                    | None => start_time r
                    end)) None m.

Definition latest_end_time (m : gmap string sched_rec) : option Z :=
  map_fold (fun _ r acc =>
              Some (match acc with
                    | Some a => Z.max a (end_time r)
                    | None => end_time r
                    end)) None m.

(** The body of the loop of [calculate_makespan]: is [current] a working
    day of some product with a delivery date? *)
Definition working_for_some_product (st : scheduler) (current : Z) : bool :=
  existsb (fun product => is_working_day st (DateTime.make current 0 0) (Some product))
          (map_to_list (delivery_dates st)).*1.

Fixpoint working_days_loop (st : scheduler) (fuel : nat)
    (current end_date working_days : Z) : Z :=
  match fuel with
  | O => working_days
  | S f =>
      if current <=? end_date then
        working_days_loop st f (current + 1) end_date
          (if working_for_some_product st current
           then working_days + 1 else working_days)
      else working_days
  end.

(** [calculate_makespan] *)
Definition calculate_makespan (st : scheduler) : Z :=
  if (size (task_schedule st) =? 0)%nat then 0
  else
    let scheduled_count := size (task_schedule st) in
    let total_tasks := size (tasks st) in
    if (scheduled_count <? total_tasks)%nat then 999999
    else
      match earliest_start_time (task_schedule st),
            latest_end_time (task_schedule st) with
      | Some start_time, Some end_time =>
          let current := DateTime.date_of start_time in
          let end_date := DateTime.date_of end_time in
          working_days_loop st (Z.to_nat (end_date - current + 1))
                            current end_date 0
      | _, _ => 0
      end.

(** ** The resource ledger *)

(** Rounding up to the next 15-minute mark, as done on the minute field. *)
Definition round_up_15 (earliest_in_shift : Z) : Z :=
  let minutes := DateTime.minute earliest_in_shift in
  if negb (minutes mod 15 =? 0) then
    let rounded_minutes := (minutes / 15 + 1) * 15 in
    if 60 <=? rounded_minutes
    then DateTime.replace_minute earliest_in_shift 0 + DateTime.hours 1
    else DateTime.replace_minute earliest_in_shift rounded_minutes
  else earliest_in_shift.

(** Capacity and shift list by team type, as [get_next_working_time_with_capacity]
    reads them. *)
Definition capacity_for (st : scheduler) (team : string)
    (is_quality is_customer : bool) : Z :=
  if is_customer then default 0 (assoc_get team (customer_team_capacity st))
  else if is_quality then default 0 (quality_team_capacity st !! team)
  else default 0 (team_capacity st !! team).

Definition shifts_for (st : scheduler) (team : string)
    (is_quality is_customer : bool) : list string :=
  if is_customer then default ["1st"] (customer_team_shifts st !! team)
  else if is_quality then default ["1st"] (quality_team_shifts st !! team)
  else
    let base_team :=
      if PyStr.contains "(" team
      then PyStr.strip (PyStr.split_head "(" team) else team in
    default (default ["1st"] (team_shifts st !! team)) (team_shifts st !! base_team).

(** The boundaries of [shift] on the day [check_date]. *)
Definition shift_bounds (current_time days_ahead check_date : Z)
    (shift : string) (shift_info : string * string) : res (Z * Z) :=
  try! (start_hour, start_min) <- _parse_shift_time (fst shift_info) in
  try! (end_hour, end_min) <- _parse_shift_time (snd shift_info) in
  if String.eqb shift "3rd" then
    if (days_ahead =? 0) && (DateTime.hour current_time <? 6) then
      try! shift_start <- DateTime.replace_hm (check_date - DateTime.days 1) 23 0 in
      try! shift_end <- DateTime.replace_hm check_date 6 0 in
      Ok (shift_start, shift_end)
    else
      try! shift_start <- DateTime.replace_hm check_date 23 0 in
      try! shift_end <- DateTime.replace_hm (check_date + DateTime.days 1) 6 0 in
      Ok (shift_start, shift_end)
  else
    try! shift_start <- DateTime.replace_hm check_date start_hour start_min in
    try! shift_end <- DateTime.replace_hm check_date end_hour end_min in
    Ok (shift_start, shift_end).

(** The capacity of a team whatever its type, as
    [check_team_capacity_at_time] looks it up: customer teams first, then
    quality teams, then mechanic teams. *)
Definition capacity_of_team (st : scheduler) (team : string) : Z :=
  match assoc_get team (customer_team_capacity st) with
  | Some capacity => capacity
  | None =>
      match quality_team_capacity st !! team with
      | Some capacity => capacity
      | None => default 0 (team_capacity st !! team)
      end
  end.

(** Does a schedule record count against [team]? *)
Definition counts_against (team : string) (is_quality is_customer : bool)
    (schedule : sched_rec) : bool :=
  let scheduled_team := rec_team_skill schedule in
  if is_customer then String.eqb scheduled_team team
  else String.eqb scheduled_team team
       || (negb is_quality && bool_decide (rec_team schedule = Some team)).

Definition overlaps (schedule : sched_rec) (from to : Z) : bool :=
  (start_time schedule <? to) && (from <? end_time schedule).

(** The headcount already booked on [team] over [from, to). *)
Definition conflicts (st : scheduler) (team : string) (is_quality is_customer : bool)
    (from to : Z) : Z :=
  map_fold (fun _ schedule acc =>
              if counts_against team is_quality is_customer schedule
                 && overlaps schedule from to
              then acc + rec_mechanics_required schedule else acc)
           0 (task_schedule st).

Section NextWorkingTime.

Variable st : scheduler.
Variables (current_time : Z) (product_line : option string) (team : string).
Variables (mechanics_needed duration : Z) (is_quality is_customer : bool).

(** The loop over the shifts of one day. [Ok None] means that no shift of
    the day was accepted. *)
Fixpoint search_shifts (days_ahead check_date : Z) (shifts : list string)
    : res (option (Z * string)) :=
  match shifts with
  | [] => Ok None
  | shift :: rest =>
      match shift_hours st !! shift with
      | None => search_shifts days_ahead check_date rest
      | Some shift_info =>
          try! (shift_start, shift_end) <-
            shift_bounds current_time days_ahead check_date shift shift_info in
          if shift_end <=? current_time then search_shifts days_ahead check_date rest
          else
            let earliest_in_shift := round_up_15 (Z.max shift_start current_time) in
            let task_end := earliest_in_shift + DateTime.minutes duration in
            if shift_end <? task_end then search_shifts days_ahead check_date rest
            else if mechanics_needed <=?
                      capacity_for st team is_quality is_customer
                      - conflicts st team is_quality is_customer
                                  earliest_in_shift task_end
            then Ok (Some (earliest_in_shift, shift))
            else search_shifts days_ahead check_date rest
      end
  end.

(** The loop over [range(max_days_ahead)]. *)
Fixpoint search_days (days : list Z) : res (option (Z * string)) :=
  match days with
  | [] => Ok None
  | days_ahead :: rest =>
      let check_date := DateTime.midnight (current_time + DateTime.days days_ahead) in
      if negb (is_working_day st check_date product_line) then search_days rest
      else
        match search_shifts days_ahead check_date
                (shifts_for st team is_quality is_customer) with
        | Ok None => search_days rest
        | r => r
        end
  end.

(** [get_next_working_time_with_capacity]: [Ok None] is the pair
    [(None, None)]. *)
Definition get_next_working_time_with_capacity : res (option (Z * string)) :=
  let capacity := capacity_for st team is_quality is_customer in
  if (capacity =? 0) || (capacity <? mechanics_needed) then Ok None
  else search_days (seqZ 0 30).

End NextWorkingTime.

(** ** The priority queue ([heapq] of the Python standard library) *)

Module heapq.
Section Heap.

Context {A : Type}.
(** The comparison [<] of the items. *)
Variable lt : A -> A -> bool.

(** The [while pos > startpos] loop of [_siftdown]. *)
Fixpoint _siftdown_loop (fuel : nat) (heap : list A) (newitem : A)
    (startpos pos : nat) : list A * nat :=
  match fuel with
  | O => (heap, pos)
  | S f =>
      if (startpos <? pos)%nat then
        let parentpos := ((pos - 1) / 2)%nat in
        match heap !! parentpos with
        | Some parent =>
            if lt newitem parent
            then _siftdown_loop f (<[pos := parent]> heap) newitem startpos parentpos
            else (heap, pos)
        | None => (heap, pos)
        end
      else (heap, pos)
  end.

Definition _siftdown (heap : list A) (startpos pos : nat) : list A :=
  match heap !! pos with
  | Some newitem =>
      let '(heap', pos') := _siftdown_loop (S pos) heap newitem startpos pos in
      <[pos' := newitem]> heap'
  | None => heap
  end.

(** [heappush(heap, item)] *)
Definition heappush (heap : list A) (item : A) : list A :=
  _siftdown (heap ++ [item]) 0 (length heap).

(** The [while childpos < endpos] loop of [_siftup]. *)
Fixpoint _siftup_loop (fuel : nat) (heap : list A) (pos : nat) : list A * nat :=
  match fuel with
  | O => (heap, pos)
  | S f =>
      let endpos := length heap in
      let childpos := (2 * pos + 1)%nat in
      if (childpos <? endpos)%nat then
        let rightpos := (childpos + 1)%nat in
        let childpos :=
          match heap !! childpos, heap !! rightpos with
          | Some child, Some sibling =>
              if negb (lt child sibling) then rightpos else childpos
          | _, _ => childpos
          end in
        match heap !! childpos with
        | Some child => _siftup_loop f (<[pos := child]> heap) childpos
        | None => (heap, pos)
        end
      else (heap, pos)
  end.

Definition _siftup (heap : list A) (pos : nat) : list A :=
  match heap !! pos with
  | Some newitem =>
      let '(heap', pos') := _siftup_loop (length heap) heap pos in
      _siftdown (<[pos' := newitem]> heap') pos pos'
  | None => heap
  end.

(** [heappop(heap)]: the popped item and the remaining heap; [None] is
    the [IndexError] of an empty heap. *)
Definition heappop (heap : list A) : option (A * list A) :=
  match List.last (Some <$> heap) None with
  | None => None
  | Some lastelt =>
      match removelast heap with
      | [] => Some (lastelt, [])
      | returnitem :: rest =>
          Some (returnitem, _siftup (lastelt :: rest) 0)
      end
  end.

End Heap.
End heapq.

(** Python's [<] on the tuples [(priority, task_instance_id)]: the
    priorities decide unless they are equal, then the identifiers do. *)
Definition entry_lt (a b : Q * string) : bool :=
  match (fst a ?= fst b)%Q with
  | Lt => true
  | Gt => false
  | Eq => String.ltb (snd a) (snd b)
  end.

(** ** Priorities *)

(** The interpreter's recursion limit. *)
Definition recursion_limit : nat := 1000.

(** The fixed start datum [datetime(2025, 8, 22, 6, 0)]. *)
Definition start_date : Z := DateTime.make DateTime.ordinal_start 6 0.

Section Engine.

(** The uncached construction of the dynamic constraint list (the body of
    [build_dynamic_dependencies] after the cache test), a function of the
    loaded tables. *)
Variable compose_dynamic_constraints : scheduler -> list constraint.

(** The reading of [datetime.now()]. *)
Variable now : Z.

(** [build_dynamic_dependencies] *)
Definition build_dynamic_dependencies (st : scheduler) : list constraint * scheduler :=
  match _dynamic_constraints_cache st with
  | Some cached => (cached, st)
  | None =>
      let dynamic_constraints := compose_dynamic_constraints st in
      (dynamic_constraints, set_dynamic_constraints_cache (Some dynamic_constraints) st)
  end.

(** The local function [get_path_length] of [calculate_critical_path_length];
    running out of [fuel] is the [RecursionError]. *)
Fixpoint get_path_length (fuel : nat) (all_tasks : gmap string task_info)
    (dynamic_constraints : list constraint) (task : string)
    (cache : gmap string Z) : res Z * gmap string Z :=
  match fuel with
  | O => (Raise, cache)
  | S f =>
      match cache !! task with
      | Some known => (Ok known, cache)
      | None =>
          match all_tasks !! task with
          | None => (Raise, cache)
          | Some info =>
              let task_duration := duration info in
              let visit (acc : res Z * gmap string Z) (c : constraint) :=
                match acc with
                | (Ok max_successor_path, cache') =>
                    if String.eqb (First c) task
                       && bool_decide (is_Some (all_tasks !! Second c))
                    then
                      match get_path_length f all_tasks dynamic_constraints
                                            (Second c) cache' with
                      | (Ok successor_path, cache'') =>
                          (Ok (Z.max max_successor_path successor_path), cache'')
                      | (Raise, cache'') => (Raise, cache'')
                      end
                    else acc
                | (Raise, _) => acc
                end in
              match fold_left visit dynamic_constraints (Ok 0, cache) with
              | (Ok max_successor_path, cache') =>
                  (Ok (task_duration + max_successor_path),
                   <[task := task_duration + max_successor_path]> cache')
              | (Raise, cache') => (Raise, cache')
              end
          end
      end
  end.

(** [calculate_critical_path_length] *)
Definition calculate_critical_path_length (st : scheduler) (task_instance_id : string)
    : res Z * scheduler :=
  match _critical_path_cache st !! task_instance_id with
  | Some known => (Ok known, st)
  | None =>
      let '(dynamic_constraints, st1) := build_dynamic_dependencies st in
      let '(r, cache) :=
        get_path_length recursion_limit (tasks st1) dynamic_constraints
                        task_instance_id (_critical_path_cache st1) in
      (r, set_critical_path_cache cache st1)
  end.

(** The urgency term [(100 - days_to_delivery) * 20] of a product, when
    the product has a delivery date. *)
Definition delivery_urgency (st : scheduler) (product : option string) : option Z :=
  if PyStr.truthy product then
    match delivery_dates st !! default "" product with
    | Some delivery_date => Some ((100 - DateTime.td_days (delivery_date - now)) * 20)
    | None => None
    end
  else None.

(** The rework branch of [calculate_task_priority]. *)
Definition rework_priority (st : scheduler) (dynamic_constraints : list constraint)
    (task_instance_id : string) : Q :=
  let dependent_tasks :=
    Second <$> List.filter (fun c => String.eqb (First c) task_instance_id)
                           dynamic_constraints in
  let min_dependent_priority :=
    fold_left
      (fun (acc : option Z) dep_task =>
         match tasks st !! dep_task with
         | Some dep_task_info =>
             match delivery_urgency st (product dep_task_info) with
             | Some dep_priority =>
                 Some (match acc with
                       | Some m => Z.min m dep_priority
                       | None => dep_priority
                       end)
             | None => acc
             end
         | None => acc
         end)
      dependent_tasks None in
  match min_dependent_priority with
  | Some m => inject_Z (m - 100)
  | None => inject_Z (-500)
  end.

(** [calculate_task_priority]; running out of [fuel] is the
    [RecursionError] of a chain of inspections that never ends. *)
Fixpoint calculate_task_priority (fuel : nat) (st : scheduler)
    (task_instance_id : string) : res Q * scheduler :=
  match tasks st !! task_instance_id with
  | None => (Raise, st)
  | Some task_info =>
      if bool_decide (task_instance_id ∈ late_part_tasks st) then
        match on_dock_dates st !! task_instance_id with
        | Some on_dock_date =>
            let days_until_available := DateTime.td_days (on_dock_date - now) in
            (Ok (inject_Z (-3000 + days_until_available * 10)), st)
        | None => (Ok (inject_Z (-3000)), st)
        end
      else
        match quality_inspections st !! task_instance_id with
        | Some qi =>
            if PyStr.truthy (Some (primary_task qi))
               && bool_decide (is_Some (task_schedule st !! primary_task qi))
            then
              match fuel with
              | O => (Raise, st)
              | S f =>
                  match calculate_task_priority f st (primary_task qi) with
                  | (Ok p, st') => (Ok (p - 1)%Q, st')
                  | (Raise, st') => (Raise, st')
                  end
              end
            else (Ok (inject_Z (-2000)), st)
        | None =>
            if bool_decide (task_instance_id ∈ rework_tasks st) then
              let '(dynamic_constraints, st1) := build_dynamic_dependencies st in
              (Ok (rework_priority st1 dynamic_constraints task_instance_id), st1)
            else
              let days_to_delivery :=
                if PyStr.truthy (product task_info) then
                  match delivery_dates st !! default "" (product task_info) with
                  | Some delivery_date => DateTime.td_days (delivery_date - now)
                  | None => 999
                  end
                else 999 in
              match calculate_critical_path_length st task_instance_id with
              | (Ok critical_path_length, st1) =>
                  (Ok (inject_Z ((100 - days_to_delivery) * 20
                                 + (10000 - critical_path_length) * 5)
                       + (100 - inject_Z (duration task_info) / 10) * 2)%Q,
                   st1)
              | (Raise, st1) => (Raise, st1)
              end
        end
  end.

(** [get_earliest_start_for_late_part] *)
Definition get_earliest_start_for_late_part (st : scheduler)
    (task_instance_id : string) : Z :=
  match on_dock_dates st !! task_instance_id with
  | None => start_date
  | Some on_dock_date =>
      let earliest_start := on_dock_date + DateTime.days_q (late_part_delay_days st) in
      DateTime.at_hour earliest_start 6
  end.

(** [map_mechanic_to_quality_team] *)
Definition map_mechanic_to_quality_team (st : scheduler)
    (mechanic_team : option string) : option string :=
  if negb (PyStr.truthy mechanic_team) then None
  else
    match PyStr.first_digits (default "" mechanic_team) with
    | Some team_number =>
        let quality_team := "Quality Team " ++ team_number in
        if bool_decide (is_Some (quality_team_capacity st !! quality_team))
        then Some quality_team else None
    | None => None
    end.

(** ** The scheduling engine *)

(** [validate_dag]: the depth-first search for a cycle. The result carries
    the set of visited nodes. *)
Fixpoint has_cycle_dfs (fuel : nat) (graph : string -> list string) (node : string)
    (visited rec_stack : gset string) : res (bool * gset string) :=
  match fuel with
  | O => Raise
  | S f =>
      let visited := {[node]} ∪ visited in
      let rec_stack := {[node]} ∪ rec_stack in
      fold_left
        (fun (acc : res (bool * gset string)) neighbor =>
           match acc with
           | Ok (false, visited) =>
               if negb (bool_decide (neighbor ∈ visited))
               then has_cycle_dfs f graph neighbor visited rec_stack
               else if bool_decide (neighbor ∈ rec_stack) then Ok (true, visited)
               else acc
           | _ => acc
           end)
        (graph node) (Ok (false, visited))
  end.

Definition validate_dag (st : scheduler) : res bool * scheduler :=
  let '(dynamic_constraints, st) := build_dynamic_dependencies st in
  let graph (node : string) : list string :=
    remove_dups
      (Second <$> List.filter
         (fun c => String.eqb (First c) node
                   && (String.eqb (Relationship c) "Finish <= Start"
                       || String.eqb (Relationship c) "Finish = Start"))
         dynamic_constraints) in
  let all_tasks_in_constraints :=
    remove_dups (flat_map (fun c => [First c; Second c]) dynamic_constraints) in
  let missing_tasks :=
    List.filter (fun t => negb (bool_decide (is_Some (tasks st !! t))))
                all_tasks_in_constraints in
  match missing_tasks with
  | _ :: _ => (Ok false, st)
  | [] =>
      let searched :=
        fold_left
          (fun (acc : res (bool * gset string)) node =>
             match acc with
             | Ok (false, visited) =>
                 if negb (bool_decide (node ∈ visited))
                 then has_cycle_dfs recursion_limit graph node visited ∅
                 else acc
             | _ => acc
             end)
          all_tasks_in_constraints (Ok (false, ∅)) in
      match searched with
      | Ok (found, _) => (Ok (negb found), st)
      | Raise => (Raise, st)
      end
  end.

(** The local variables of [schedule_tasks] next to the object itself. *)
Record loop_state : Type := {
  self : scheduler;
  ready_tasks : list (Q * string);
  scheduled_count : Z;
  iteration_count : Z;
  failed_tasks : gset string;
  task_retry_counts : gmap string Z
}.

Definition with_self (st : scheduler) (ls : loop_state) : loop_state :=
  {| self := st; ready_tasks := ready_tasks ls;
     scheduled_count := scheduled_count ls; iteration_count := iteration_count ls;
     failed_tasks := failed_tasks ls; task_retry_counts := task_retry_counts ls |}.

Definition with_ready_tasks (h : list (Q * string)) (ls : loop_state) : loop_state :=
  {| self := self ls; ready_tasks := h;
     scheduled_count := scheduled_count ls; iteration_count := iteration_count ls;
     failed_tasks := failed_tasks ls; task_retry_counts := task_retry_counts ls |}.

Definition with_failed_tasks (f : gset string) (ls : loop_state) : loop_state :=
  {| self := self ls; ready_tasks := ready_tasks ls;
     scheduled_count := scheduled_count ls; iteration_count := iteration_count ls;
     failed_tasks := f; task_retry_counts := task_retry_counts ls |}.

Definition with_task_retry_counts (c : gmap string Z) (ls : loop_state) : loop_state :=
  {| self := self ls; ready_tasks := ready_tasks ls;
     scheduled_count := scheduled_count ls; iteration_count := iteration_count ls;
     failed_tasks := failed_tasks ls; task_retry_counts := c |}.

Definition with_scheduled_count (n : Z) (ls : loop_state) : loop_state :=
  {| self := self ls; ready_tasks := ready_tasks ls;
     scheduled_count := n; iteration_count := iteration_count ls;
     failed_tasks := failed_tasks ls; task_retry_counts := task_retry_counts ls |}.

Definition with_iteration_count (n : Z) (ls : loop_state) : loop_state :=
  {| self := self ls; ready_tasks := ready_tasks ls;
     scheduled_count := scheduled_count ls; iteration_count := n;
     failed_tasks := failed_tasks ls; task_retry_counts := task_retry_counts ls |}.

(** [constraints_by_second[task]] and [constraints_by_first[task]] *)
Definition constraints_by_second (dynamic_constraints : list constraint)
    (task : string) : list constraint :=
  List.filter (fun c => String.eqb (Second c) task) dynamic_constraints.

Definition constraints_by_first (dynamic_constraints : list constraint)
    (task : string) : list constraint :=
  List.filter (fun c => String.eqb (First c) task) dynamic_constraints.

(** The bound that a scheduled predecessor puts on the start. *)
Definition constraint_time (relationship : string) (first_schedule : sched_rec)
    (duration : Z) : Z :=
  if String.eqb relationship "Finish <= Start" then end_time first_schedule
  else if String.eqb relationship "Finish = Start" then end_time first_schedule
  else if String.eqb relationship "Start <= Start"
          || String.eqb relationship "Start = Start" then start_time first_schedule
  else if String.eqb relationship "Finish <= Finish"
       then end_time first_schedule - DateTime.minutes duration
  else if String.eqb relationship "Start <= Finish"
       then start_time first_schedule - DateTime.minutes duration
  else end_time first_schedule.

(** The loop over the constraints that end in the task: the raised
    [earliest_start] and [latest_start_constraint]. *)
Definition raise_by_predecessors (st : scheduler) (incoming : list constraint)
    (duration : Z) (earliest_start : Z) : Z * option Z :=
  fold_left
    (fun (acc : Z * option Z) c =>
       match task_schedule st !! First c with
       | Some first_schedule =>
           (Z.max (fst acc) (constraint_time (Relationship c) first_schedule duration),
            if String.eqb (Relationship c) "Start = Start"
            then Some (start_time first_schedule) else snd acc)
       | None => acc
       end)
    incoming (earliest_start, None).

(** The value of [earliest_start] when the team is chosen. *)
Definition earliest_start_of (st : scheduler) (dynamic_constraints : list constraint)
    (task_instance_id : string) (duration : Z) : Z :=
  let earliest_start :=
    if bool_decide (task_instance_id ∈ late_part_tasks st)
    then get_earliest_start_for_late_part st task_instance_id
    else start_date in
  let '(earliest_start, latest_start_constraint) :=
    raise_by_predecessors st (constraints_by_second dynamic_constraints task_instance_id)
                          duration earliest_start in
  match latest_start_constraint with
  | Some pinned => pinned
  | None => earliest_start
  end.

(** The loop over the customer teams: the best team, start and shift. *)
Definition find_customer_slot (st : scheduler) (earliest_start : Z)
    (product : option string) (mechanics_needed duration : Z)
    : res (option (string * Z * string)) :=
  let scan :=
    fold_left
      (fun (acc : res (option (string * Z * string) * Z)) (entry : string * Z) =>
         match acc with
         | Ok (best, earliest_available) =>
             if mechanics_needed <=? snd entry then
               match get_next_working_time_with_capacity st earliest_start product
                       (fst entry) mechanics_needed duration false true with
               | Ok (Some (found, found_shift)) =>
                   if found <? earliest_available
                   then Ok (Some (fst entry, found, found_shift), found)
                   else acc
               | Ok None => acc
               | Raise => Raise
               end
             else acc
         | Raise => Raise
         end)
      (customer_team_capacity st) (Ok (None, DateTime.max)) in
  match scan with
  | Ok (best, _) => Ok best
  | Raise => Raise
  end.

(** What the choice of team and slot comes to. [NoSlot mark] is the path
    that counts a retry; [mark] tells whether the third retry also puts
    the task into [failed_tasks]. *)
Inductive selection : Type :=
| Selected (scheduled_start : Z) (shift : string)
           (team_for_schedule : string) (base_team_for_schedule : option string)
| NoSlot (mark : bool)
| SelectionRaised.

Definition select_customer (st : scheduler) (task_info : task_info)
    (earliest_start : Z) : selection :=
  match find_customer_slot st earliest_start (product task_info)
          (mechanics_required task_info) (duration task_info) with
  | Raise => SelectionRaised
  | Ok None => NoSlot true
  | Ok (Some (best_team, best_start_time, best_shift)) =>
      if String.eqb best_team "" then NoSlot true
      else Selected best_start_time best_shift best_team (Some best_team)
  end.

Definition select_quality (st : scheduler) (task_instance_id : string)
    (task_info : task_info) (earliest_start : Z) : selection * scheduler :=
  let base_mechanic_team := team task_info in
  let '(quality_team, st) :=
    match map_mechanic_to_quality_team st base_mechanic_team with
    | Some quality_team => (Some quality_team, st)
    | None =>
        match quality_inspections st !! task_instance_id with
        | Some qi =>
            let primary_task_id := primary_task qi in
            match (if PyStr.truthy (Some primary_task_id)
                   then tasks st !! primary_task_id else None) with
            | Some primary_info =>
                let primary_team := team primary_info in
                match map_mechanic_to_quality_team st primary_team with
                | Some quality_team =>
                    (Some quality_team,
                     set_tasks
                       (<[task_instance_id := with_team primary_team task_info]>
                          (tasks st)) st)
                | None => (None, st)
                end
            | None => (None, st)
            end
        | None => (None, st)
        end
    end in
  match quality_team with
  | None => (NoSlot false, st)
  | Some quality_team =>
      match get_next_working_time_with_capacity st earliest_start (product task_info)
              quality_team (mechanics_required task_info) (duration task_info)
              true false with
      | Raise => (SelectionRaised, st)
      | Ok None => (NoSlot true, st)
      | Ok (Some (scheduled_start, shift)) =>
          (Selected scheduled_start shift quality_team (Some quality_team), st)
      end
  end.

Definition select_mechanic (st : scheduler) (task_info : task_info)
    (earliest_start : Z) : selection :=
  let team_for_scheduling :=
    match team_skill task_info with
    | Some declared => declared
    | None => team task_info
    end in
  match team_for_scheduling with
  | None => SelectionRaised
  | Some team_for_scheduling =>
      let base_team :=
        if PyStr.contains "(" team_for_scheduling
           && PyStr.contains ")" team_for_scheduling
        then Some (PyStr.strip (PyStr.split_head " (" team_for_scheduling))
        else team task_info in
      match get_next_working_time_with_capacity st earliest_start (product task_info)
              team_for_scheduling (mechanics_required task_info) (duration task_info)
              false false with
      | Raise => SelectionRaised
      | Ok None => NoSlot true
      | Ok (Some (scheduled_start, shift)) =>
          Selected scheduled_start shift team_for_scheduling base_team
      end
  end.

(** The three branches on the task type. *)
Definition select_team_and_slot (st : scheduler) (task_instance_id : string)
    (task_info : task_info) (earliest_start : Z) : selection * scheduler :=
  if is_customer task_info then (select_customer st task_info earliest_start, st)
  else if is_quality task_info
       then select_quality st task_instance_id task_info earliest_start
  else (select_mechanic st task_info earliest_start, st).

(** Counting a retry and queueing the task again with a penalty. *)
Definition requeue (mark : bool) (priority : Q) (task_instance_id : string)
    (ls : loop_state) : loop_state :=
  let retries := default 0 (task_retry_counts ls !! task_instance_id) + 1 in
  let ls := with_task_retry_counts
              (<[task_instance_id := retries]> (task_retry_counts ls)) ls in
  if retries <? 3 then
    with_ready_tasks
      (heapq.heappush entry_lt (ready_tasks ls)
                      ((priority + (1 # 10))%Q, task_instance_id)) ls
  else if mark then with_failed_tasks ({[task_instance_id]} ∪ failed_tasks ls) ls
  else ls.

(** The record written into [task_schedule]. *)
Definition make_record (task_info : task_info) (scheduled_start : Z) (shift : string)
    (team_for_schedule : string) (base_team_for_schedule : option string) : sched_rec :=
  {| start_time := scheduled_start;
     end_time := scheduled_start + DateTime.minutes (duration task_info);
     rec_team := base_team_for_schedule;
     rec_team_skill := team_for_schedule;
     rec_skill := skill task_info;
     rec_product := product task_info;
     rec_duration := duration task_info;
     rec_mechanics_required := mechanics_required task_info;
     rec_is_quality := is_quality task_info;
     rec_is_customer := is_customer task_info;
     rec_task_type := task_type task_info;
     shift := shift |}.

(** The loop that queues the successors that became ready. *)
Definition push_dependents (dynamic_constraints : list constraint)
    (task_instance_id : string) (ls : loop_state) : res unit * loop_state :=
  fold_left
    (fun (acc : res unit * loop_state) c =>
       match acc with
       | (Ok _, ls) =>
           let dependent := Second c in
           if bool_decide (is_Some (task_schedule (self ls) !! dependent))
              || bool_decide (dependent ∈ failed_tasks ls)
           then acc
           else
             let all_satisfied :=
               forallb (fun dep_constraint =>
                          bool_decide (is_Some (task_schedule (self ls)
                                                  !! First dep_constraint)))
                       (constraints_by_second dynamic_constraints dependent) in
             if all_satisfied
                && negb (existsb (String.eqb dependent) (snd <$> ready_tasks ls))
             then
               match calculate_task_priority recursion_limit (self ls) dependent with
               | (Ok dep_priority, st) =>
                   (Ok tt,
                    with_ready_tasks
                      (heapq.heappush entry_lt (ready_tasks ls) (dep_priority, dependent))
                      (with_self st ls))
               | (Raise, st) => (Raise, with_self st ls)
               end
             else acc
       | (Raise, _) => acc
       end)
    (constraints_by_first dynamic_constraints task_instance_id) (Ok tt, ls).

(** One iteration of the main loop. [Raise] is an exception that leaves
    [schedule_tasks]. *)
Definition loop_body (dynamic_constraints : list constraint) (ls : loop_state)
    : res unit * loop_state :=
  let ls := with_iteration_count (iteration_count ls + 1) ls in
  match heapq.heappop entry_lt (ready_tasks ls) with
  | None => (Raise, ls)
  | Some ((priority, task_instance_id), remaining) =>
      let ls := with_ready_tasks remaining ls in
      if 3 <=? default 0 (task_retry_counts ls !! task_instance_id) then
        (Ok tt,
         if bool_decide (task_instance_id ∈ failed_tasks ls) then ls
         else with_failed_tasks ({[task_instance_id]} ∪ failed_tasks ls) ls)
      else
        match tasks (self ls) !! task_instance_id with
        | None => (Raise, ls)
        | Some task_info =>
            let earliest_start :=
              earliest_start_of (self ls) dynamic_constraints task_instance_id
                                (duration task_info) in
            match select_team_and_slot (self ls) task_instance_id task_info
                                       earliest_start with
            | (SelectionRaised, st) =>
                (Ok tt, requeue true priority task_instance_id (with_self st ls))
            | (NoSlot mark, st) =>
                (Ok tt, requeue mark priority task_instance_id (with_self st ls))
            | (Selected scheduled_start shift team_for_schedule base_team, st) =>
                let ls := with_self st ls in
                if DateTime.year_gt_2030 scheduled_start then
                  (Ok tt, with_failed_tasks ({[task_instance_id]} ∪ failed_tasks ls) ls)
                else
                  let record := make_record task_info scheduled_start shift
                                            team_for_schedule base_team in
                  let ls :=
                    with_self (set_task_schedule
                                 (<[task_instance_id := record]> (task_schedule st)) st)
                              ls in
                  let ls := with_scheduled_count (scheduled_count ls + 1) ls in
                  match push_dependents dynamic_constraints task_instance_id ls with
                  | (Ok _, ls) => (Ok tt, ls)
                  | (Raise, ls) => (Ok tt, requeue true priority task_instance_id ls)
                  end
            end
        end
  end.

(** The [while] loop; [fuel] bounds the iterations that the guard
    [iteration_count < max_iterations] allows. *)
Fixpoint main_loop (fuel : nat) (dynamic_constraints : list constraint)
    (total_tasks max_iterations : Z) (ls : loop_state) : res unit * loop_state :=
  match fuel with
  | O => (Ok tt, ls)
  | S f =>
      if negb (bool_decide (ready_tasks ls = []))
         && (scheduled_count ls <? total_tasks)
         && (iteration_count ls <? max_iterations)
      then
        match loop_body dynamic_constraints ls with
        | (Ok _, ls) => main_loop f dynamic_constraints total_tasks max_iterations ls
        | (Raise, ls) => (Raise, ls)
        end
      else (Ok tt, ls)
  end.

(** Queueing the initially ready tasks; the first exception of
    [calculate_task_priority] leaves [schedule_tasks]. *)
Definition push_initial (candidates : list string) (start : res unit * loop_state)
    : res unit * loop_state :=
  fold_left
    (fun (acc : res unit * loop_state) task =>
       match acc with
       | (Ok _, ls) =>
           match calculate_task_priority recursion_limit (self ls) task with
           | (Ok priority, st) =>
               (Ok tt,
                with_ready_tasks
                  (heapq.heappush entry_lt (ready_tasks ls) (priority, task))
                  (with_self st ls))
           | (Raise, st) => (Raise, with_self st ls)
           end
       | (Raise, _) => acc
       end)
    candidates start.

(** [schedule_tasks]. The block under [if not ready_tasks] inside the
    loop is unreachable behind the loop guard and is left out. *)
Definition schedule_tasks (silent_mode : bool) (st : scheduler) : res unit * scheduler :=
  let st := set_critical_path_cache ∅ (set_task_schedule ∅ st) in
  let '(valid, st) :=
    if silent_mode then (Ok true, st) else validate_dag st in
  match valid with
  | Raise | Ok false => (Raise, st)
  | Ok true =>
      let '(dynamic_constraints, st) := build_dynamic_dependencies st in
      let all_tasks := (map_to_list (tasks st)).*1 in
      let total_tasks := Z.of_nat (size (tasks st)) in
      let tasks_with_incoming_constraints :=
        remove_dups (Second <$> dynamic_constraints) in
      let tasks_with_outgoing_constraints :=
        remove_dups (First <$> dynamic_constraints) in
      let is_in (l : list string) (t : string) := existsb (String.eqb t) l in
      let orphaned_tasks :=
        List.filter (fun t => negb (is_in tasks_with_incoming_constraints t)
                              && negb (is_in tasks_with_outgoing_constraints t))
                    all_tasks in
      let tasks_with_only_outgoing :=
        List.filter (fun t => negb (is_in tasks_with_incoming_constraints t))
                    tasks_with_outgoing_constraints in
      let unblocked :=
        List.filter
          (fun t =>
             negb (existsb
                     (fun c => is_in ["Finish <= Start"; "Finish = Start";
                                      "Finish <= Finish"] (Relationship c))
                     (constraints_by_second dynamic_constraints t)))
          tasks_with_incoming_constraints in
      let ls0 := {| self := st; ready_tasks := []; scheduled_count := 0;
                    iteration_count := 0; failed_tasks := ∅;
                    task_retry_counts := ∅ |} in
      match push_initial unblocked
              (push_initial tasks_with_only_outgoing
                 (push_initial orphaned_tasks (Ok tt, ls0))) with
      | (Raise, ls) => (Raise, self ls)
      | (Ok _, ls) =>
          let max_iterations := total_tasks * 10 in
          let '(r, ls) :=
            main_loop (Z.to_nat max_iterations) dynamic_constraints
                      total_tasks max_iterations ls in
          (r, self ls)
      end
  end.

End Engine.

(** ** Delivery metrics *)

(** An entry of the result of [calculate_lateness_metrics] (the key
    [task_breakdown] is left out). *)
Record product_metrics : Type := {
  delivery_date : Z;
  projected_completion : option Z;
  lateness_days : Z;
  on_time : bool;
  product_total_tasks : nat
}.

(** [calculate_lateness_metrics] *)
Definition calculate_lateness_metrics (st : scheduler) : gmap string product_metrics :=
  map_imap
    (fun product delivery =>
       let product_tasks :=
         List.filter (fun schedule => bool_decide (rec_product schedule = Some product))
                     (map_to_list (task_schedule st)).*2 in
       match product_tasks with
       | [] =>
           Some {| delivery_date := delivery; projected_completion := None;
                   lateness_days := 999999; on_time := false;
                   product_total_tasks := 0 |}
       | first :: others =>
           let last_task_end :=
             fold_left (fun acc task => Z.max acc (end_time task)) others
                       (end_time first) in
           let late := DateTime.td_days (last_task_end - delivery) in
           Some {| delivery_date := delivery;
                   projected_completion := Some last_task_end;
                   lateness_days := late; on_time := late <=? 0;
                   product_total_tasks := length product_tasks |}
       end)
    (delivery_dates st).

(** The integer entries of the result of [evaluate_delivery_performance];
    the averages, which are floats, are left out. *)
Record performance : Type := {
  max_lateness : Z;
  min_lateness : Z;
  products_on_target : Z;
  products_early : Z;
  total_workforce : Z;
  scheduled_tasks : nat;
  total_tasks : nat;
  makespan : Z
}.

Definition sum_values (m : gmap string Z) : Z :=
  map_fold (fun _ v acc => acc + v) 0 m.

(** [evaluate_delivery_performance], without the utilisation average. *)
Definition evaluate_delivery_performance (st : scheduler) : performance :=
  let lateness_metrics := calculate_lateness_metrics st in
  let lateness_values :=
    lateness_days <$>
      List.filter (fun metrics =>
                     bool_decide (is_Some (projected_completion metrics))
                     && (lateness_days metrics <? 999999))
                  (map_to_list lateness_metrics).*2 in
  {| max_lateness :=
       match lateness_values with
       | [] => 999999
       | v :: vs => fold_left Z.max vs v
       end;
     min_lateness :=
       match lateness_values with
       | [] => 999999
       | v :: vs => fold_left Z.min vs v
       end;
     products_on_target :=
       Z.of_nat (length (List.filter (fun v => v <=? -1) lateness_values));
     products_early :=
       Z.of_nat (length (List.filter (fun v => v <? 0) lateness_values));
     total_workforce :=
       sum_values (team_capacity st) + sum_values (quality_team_capacity st);
     scheduled_tasks := size (task_schedule st);
     total_tasks := size (tasks st);
     makespan := calculate_makespan st |}.

(** ** Scenario drivers *)

(** The team that [fix_unscheduled_tasks] and
    [calculate_minimum_team_requirements] read from a task:
    [task_info.get('team_skill', task_info.get('team'))]. *)
Definition declared_team (info : task_info) : option string :=
  match team_skill info with
  | Some declared => declared
  | None => team info
  end.

(** The loops [for team, capacity in original.items():
    capacities[team] = capacity] that restore the capacities. *)
Definition restore_capacities (original current : gmap string Z) : gmap string Z :=
  map_fold (fun team capacity acc => <[team := capacity]> acc) current original.

(** [apply_capacity_configuration] *)
Definition apply_capacity_configuration (config : configuration)
    (st : scheduler) : scheduler :=
  set_quality_team_capacity
    (restore_capacities (quality config) (quality_team_capacity st))
    (set_team_capacity
       (restore_capacities (mechanic config) (team_capacity st)) st).

(** The statements [self.task_schedule = {}; self._critical_path_cache = {}]
    of the scenario loops. *)
Definition clear_previous_schedule (st : scheduler) : scheduler :=
  set_critical_path_cache ∅ (set_task_schedule ∅ st).

(** Restoring both capacity tables from the stored originals. *)
Definition restore_original_capacities (original_team original_quality : gmap string Z)
    (st : scheduler) : scheduler :=
  set_quality_team_capacity
    (restore_capacities original_quality (quality_team_capacity st))
    (set_team_capacity (restore_capacities original_team (team_capacity st)) st).

(** [calculate_minimum_team_requirements] *)
Definition calculate_minimum_team_requirements (st : scheduler) : gmap string Z :=
  let initial : gmap string Z :=
    ((fun _ => 0) <$> quality_team_capacity st) ∪ ((fun _ => 0) <$> team_capacity st) in
  let by_tasks :=
    map_fold
      (fun _ task_info (acc : gmap string Z) =>
         if PyStr.truthy (declared_team task_info) then
           match acc !! default "" (declared_team task_info) with
           | Some known =>
               <[default "" (declared_team task_info) :=
                   Z.max known (mechanics_required task_info)]> acc
           | None => acc
           end
         else acc)
      initial (tasks st) in
  map_fold
    (fun qi_id qi_info (acc : gmap string Z) =>
       match tasks st !! qi_id with
       | Some info =>
           if PyStr.truthy (team info) then
             match acc !! default "" (team info) with
             | Some known => <[default "" (team info) := Z.max known (headcount qi_info)]> acc
             | None => acc
             end
           else acc
       | None => acc
       end)
    by_tasks (quality_inspections st).

(** [initialize_moderate_capacity] *)
Definition initialize_moderate_capacity (st : scheduler) : configuration :=
  let min_requirements := calculate_minimum_team_requirements st in
  {| mechanic :=
       map_imap (fun team _ =>
                   Some (Z.max (default 2 (min_requirements !! team) + 2) 5))
                (_original_team_capacity st);
     quality :=
       map_imap (fun team _ =>
                   Some (Z.max (default 1 (min_requirements !! team) + 1) 3))
                (_original_quality_capacity st) |}.

(** [fix_unscheduled_tasks] *)
Definition fix_unscheduled_tasks (st : scheduler) (config : configuration)
    : configuration :=
  map_fold
    (fun task_id task_info (new_config : configuration) =>
       if bool_decide (is_Some (task_schedule st !! task_id)) then new_config
       else if PyStr.truthy (declared_team task_info) then
         let team := default "" (declared_team task_info) in
         if PyStr.contains "Quality" team then
           {| mechanic := mechanic new_config;
              quality := <[team := default 0 (quality new_config !! team) + 1]>
                           (quality new_config) |}
         else
           {| mechanic := <[team := default 0 (mechanic new_config !! team) + 1]>
                            (mechanic new_config);
              quality := quality new_config |}
       else new_config)
    config (tasks st).

(** [increase_all_capacity] *)
Definition increase_all_capacity (config : configuration) (amount : Z) : configuration :=
  {| mechanic := (fun v => v + amount) <$> mechanic config;
     quality := (fun v => v + amount) <$> quality config |}.

(** [reduce_random_teams] and [increase_random_teams], given the teams
    that [random.sample] drew. *)
Definition reduce_random_teams (config : configuration) (teams_to_reduce : list string)
    : configuration :=
  {| mechanic :=
       fold_left (fun acc team =>
                    match acc !! team with
                    | Some v => if 2 <? v then <[team := v - 1]> acc else acc
                    | None => acc
                    end) teams_to_reduce (mechanic config);
     quality := quality config |}.

Definition increase_random_teams (config : configuration) (teams_to_increase : list string)
    : configuration :=
  {| mechanic :=
       fold_left (fun acc team =>
                    match acc !! team with
                    | Some v => <[team := v + 1]> acc
                    | None => acc
                    end) teams_to_increase (mechanic config);
     quality := quality config |}.

(** [fine_tune_workforce], given the team that [random.choice] drew among
    the teams of low utilisation ([None] when there is none). *)
Definition fine_tune_workforce (config : configuration) (drawn : option string)
    : configuration :=
  match drawn with
  | None => config
  | Some team =>
      if PyStr.contains "Quality" team && (1 <? default 0 (quality config !! team)) then
        {| mechanic := mechanic config;
           quality := <[team := default 0 (quality config !! team) - 1]> (quality config) |}
      else
        match mechanic config !! team with
        | Some v =>
            if 2 <? v
            then {| mechanic := <[team := v - 1]> (mechanic config);
                    quality := quality config |}
            else config
        | None => config
        end
  end.

(** What a scenario cannot compute from the scheduler object alone: the
    draws of [random] and the floating-point utilisation figures. Every
    entry is indexed by the iteration. *)
Record oracle : Type := {
  (** the utilisation average of [evaluate_delivery_performance] raised *)
  utilisation_raises : nat -> bool;
  (** [random.random() < probability] for a probability strictly between
      0 and 1 *)
  accepts : nat -> bool;
  (** [random.sample(population, k)] *)
  sampled : nat -> list string -> nat -> list string;
  (** the draw of [fine_tune_workforce]; [Raise] when the utilisation
      figures raised *)
  low_utilisation_draw : nat -> res (option string)
}.

Section Scenarios.

Variable compose_dynamic_constraints : scheduler -> list constraint.
Variable now : Z.

(** [generate_global_priority_list]: the run of the engine, then the pass
    over the schedule that computes the priority of every placed task.
    The list itself, stored in [global_priority_list], is not kept. *)
Definition generate_global_priority_list (silent_mode : bool) (st : scheduler)
    : res unit * scheduler :=
  match schedule_tasks compose_dynamic_constraints now silent_mode st with
  | (Raise, st) => (Raise, st)
  | (Ok _, st) =>
      fold_left
        (fun (acc : res unit * scheduler) task_instance_id =>
           match acc with
           | (Ok _, st) =>
               match calculate_task_priority compose_dynamic_constraints now
                       recursion_limit st task_instance_id with
               | (Ok _, st) => (Ok tt, st)
               | (Raise, st) => (Raise, st)
               end
           | (Raise, _) => acc
           end)
        (map_to_list (task_schedule st)).*1 (Ok tt, st)
  end.

(** The local variables of [scenario_2_minimize_makespan]. [best] holds
    [best_makespan], the mechanic and quality capacities of [best_config]
    and [best_metrics]. *)
Record search_state : Type := {
  s2_self : scheduler;
  mech_low : Z;
  mech_high : Z;
  qual_low : Z;
  qual_high : Z;
  best : option (Z * Z * Z * gmap string product_metrics)
}.

(** One iteration of the binary search. *)
Definition s2_iteration (s : search_state) : search_state :=
  let mech_capacity := (mech_low s + mech_high s) / 2 in
  let qual_capacity := (qual_low s + qual_high s) / 2 in
  let st := s2_self s in
  let st := set_team_capacity ((fun _ => mech_capacity) <$> team_capacity st) st in
  let st := set_quality_team_capacity
              ((fun _ => qual_capacity) <$> quality_team_capacity st) st in
  let st := clear_previous_schedule st in
  match generate_global_priority_list true st with
  | (Ok _, st) =>
      let scheduled_count := size (task_schedule st) in
      let total_tasks := size (tasks st) in
      if (scheduled_count =? total_tasks)%nat then
        let makespan := calculate_makespan st in
        let improved :=
          match best s with
          | Some (best_makespan, _, _, _) => makespan <? best_makespan
          | None => true
          end in
        {| s2_self := st;
           mech_low := mech_low s; mech_high := mech_capacity - 1;
           qual_low := qual_low s; qual_high := qual_capacity - 1;
           best := if improved
                   then Some (makespan, mech_capacity, qual_capacity,
                              calculate_lateness_metrics st)
                   else best s |}
      else
        {| s2_self := st;
           mech_low := mech_capacity + 1; mech_high := mech_high s;
           qual_low := qual_capacity + 1; qual_high := qual_high s;
           best := best s |}
  | (Raise, st) =>
      {| s2_self := st;
         mech_low := mech_capacity + 1; mech_high := mech_high s;
         qual_low := qual_capacity + 1; qual_high := qual_high s;
         best := best s |}
  end.

(** The [while iterations < max_iterations] loop with its [break]. *)
Fixpoint s2_loop (fuel : nat) (s : search_state) : search_state :=
  match fuel with
  | O => s
  | S f =>
      let s := s2_iteration s in
      if (mech_high s <? mech_low s) || (qual_high s <? qual_low s) then s
      else s2_loop f s
  end.

(** [scenario_2_minimize_makespan]: the object afterwards and the result
    ([None] or the optimal capacities with the makespan, the metrics and
    the total headcount). *)
Definition scenario_2_minimize_makespan
    (min_mechanics max_mechanics min_quality max_quality : Z) (st : scheduler)
    : scheduler * option (Z * Z * Z * gmap string product_metrics * Z) :=
  let original_team := _original_team_capacity st in
  let original_quality := _original_quality_capacity st in
  let s := s2_loop 20 {| s2_self := st;
                         mech_low := min_mechanics; mech_high := max_mechanics;
                         qual_low := min_quality; qual_high := max_quality;
                         best := None |} in
  let st := restore_original_capacities original_team original_quality (s2_self s) in
  (st,
   match best s with
   | Some (best_makespan, mechanics, quality_capacity, best_metrics) =>
       Some (mechanics, quality_capacity, best_makespan, best_metrics,
             mechanics * Z.of_nat (size (team_capacity st))
             + quality_capacity * Z.of_nat (size (quality_team_capacity st)))
   | None => None
   end).

(** The local variables of [scenario_3_simulated_annealing]. *)
Record annealing_state : Type := {
  s3_self : scheduler;
  current_config : configuration;
  best_config : configuration;
  best_score : option Z;
  best_metrics : option performance;
  temperature : Q;
  no_improvement : Z
}.

(** One pass through the body of the [for] loop; the boolean tells
    whether the loop was left by [break]. *)
Definition s3_iteration (draws : oracle) (target_earliness : Z)
    (initial_temp cooling_rate : Q) (iteration : nat) (a : annealing_state)
    : annealing_state * bool :=
  let st := clear_previous_schedule
              (apply_capacity_configuration (current_config a) (s3_self a)) in
  let raised (st : scheduler) :=
    ({| s3_self := st;
        current_config := increase_all_capacity (current_config a) 2;
        best_config := best_config a; best_score := best_score a;
        best_metrics := best_metrics a;
        temperature := temperature a; no_improvement := no_improvement a |},
     false) in
  match generate_global_priority_list true st with
  | (Raise, st) => raised st
  | (Ok _, st) =>
      let metrics := evaluate_delivery_performance st in
      if (0 <? makespan metrics) && (makespan metrics <? 999999)
         && utilisation_raises draws iteration
      then raised st
      else
        let distance := Z.abs (max_lateness metrics - target_earliness) in
        let current_score :=
          distance ^ 2 * 1000
          + (if (scheduled_tasks metrics <? total_tasks metrics)%nat
             then (Z.of_nat (total_tasks metrics) - Z.of_nat (scheduled_tasks metrics))
                  * 5000
             else 0)
          + (if distance <=? 2 then total_workforce metrics * 5 else 0) in
        let improves :=
          match best_score a with
          | Some known => current_score <? known
          | None => true
          end in
        if improves && (distance =? 0) && (50 <? Z.of_nat iteration) then
          ({| s3_self := st;
              current_config := current_config a;
              best_config := current_config a;
              best_score := Some current_score;
              best_metrics := Some metrics;
              temperature := temperature a; no_improvement := 0 |},
           true)
        else
          let accepted :=
            if improves then true
            else
              let delta := current_score - default 0 (best_score a) in
              if Qle_bool (temperature a) 0 then false
              else if delta =? 0 then true
              else accepts draws iteration in
          let config :=
            if accepted then current_config a else best_config a in
          let stalled :=
            if accepted then 0 else no_improvement a + 1 in
          let neighbour : res configuration :=
            if (scheduled_tasks metrics <? total_tasks metrics)%nat
            then Ok (fix_unscheduled_tasks st config)
            else if max_lateness metrics <? target_earliness then
              Ok (reduce_random_teams config
                    (sampled draws iteration (map_to_list (mechanic config)).*1
                       (Z.to_nat (Z.min (Z.min 5 (Z.abs distance))
                                        (Z.of_nat (size (mechanic config)))))))
            else if target_earliness <? max_lateness metrics then
              Ok (increase_random_teams config
                    (sampled draws iteration (map_to_list (mechanic config)).*1
                       (Z.to_nat (Z.min (Z.min 5 (distance + 1))
                                        (Z.of_nat (size (mechanic config)))))))
            else
              match low_utilisation_draw draws iteration with
              | Ok drawn => Ok (fine_tune_workforce config drawn)
              | Raise => Raise
              end in
          let after_acceptance (c : configuration) :=
            {| s3_self := st;
               current_config := c;
               best_config := if improves then current_config a else best_config a;
               best_score := if improves then Some current_score else best_score a;
               best_metrics := if improves then Some metrics else best_metrics a;
               temperature := temperature a; no_improvement := stalled |} in
          match neighbour with
          | Raise =>
              ({| s3_self := st;
                  current_config := increase_all_capacity config 2;
                  best_config := if improves then current_config a else best_config a;
                  best_score := if improves then Some current_score else best_score a;
                  best_metrics := if improves then Some metrics else best_metrics a;
                  temperature := temperature a; no_improvement := stalled |},
               false)
          | Ok next =>
              let cooled := (temperature a * cooling_rate)%Q in
              ({| s3_self := st;
                  current_config := next;
                  best_config := if improves then current_config a else best_config a;
                  best_score := if improves then Some current_score else best_score a;
                  best_metrics := if improves then Some metrics else best_metrics a;
                  temperature := if 30 <? stalled
                                 then (initial_temp * (1 # 2))%Q else cooled;
                  no_improvement := if 30 <? stalled then 0 else stalled |},
               false)
          end
  end.

(** The loop [for iteration in range(max_iterations)]. *)
Fixpoint s3_loop (draws : oracle) (target_earliness : Z) (initial_temp cooling_rate : Q)
    (remaining : nat) (iteration : nat) (a : annealing_state) : annealing_state :=
  match remaining with
  | O => a
  | S n =>
      let '(a, stop) :=
        s3_iteration draws target_earliness initial_temp cooling_rate iteration a in
      if stop then a
      else s3_loop draws target_earliness initial_temp cooling_rate n (S iteration) a
  end.

(** [scenario_3_simulated_annealing]: the object afterwards, the best
    configuration and its metrics. *)
Definition scenario_3_simulated_annealing (draws : oracle) (target_earliness : Z)
    (max_iterations : nat) (initial_temp cooling_rate : Q) (st : scheduler)
    : scheduler * configuration * option performance :=
  let original_team := _original_team_capacity st in
  let original_quality := _original_quality_capacity st in
  let initial := initialize_moderate_capacity st in
  let a := s3_loop draws target_earliness initial_temp cooling_rate max_iterations 0
             {| s3_self := st; current_config := initial; best_config := initial;
                best_score := None; best_metrics := None;
                temperature := initial_temp; no_improvement := 0 |} in
  (restore_original_capacities original_team original_quality (s3_self a),
   best_config a, best_metrics a).

End Scenarios.


(** ** The capacity check by a sweep over events *)

(** The order of the sort keys [(time, delta)] of the events. *)
Definition event_le (a b : Z * Z) : Prop :=
  fst a < fst b \/ (fst a = fst b /\ snd a <= snd b).

#[global] Instance event_le_dec : RelDecision event_le.
Proof. intros a b. unfold event_le. apply _. Defined.

(** The two events of a record, cut to the window [from, to); the tags
    'start' and 'end' are left out, since both branches on the tag add
    the delta. *)
Definition window_events (from to : Z) (sched : sched_rec) : list (Z * Z) :=
  let overlap_start := Z.max (start_time sched) from in
  let overlap_end := Z.min (end_time sched) to in
  if overlap_start <? overlap_end
  then [ (overlap_start, rec_mechanics_required sched);
         (overlap_end, - rec_mechanics_required sched) ]
  else [].

(** The loop over the sorted events: the usage after the last event and
    the highest usage seen. *)
Definition sweep (events : list (Z * Z)) : Z * Z :=
  fold_left
    (fun (acc : Z * Z) (event : Z * Z) =>
       let current_usage := fst acc + snd event in
       (current_usage, Z.max (snd acc) current_usage))
    events (0, 0).

(** [check_team_capacity_at_time] *)
Definition check_team_capacity_at_time (st : scheduler) (team : string)
    (from to mechanics_needed : Z) : bool :=
  let capacity := capacity_of_team st team in
  if capacity =? 0 then false
  else if capacity <? mechanics_needed then false
  else
    let overlapping_tasks :=
      List.filter
        (fun sched =>
           String.eqb (rec_team_skill sched) team
           && (start_time sched <? to) && (from <? end_time sched))
        (map_to_list (task_schedule st)).*2 in
    let events :=
      merge_sort event_le (flat_map (window_events from to) overlapping_tasks) in
    let max_usage := snd (sweep events) in
    negb (capacity <? max_usage + mechanics_needed).
(* ================================================================== *)
(** * Part II: theorems *)
(* ================================================================== *)

(** ** Relationship normalisation and constraint checking *)

Section Relationships.

(** The six normalised relationship names. *)
Definition canonical_relationships : list string :=
  [ "Finish <= Start"; "Finish = Start"; "Finish <= Finish";
    "Start <= Start"; "Start = Start"; "Start <= Finish" ].

(** A relationship text is recognised when, stripped, it is an alias of
    [mappings] or already a normalised name. *)
Definition recognised (s : string) : bool :=
  match assoc_get (PyStr.strip s) mappings with
  | Some _ => true
  | None => existsb (String.eqb (PyStr.strip s)) canonical_relationships
  end.

(** What the checker answers for Finish <= Start. *)
Definition finish_start_answer (fs ss : sched_rec) : bool * option Z * option Z :=
  (end_time fs <=? start_time ss,
   Some (end_time fs),
   Some (end_time fs + DateTime.minutes (rec_duration ss))).

Local Ltac eqb_cases :=
  repeat match goal with
         | |- context [String.eqb ?a ?b] =>
             let E := fresh "E" in
             destruct (String.eqb a b) eqn:E;
             [ apply String.eqb_eq in E | ]
         end.

Lemma normalize_missing :
  _normalize_relationship_type None = "Finish <= Start"
  /\ _normalize_relationship_type (Some "") = "Finish <= Start".
Proof. split; reflexivity. Qed.

Lemma normalize_not_alias (r : string) :
  r <> "" ->
  assoc_get (PyStr.strip r) mappings = None ->
  _normalize_relationship_type (Some r) = PyStr.strip r.
Proof.
  intros Hr Hget. unfold _normalize_relationship_type, PyStr.truthy.
  destruct (String.eqb r "") eqn:E.
  - apply String.eqb_eq in E. contradiction.
  - cbn [negb]. change (default "" (Some r)) with r.
    rewrite Hget. reflexivity.
Qed.

Lemma normalize_alias (r v : string) :
  r <> "" ->
  assoc_get (PyStr.strip r) mappings = Some v ->
  _normalize_relationship_type (Some r) = v.
Proof.
  intros Hr Hget. unfold _normalize_relationship_type, PyStr.truthy.
  destruct (String.eqb r "") eqn:E.
  - apply String.eqb_eq in E. contradiction.
  - cbn [negb]. change (default "" (Some r)) with r.
    rewrite Hget. reflexivity.
Qed.

Lemma unrecognised_not_canonical (s : string) :
  recognised s = false ->
  assoc_get (PyStr.strip s) mappings = None
  /\ forall c, In c canonical_relationships -> String.eqb (PyStr.strip s) c = false.
Proof.
  unfold recognised. destruct (assoc_get (PyStr.strip s) mappings); [discriminate |].
  intros H. split; [reflexivity |]. intros c Hc.
  destruct (String.eqb (PyStr.strip s) c) eqn:E; [| reflexivity].
  assert (existsb (String.eqb (PyStr.strip s)) canonical_relationships = true)
    by (apply existsb_exists; exists c; auto).
  congruence.
Qed.

Lemma check_with_normal_form (fs ss : sched_rec) (rel : option string) :
  (forall c, In c canonical_relationships ->
             String.eqb (_normalize_relationship_type rel) c = false) ->
  check_constraint_satisfied (Some fs) (Some ss) rel = finish_start_answer fs ss.
Proof.
  intros H. unfold check_constraint_satisfied, finish_start_answer.
  rewrite !H by (simpl; tauto). reflexivity.
Qed.

End Relationships.

(** C9, as stated, fails: a text that is no alias is returned stripped,
    not unchanged. *)
Lemma normalize_not_unchanged :
  ~ (forall r : string,
        assoc_get r mappings = None -> r <> "" ->
        _normalize_relationship_type (Some r) = r).
Proof.
  intros H. specialize (H " XYZ " eq_refl).
  assert (Hne : " XYZ " <> "") by discriminate.
  specialize (H Hne). vm_compute in H. discriminate.
Qed.

(** C9 (amended): an empty or missing relationship normalises to
    'Finish <= Start'; a relationship that, once stripped of surrounding
    white space, is neither an alias nor a normalised name is returned
    stripped (unchanged when it has no surrounding white space); and the
    constraint check treats both kinds exactly as Finish <= Start: it is
    satisfied iff end(first) <= start(second). *)
Theorem unrecognised_relationship_is_finish_start
    (rel : option string) (fs ss : sched_rec) :
  (forall s, rel = Some s -> recognised s = false) ->
  _normalize_relationship_type rel
    = (if PyStr.truthy rel then PyStr.strip (default "" rel) else "Finish <= Start")
  /\ check_constraint_satisfied (Some fs) (Some ss) rel = finish_start_answer fs ss
  /\ (fst (fst (check_constraint_satisfied (Some fs) (Some ss) rel)) = true
      <-> end_time fs <= start_time ss).
Proof.
  intros Hrec.
  assert (Hnorm : _normalize_relationship_type rel
    = (if PyStr.truthy rel then PyStr.strip (default "" rel) else "Finish <= Start")).
  { destruct rel as [s |]; [| reflexivity].
    destruct (String.eqb s "") eqn:E.
    - apply String.eqb_eq in E. subst s. reflexivity.
    - assert (Hs : s <> "") by (intros ->; discriminate).
      destruct (unrecognised_not_canonical s (Hrec s eq_refl)) as [Hget _].
      rewrite (normalize_not_alias s Hs Hget).
      unfold PyStr.truthy. rewrite E. reflexivity. }
  assert (Hcheck : check_constraint_satisfied (Some fs) (Some ss) rel
                   = finish_start_answer fs ss).
  { destruct rel as [s |]; [| reflexivity].
    destruct (String.eqb s "") eqn:E.
    - apply String.eqb_eq in E. subst s. reflexivity.
    - apply check_with_normal_form. intros c Hc.
      assert (Hs : s <> "") by (intros ->; discriminate).
      destruct (unrecognised_not_canonical s (Hrec s eq_refl)) as [Hget Hcan].
      rewrite (normalize_not_alias s Hs Hget). auto. }
  split; [exact Hnorm |]. split; [exact Hcheck |].
  rewrite Hcheck. unfold finish_start_answer. simpl. apply Z.leb_le.
Qed.

Definition sample_record (s e : Z) : sched_rec :=
  {| start_time := s; end_time := e; rec_team := Some "Mechanic Team 1";
     rec_team_skill := "Mechanic Team 1"; rec_skill := None;
     rec_product := Some "Product A"; rec_duration := 60;
     rec_mechanics_required := 1; rec_is_quality := false;
     rec_is_customer := false; rec_task_type := "Production"; shift := "1st" |}.

Lemma unrecognised_relationship_witness :
  _normalize_relationship_type (Some " XYZ ") = "XYZ"
  /\ check_constraint_satisfied (Some (sample_record 0 10)) (Some (sample_record 10 20))
       (Some " XYZ ")
     = finish_start_answer (sample_record 0 10) (sample_record 10 20).
Proof.
  assert (H : forall s, Some " XYZ " = Some s -> recognised s = false).
  { intros s [= <-]. vm_compute. reflexivity. }
  pose proof (unrecognised_relationship_is_finish_start
                (Some " XYZ ") (sample_record 0 10) (sample_record 10 20) H) as [Hn [Hc _]].
  split; [exact Hn | exact Hc].
Defined.

(** C10: whatever the relationship, a constraint with an endpoint that has
    no schedule record is reported satisfied, with no derived bounds. *)
Theorem unplaced_endpoint_is_satisfied :
  (forall (ss : option sched_rec) (rel : option string),
      check_constraint_satisfied None ss rel = (true, None, None))
  /\ (forall (fs : option sched_rec) (rel : option string),
      check_constraint_satisfied fs None rel = (true, None, None)).
Proof.
  split.
  - intros ss rel. reflexivity.
  - intros [fs |] rel; reflexivity.
Qed.

(** ** Calendar arithmetic *)

Section Calendar.

Lemma minute_range (t : Z) : 0 <= DateTime.minute t < 60.
Proof.
  unfold DateTime.minute, DateTime.us_per_hour, DateTime.us_per_minute.
  pose proof (Z.mod_pos_bound t 3600000000 ltac:(lia)) as Hm.
  split.
  - apply Z.div_pos; lia.
  - apply Z.div_lt_upper_bound; lia.
Qed.

Lemma minute_floor (t : Z) :
  DateTime.minute t * DateTime.us_per_minute <= t mod DateTime.us_per_hour.
Proof.
  unfold DateTime.minute, DateTime.us_per_hour, DateTime.us_per_minute.
  pose proof (Z.mul_div_le (t mod 3600000000) 60000000 ltac:(lia)). lia.
Qed.

Lemma round_up_15_ge (t : Z) : t <= round_up_15 t.
Proof.
  unfold round_up_15.
  pose proof (minute_range t) as Hr.
  pose proof (minute_floor t) as Hf.
  destruct (negb (DateTime.minute t mod 15 =? 0)); [| lia].
  set (m := DateTime.minute t) in *.
  assert (Hq : m < (m / 15 + 1) * 15).
  { pose proof (Z.div_mod m 15 ltac:(lia)).
    pose proof (Z.mod_pos_bound m 15 ltac:(lia)). lia. }
  destruct (60 <=? (m / 15 + 1) * 15) eqn:E.
  - unfold DateTime.replace_minute, DateTime.hours. fold m.
    pose proof (Z.mod_pos_bound t DateTime.us_per_hour ltac:(reflexivity)) as Hb.
    unfold DateTime.us_per_hour, DateTime.us_per_minute in *. lia.
  - unfold DateTime.replace_minute. fold m.
    unfold DateTime.us_per_minute in *. lia.
Qed.

End Calendar.

(** ** The earliest feasible slot *)

Section NextWorkingTimeFacts.

Variable st : scheduler.
Variables (current_time : Z) (product_line : option string) (team : string).
Variables (mechanics_needed duration : Z) (is_quality is_customer : bool).

(** The day examined at offset [days_ahead]. *)
Definition check_date_at (days_ahead : Z) : Z :=
  DateTime.midnight (current_time + DateTime.days days_ahead).

(** The window of [shift] at offset [days_ahead], when the shift is
    defined and its hours are well formed. *)
Definition shift_window (days_ahead : Z) (shift : string) : option (Z * Z) :=
  match shift_hours st !! shift with
  | Some shift_info =>
      match shift_bounds current_time days_ahead (check_date_at days_ahead)
                         shift shift_info with
      | Ok w => Some w
      | Raise => None
      end
  | None => None
  end.

(** The candidate of one shift on one day is accepted (4.4, steps b-f):
    the window has not ended, the start is the later of the window start
    and the requested time rounded up to a 15-minute mark, the task ends
    inside the window, and enough headcount is free. *)
Definition accepted_in_shift (days_ahead : Z) (shift : string) (start : Z) : Prop :=
  exists ws we,
    shift_window days_ahead shift = Some (ws, we)
    /\ current_time < we
    /\ start = round_up_15 (Z.max ws current_time)
    /\ start + DateTime.minutes duration <= we
    /\ mechanics_needed
       <= capacity_for st team is_quality is_customer
          - conflicts st team is_quality is_customer
                      start (start + DateTime.minutes duration).

(** A feasible slot in the words of the specification (4.4, step 1): a
    working day at an offset below 30 and a shift of the team whose
    candidate is accepted. *)
Definition feasible_slot (days_ahead : Z) (shift : string) (start : Z) : Prop :=
  0 <= days_ahead < 30
  /\ is_working_day st (check_date_at days_ahead) product_line = true
  /\ In shift (shifts_for st team is_quality is_customer)
  /\ accepted_in_shift days_ahead shift start.

(** Every entry of [shift_hours] parses to a time of day. *)
Definition shift_hours_wellformed : Prop :=
  forall shift shift_info,
    shift_hours st !! shift = Some shift_info ->
    exists sh sm eh em,
      _parse_shift_time (fst shift_info) = Ok (sh, sm)
      /\ _parse_shift_time (snd shift_info) = Ok (eh, em)
      /\ 0 <= sh < 24 /\ 0 <= sm < 60 /\ 0 <= eh < 24 /\ 0 <= em < 60.

Local Abbreviation search_shifts' :=
  (search_shifts st current_time team mechanics_needed duration is_quality is_customer).
Local Abbreviation search_days' :=
  (search_days st current_time product_line team mechanics_needed duration
               is_quality is_customer).
Local Abbreviation get_next :=
  (get_next_working_time_with_capacity st current_time product_line team
     mechanics_needed duration is_quality is_customer).

Lemma search_shifts_sound (days_ahead : Z) (shifts : list string) (start : Z)
    (shift : string) :
  search_shifts' days_ahead (check_date_at days_ahead) shifts = Ok (Some (start, shift)) ->
  In shift shifts /\ accepted_in_shift days_ahead shift start.
Proof.
  induction shifts as [| s rest IH]; simpl; [discriminate |].
  assert (Hrest : search_shifts' days_ahead (check_date_at days_ahead) rest
                  = Ok (Some (start, shift)) ->
                  (s = shift \/ In shift rest) /\ accepted_in_shift days_ahead shift start).
  { intros H. destruct (IH H) as [Hin Hex]. split; [right; exact Hin | exact Hex]. }
  destruct (shift_hours st !! s) as [info |] eqn:Hinfo; [| exact Hrest].
  destruct (shift_bounds current_time days_ahead (check_date_at days_ahead) s info)
    as [[ws we] |] eqn:Hb; simpl; [| discriminate].
  destruct (we <=? current_time) eqn:Hended; [exact Hrest |].
  destruct (we <? round_up_15 (Z.max ws current_time) + DateTime.minutes duration)
    eqn:Hfit; [exact Hrest |].
  destruct (mechanics_needed <=? _) eqn:Hcap; [| exact Hrest].
  intros [= <- <-]. split; [left; reflexivity |].
  exists ws, we. unfold shift_window. rewrite Hinfo, Hb.
  apply Z.leb_gt in Hended. apply Z.ltb_ge in Hfit. apply Z.leb_le in Hcap.
  repeat split; auto.
Qed.

Lemma search_days_sound (days : list Z) (start : Z) (shift : string) :
  search_days' days = Ok (Some (start, shift)) ->
  exists days_ahead,
    In days_ahead days
    /\ is_working_day st (check_date_at days_ahead) product_line = true
    /\ search_shifts' days_ahead (check_date_at days_ahead)
         (shifts_for st team is_quality is_customer) = Ok (Some (start, shift)).
Proof.
  induction days as [| d rest IH]; simpl; [discriminate |].
  fold (check_date_at d).
  destruct (is_working_day st (check_date_at d) product_line) eqn:Hw; simpl.
  - destruct (search_shifts' d (check_date_at d) _) as [[found |] |] eqn:Hs.
    + intros [= ->]. exists d. auto.
    + intros H. destruct (IH H) as (d' & Hin & Hd'). exists d'. split; [right |]; auto.
    + discriminate.
  - intros H. destruct (IH H) as (d' & Hin & Hd'). exists d'. split; [right |]; auto.
Qed.

Lemma get_next_sound (start : Z) (shift : string) :
  get_next = Ok (Some (start, shift)) ->
  exists days_ahead, feasible_slot days_ahead shift start.
Proof.
  unfold get_next_working_time_with_capacity.
  destruct (_ || _); [discriminate |].
  intros H. apply search_days_sound in H as (d & Hin & Hw & Hs).
  apply search_shifts_sound in Hs as [Hshift Hex].
  exists d. unfold feasible_slot.
  apply list_elem_of_In, elem_of_seqZ in Hin.
  repeat split; auto; lia.
Qed.

Lemma shift_bounds_defined (days_ahead check_date : Z) (shift : string)
    (shift_info : string * string) :
  shift_hours_wellformed ->
  shift_hours st !! shift = Some shift_info ->
  shift_bounds current_time days_ahead check_date shift shift_info <> Raise.
Proof.
  intros Hwf Hinfo.
  destruct (Hwf _ _ Hinfo) as (sh & sm & eh & em & Hs & He & Hsh & Hsm & Heh & Hem).
  unfold shift_bounds. rewrite Hs, He. simpl.
  destruct (String.eqb shift "3rd").
  - destruct (_ && _); simpl; discriminate.
  - unfold DateTime.replace_hm.
    assert (Ha : (0 <=? sh) && (sh <? 24) && (0 <=? sm) && (sm <? 60) = true).
    { rewrite !andb_true_iff, !Z.leb_le, !Z.ltb_lt. lia. }
    assert (Hb : (0 <=? eh) && (eh <? 24) && (0 <=? em) && (em <? 60) = true).
    { rewrite !andb_true_iff, !Z.leb_le, !Z.ltb_lt. lia. }
    rewrite Ha, Hb. simpl. discriminate.
Qed.

Lemma search_shifts_no_raise (days_ahead check_date : Z) (shifts : list string) :
  shift_hours_wellformed ->
  search_shifts' days_ahead check_date shifts <> Raise.
Proof.
  intros Hwf. induction shifts as [| s rest IH]; simpl; [discriminate |].
  destruct (shift_hours st !! s) as [info |] eqn:Hinfo; [| exact IH].
  pose proof (shift_bounds_defined days_ahead check_date s info Hwf Hinfo) as Hb.
  destruct (shift_bounds current_time days_ahead check_date s info) as [[ws we] |];
    [| contradiction].
  simpl.
  destruct (we <=? current_time); [exact IH |].
  destruct (we <? _); [exact IH |].
  destruct (mechanics_needed <=? _); [discriminate | exact IH].
Qed.

Lemma search_days_no_raise (days : list Z) :
  shift_hours_wellformed -> search_days' days <> Raise.
Proof.
  intros Hwf. induction days as [| d rest IH]; simpl; [discriminate |].
  destruct (negb _); [exact IH |].
  pose proof (search_shifts_no_raise d
                (DateTime.midnight (current_time + DateTime.days d))
                (shifts_for st team is_quality is_customer) Hwf) as Hs.
  destruct (search_shifts' _ _ _) as [[found |] |]; [discriminate | exact IH | contradiction].
Qed.

Lemma get_next_no_raise : shift_hours_wellformed -> get_next <> Raise.
Proof.
  intros Hwf. unfold get_next_working_time_with_capacity.
  destruct (_ || _); [discriminate | apply search_days_no_raise; exact Hwf].
Qed.

(** C2: a returned start lies, with the whole task, inside the window of
    the returned shift on a working day at most 29 days ahead; and when no
    slot is feasible within 30 days the answer is (None, None). *)
Theorem next_working_time_fits_one_shift :
  (forall start shift,
      get_next = Ok (Some (start, shift)) ->
      exists days_ahead ws we,
        0 <= days_ahead < 30
        /\ is_working_day st (check_date_at days_ahead) product_line = true
        /\ In shift (shifts_for st team is_quality is_customer)
        /\ shift_window days_ahead shift = Some (ws, we)
        /\ current_time <= start
        /\ ws <= start
        /\ start + DateTime.minutes duration <= we
        /\ (0 <= duration -> ws <= start + DateTime.minutes duration))
  /\ (shift_hours_wellformed ->
      (forall days_ahead shift start, ~ feasible_slot days_ahead shift start) ->
      get_next = Ok None).
Proof.
  split.
  - intros start shift H.
    destruct (get_next_sound start shift H)
      as (d & Hd & Hw & Hin & ws & we & Hwin & Hlt & Hstart & Hfit & Hcap).
    exists d, ws, we.
    pose proof (round_up_15_ge (Z.max ws current_time)) as Hr.
    rewrite <- Hstart in Hr.
    repeat split; auto; try lia.
    intros Hdur. unfold DateTime.minutes, DateTime.us_per_minute. lia.
  - intros Hwf Hnone.
    pose proof (get_next_no_raise Hwf) as Hnr.
    destruct get_next as [[[start shift] |] |] eqn:E.
    + destruct (get_next_sound start shift E) as [d Hd].
      exfalso. exact (Hnone d shift start Hd).
    + reflexivity.
    + contradiction.
Qed.

End NextWorkingTimeFacts.

(** ** Makespan *)

Section Makespan.

(** [s] is the earliest start among the records of [m]. *)
Definition is_earliest_start (m : gmap string sched_rec) (s : Z) : Prop :=
  (exists id r, m !! id = Some r /\ start_time r = s)
  /\ forall id r, m !! id = Some r -> s <= start_time r.

(** [e] is the latest end among the records of [m]. *)
Definition is_latest_end (m : gmap string sched_rec) (e : Z) : Prop :=
  (exists id r, m !! id = Some r /\ end_time r = e)
  /\ forall id r, m !! id = Some r -> end_time r <= e.

(** The number of days from [first_day] to [last_day], both included,
    that are working days in the calendar of some product. *)
Definition working_days_spanning (st : scheduler) (first_day last_day : Z) : Z :=
  Z.of_nat (length (List.filter (working_for_some_product st)
                                (seqZ first_day (last_day - first_day + 1)))).

Lemma working_for_some_product_spec (st : scheduler) (day : Z) :
  working_for_some_product st day = true
  <-> exists product,
        is_Some (delivery_dates st !! product)
        /\ is_working_day st (DateTime.make day 0 0) (Some product) = true.
Proof.
  unfold working_for_some_product. rewrite existsb_exists. split.
  - intros (p & Hin & Hw). exists p. split; [| exact Hw].
    apply list_elem_of_In, list_elem_of_fmap in Hin as ([p' d] & -> & Hin).
    apply elem_of_map_to_list in Hin. simpl. eauto.
  - intros (p & [d Hd] & Hw). exists p. split; [| exact Hw].
    apply list_elem_of_In, list_elem_of_fmap. exists (p, d). split; [reflexivity |].
    apply elem_of_map_to_list. exact Hd.
Qed.

Lemma earliest_start_time_spec (m : gmap string sched_rec) :
  match earliest_start_time m with
  | Some s => is_earliest_start m s
  | None => m = ∅
  end.
Proof.
  unfold earliest_start_time.
  apply (map_fold_weak_ind
           (fun (acc : option Z) (m : gmap string sched_rec) =>
              match acc with
              | Some s => is_earliest_start m s
              | None => m = ∅
              end)); [reflexivity |].
  intros id r m' acc Hfresh IH. destruct acc as [a |].
  - destruct IH as [(id0 & r0 & Hr0 & Hs0) Hlow]. split.
    + destruct (Z.le_gt_cases a (start_time r)).
      * exists id0, r0. split; [| lia].
        rewrite lookup_insert_ne; [exact Hr0 | congruence].
      * exists id, r. split; [apply lookup_insert_eq | lia].
    + intros id1 r1. rewrite lookup_insert. case_decide.
      * intros [= <-]. lia.
      * intros H1. specialize (Hlow _ _ H1). lia.
  - subst m'. split.
    + exists id, r. split; [apply lookup_insert_eq | reflexivity].
    + intros id1 r1. rewrite lookup_insert. case_decide.
      * intros [= <-]. lia.
      * rewrite lookup_empty. discriminate.
Qed.

Lemma latest_end_time_spec (m : gmap string sched_rec) :
  match latest_end_time m with
  | Some e => is_latest_end m e
  | None => m = ∅
  end.
Proof.
  unfold latest_end_time.
  apply (map_fold_weak_ind
           (fun (acc : option Z) (m : gmap string sched_rec) =>
              match acc with
              | Some e => is_latest_end m e
              | None => m = ∅
              end)); [reflexivity |].
  intros id r m' acc Hfresh IH. destruct acc as [a |].
  - destruct IH as [(id0 & r0 & Hr0 & Hs0) Hup]. split.
    + destruct (Z.le_gt_cases (end_time r) a).
      * exists id0, r0. split; [| lia].
        rewrite lookup_insert_ne; [exact Hr0 | congruence].
      * exists id, r. split; [apply lookup_insert_eq | lia].
    + intros id1 r1. rewrite lookup_insert. case_decide.
      * intros [= <-]. lia.
      * intros H1. specialize (Hup _ _ H1). lia.
  - subst m'. split.
    + exists id, r. split; [apply lookup_insert_eq | reflexivity].
    + intros id1 r1. rewrite lookup_insert. case_decide.
      * intros [= <-]. lia.
      * rewrite lookup_empty. discriminate.
Qed.

Lemma working_days_loop_count (st : scheduler) (fuel : nat) (current acc : Z) :
  working_days_loop st fuel current (current + Z.of_nat fuel - 1) acc
  = acc + Z.of_nat (length (List.filter (working_for_some_product st)
                                        (seqZ current (Z.of_nat fuel)))).
Proof.
  revert current acc. induction fuel as [| f IH]; intros current acc.
  - simpl. lia.
  - cbn [working_days_loop].
    replace (current <=? current + Z.of_nat (S f) - 1) with true
      by (symmetry; apply Z.leb_le; lia).
    replace (current + Z.of_nat (S f) - 1) with (current + 1 + Z.of_nat f - 1) by lia.
    rewrite IH.
    rewrite (seqZ_cons current (Z.of_nat (S f))) by lia.
    replace (Z.succ current) with (current + 1) by lia.
    replace (Z.pred (Z.of_nat (S f))) with (Z.of_nat f) by lia.
    cbn [List.filter].
    destruct (working_for_some_product st current); cbn [length]; lia.
Qed.

Lemma working_days_loop_spanning (st : scheduler) (first_day last_day : Z) :
  working_days_loop st (Z.to_nat (last_day - first_day + 1)) first_day last_day 0
  = working_days_spanning st first_day last_day.
Proof.
  unfold working_days_spanning.
  destruct (Z.le_gt_cases first_day last_day) as [Hle | Hgt].
  - pose proof (working_days_loop_count st (Z.to_nat (last_day - first_day + 1))
                  first_day 0) as H.
    rewrite Z2Nat.id in H by lia.
    replace (first_day + (last_day - first_day + 1) - 1) with last_day in H by lia.
    rewrite H. lia.
  - replace (Z.to_nat (last_day - first_day + 1)) with 0%nat by lia.
    rewrite seqZ_nil by lia. reflexivity.
Qed.

End Makespan.

(** C3 (amended): [calculate_makespan] returns 0 for an empty schedule;
    for a non-empty schedule with fewer records than instances it returns
    the sentinel 999999; otherwise it returns the number of days, from
    the day of the earliest start to the day of the latest end, that are
    working days in the calendar of some product with a delivery date. *)
Theorem calculate_makespan_cases (st : scheduler) :
  (task_schedule st = ∅ -> calculate_makespan st = 0)
  /\ (task_schedule st <> ∅ ->
      (size (task_schedule st) < size (tasks st))%nat ->
      calculate_makespan st = 999999)
  /\ (task_schedule st <> ∅ ->
      (size (tasks st) <= size (task_schedule st))%nat ->
      exists first last,
        is_earliest_start (task_schedule st) first
        /\ is_latest_end (task_schedule st) last
        /\ calculate_makespan st
           = working_days_spanning st (DateTime.date_of first) (DateTime.date_of last)).
Proof.
  unfold calculate_makespan. split; [| split].
  - intros ->. reflexivity.
  - intros Hne Hlt.
    destruct (size (task_schedule st) =? 0)%nat eqn:E.
    + apply Nat.eqb_eq, map_size_empty_iff in E. contradiction.
    + apply Nat.ltb_lt in Hlt. rewrite Hlt. reflexivity.
  - intros Hne Hge.
    destruct (size (task_schedule st) =? 0)%nat eqn:E.
    + apply Nat.eqb_eq, map_size_empty_iff in E. contradiction.
    + replace (size (task_schedule st) <? size (tasks st))%nat with false
        by (symmetry; apply Nat.ltb_ge; exact Hge).
      pose proof (earliest_start_time_spec (task_schedule st)) as Hs.
      pose proof (latest_end_time_spec (task_schedule st)) as He.
      destruct (earliest_start_time (task_schedule st)) as [first |]; [| contradiction].
      destruct (latest_end_time (task_schedule st)) as [last |]; [| contradiction].
      exists first, last. split; [exact Hs |]. split; [exact He |].
      apply working_days_loop_spanning.
Qed.

(** ** Priorities *)

Section PriorityFacts.

Variable compose_dynamic_constraints : scheduler -> list constraint.
Variable now : Z.

Local Abbreviation priority_of :=
  (calculate_task_priority compose_dynamic_constraints now).

(** More fuel never changes a priority that was computed. *)
Lemma calculate_task_priority_more_fuel (fuel : nat) (st st' : scheduler)
    (task_instance_id : string) (p : Q) :
  priority_of fuel st task_instance_id = (Ok p, st') ->
  priority_of (S fuel) st task_instance_id = (Ok p, st').
Proof.
  revert st st' task_instance_id p.
  induction fuel as [| f IH]; intros st st' id p.
  - cbn [calculate_task_priority].
    destruct (tasks st !! id); [| discriminate].
    destruct (bool_decide _); [auto |].
    destruct (quality_inspections st !! id) as [qi |]; [| auto].
    destruct (_ && _); [discriminate | auto].
  - intros H. remember (S f) as n eqn:Hn.
    cbn [calculate_task_priority]. subst n.
    cbn [calculate_task_priority] in H.
    destruct (tasks st !! id); [| discriminate].
    destruct (bool_decide _); [exact H |].
    destruct (quality_inspections st !! id) as [qi |]; [| exact H].
    destruct (_ && _); [| exact H].
    destruct (priority_of f st (primary_task qi)) as [[q |] st1] eqn:E; [| discriminate].
    rewrite (IH _ _ _ _ E). exact H.
Qed.

(** The priority of a task that is neither a late part nor an inspection
    does not depend on the recursion depth still available. *)
Lemma calculate_task_priority_plain (fuel fuel' : nat) (st : scheduler)
    (task_instance_id : string) :
  quality_inspections st !! task_instance_id = None ->
  priority_of fuel st task_instance_id = priority_of fuel' st task_instance_id.
Proof.
  intros Hq. destruct fuel, fuel'; cbn [calculate_task_priority]; rewrite Hq; reflexivity.
Qed.

End PriorityFacts.

(** C6 (amended): for an inspection that is not a late part, the priority
    is one less than the priority of its primary instance when the
    primary already has a schedule record, and -2000 otherwise. *)
Theorem quality_inspection_priority
    (compose_dynamic_constraints : scheduler -> list constraint) (now : Z)
    (fuel : nat) (st st' : scheduler) (task_instance_id : string)
    (qi : qi_info) (p : Q) :
  is_Some (tasks st !! task_instance_id) ->
  task_instance_id ∉ late_part_tasks st ->
  quality_inspections st !! task_instance_id = Some qi ->
  calculate_task_priority compose_dynamic_constraints now fuel st (primary_task qi)
    = (Ok p, st') ->
  calculate_task_priority compose_dynamic_constraints now (S fuel) st task_instance_id
    = if PyStr.truthy (Some (primary_task qi))
         && bool_decide (is_Some (task_schedule st !! primary_task qi))
      then (Ok (p - 1)%Q, st')
      else (Ok (inject_Z (-2000)), st).
Proof.
  intros [info Hinfo] Hlate Hqi Hprimary.
  cbn [calculate_task_priority]. rewrite Hinfo.
  rewrite bool_decide_eq_false_2 by exact Hlate.
  rewrite Hqi, Hprimary. reflexivity.
Qed.

(** ** The priority queue *)

Section HeapFacts.

Context {A : Type}.
Variable lt : A -> A -> bool.

(** [a] is not after [b]. *)
Definition not_after (a b : A) : Prop := lt b a = false.

Hypothesis lt_irrefl : forall a, lt a a = false.
Hypothesis lt_not_after : forall a b, lt a b = true -> not_after a b.
Hypothesis not_after_trans :
  forall a b c, not_after a b -> not_after b c -> not_after a c.

Definition parent_of (i : nat) : nat := ((i - 1) / 2)%nat.

(** The heap invariant of [heapq]: no item is before its parent. *)
Definition heap_ordered (heap : list A) : Prop :=
  forall i a b, (0 < i)%nat ->
    heap !! i = Some a -> heap !! parent_of i = Some b -> not_after b a.

Lemma parent_of_lt (i : nat) : (0 < i)%nat -> (parent_of i < i)%nat.
Proof.
  intros Hi. unfold parent_of.
  assert ((i - 1) / 2 <= i - 1)%nat by (apply Nat.Div0.div_le_upper_bound; lia).
  lia.
Qed.

Lemma parent_of_child (i p : nat) :
  (0 < i)%nat -> parent_of i = p -> i = (2 * p + 1)%nat \/ i = (2 * p + 2)%nat.
Proof.
  intros Hi <-. unfold parent_of.
  pose proof (Nat.div_mod_eq (i - 1) 2) as H.
  pose proof (Nat.mod_upper_bound (i - 1) 2 ltac:(lia)). lia.
Qed.

Lemma parent_of_left (p : nat) : parent_of (2 * p + 1) = p.
Proof.
  unfold parent_of. replace (2 * p + 1 - 1)%nat with (p * 2)%nat by lia.
  apply Nat.div_mul. lia.
Qed.

Lemma parent_of_right (p : nat) : parent_of (2 * p + 2) = p.
Proof.
  unfold parent_of. replace (2 * p + 2 - 1)%nat with (1 + p * 2)%nat by lia.
  rewrite Nat.div_add by lia. reflexivity.
Qed.

Lemma heap_ordered_nil : heap_ordered [].
Proof. intros i a b _ H. rewrite lookup_nil in H. discriminate. Qed.

(** The first item of an ordered heap is not after any other. *)
Lemma heap_root_first (heap : list A) (r : A) :
  heap_ordered heap -> heap !! 0%nat = Some r ->
  forall i x, heap !! i = Some x -> not_after r x.
Proof.
  intros Hok Hr i. induction i as [i IH] using lt_wf_ind. intros x Hx.
  destruct i as [| i'].
  - rewrite Hr in Hx. injection Hx as <-. apply lt_irrefl.
  - pose proof (parent_of_lt (S i') ltac:(lia)) as Hp.
    destruct (heap !! parent_of (S i')) as [b |] eqn:Hb.
    + apply (not_after_trans _ b).
      * apply (IH _ Hp). exact Hb.
      * apply (Hok (S i')); auto. lia.
    + apply lookup_ge_None in Hb. apply lookup_lt_Some in Hx. lia.
Qed.

(** Exchanging two positions keeps the items. *)
Lemma insert_head_swap (l : list A) (j : nat) (x b : A) :
  l !! j = Some b -> b :: <[j := x]> l ≡ₚ x :: l.
Proof.
  revert j. induction l as [| y l IH]; intros j Hj.
  - rewrite lookup_nil in Hj. discriminate.
  - destruct j as [| j'].
    + simpl in Hj. injection Hj as ->. simpl. apply perm_swap.
    + simpl in Hj. simpl.
      rewrite (perm_swap y b). rewrite (IH _ Hj). apply perm_swap.
Qed.

Lemma insert_swap_perm (l : list A) (i j : nat) (a b : A) :
  l !! i = Some a -> l !! j = Some b ->
  <[j := a]> (<[i := b]> l) ≡ₚ l.
Proof.
  revert i j. induction l as [| y l IH]; intros i j Hi Hj.
  - rewrite lookup_nil in Hi. discriminate.
  - destruct i as [| i'], j as [| j']; simpl in *.
    + injection Hi as ->. injection Hj as ->. reflexivity.
    + injection Hi as ->. apply insert_head_swap. exact Hj.
    + injection Hj as ->. apply insert_head_swap. exact Hi.
    + rewrite (IH _ _ Hi Hj). reflexivity.
Qed.

(** *** [_siftdown] towards the root *)

(** The state of the loop of [_siftdown]: the heap is ordered except at
    the hole [pos], and [newitem] may fill the hole as far as the items
    below it are concerned. *)
Definition hole_down (heap : list A) (pos : nat) (newitem : A) : Prop :=
  (pos < length heap)%nat
  /\ (forall i a b, (0 < i)%nat -> i <> pos ->
        heap !! i = Some a -> heap !! parent_of i = Some b -> not_after b a)
  /\ (forall c x, (0 < c)%nat -> parent_of c = pos ->
        heap !! c = Some x -> not_after newitem x)
  /\ (forall c x b, (0 < c)%nat -> (0 < pos)%nat -> parent_of c = pos ->
        heap !! c = Some x -> heap !! parent_of pos = Some b -> not_after b x).

Lemma hole_down_step (heap : list A) (pos : nat) (newitem parent : A) :
  (0 < pos)%nat ->
  hole_down heap pos newitem ->
  heap !! parent_of pos = Some parent ->
  lt newitem parent = true ->
  hole_down (<[pos := parent]> heap) (parent_of pos) newitem.
Proof.
  intros Hpos (Hlen & Hedges & Hbelow & Hgrand) Hparent Hlt.
  pose proof (parent_of_lt pos Hpos) as Hpp.
  assert (Hat : <[pos := parent]> heap !! pos = Some parent)
    by (apply list_lookup_insert_eq; exact Hlen).
  unfold hole_down. rewrite length_insert. split; [lia |]. split; [| split].
  - intros i a b Hi Hne Ha Hb.
    destruct (decide (i = pos)) as [-> | Hip].
    + rewrite Hat in Ha. injection Ha as <-.
      rewrite list_lookup_insert_ne in Hb by lia.
      rewrite Hparent in Hb. injection Hb as <-. apply lt_irrefl.
    + rewrite list_lookup_insert_ne in Ha by congruence.
      destruct (decide (parent_of i = pos)) as [Hpi | Hpi].
      * rewrite Hpi, Hat in Hb. injection Hb as <-.
        apply (Hgrand i a parent); auto.
      * rewrite list_lookup_insert_ne in Hb by congruence.
        apply (Hedges i a b); auto.
  - intros c x Hc Hpc Hx.
    destruct (decide (c = pos)) as [-> | Hcp].
    + rewrite Hat in Hx. injection Hx as <-. apply lt_not_after. exact Hlt.
    + rewrite list_lookup_insert_ne in Hx by congruence.
      apply (not_after_trans _ parent).
      * apply lt_not_after. exact Hlt.
      * apply (Hedges c x parent); auto. rewrite Hpc. exact Hparent.
  - intros c x b Hc Hpp0 Hpc Hx Hb.
    rewrite list_lookup_insert_ne in Hb
      by (pose proof (parent_of_lt (parent_of pos) Hpp0); lia).
    assert (Hpb : not_after b parent).
    { apply (Hedges (parent_of pos) parent b); auto. lia. }
    destruct (decide (c = pos)) as [-> | Hcp].
    + rewrite Hat in Hx. injection Hx as <-. exact Hpb.
    + rewrite list_lookup_insert_ne in Hx by congruence.
      apply (not_after_trans _ parent); [exact Hpb |].
      apply (Hedges c x parent); auto. rewrite Hpc. exact Hparent.
Qed.

Lemma hole_down_fill (heap : list A) (pos : nat) (newitem : A) :
  hole_down heap pos newitem ->
  (pos = 0%nat
   \/ exists parent, heap !! parent_of pos = Some parent /\ lt newitem parent = false) ->
  heap_ordered (<[pos := newitem]> heap).
Proof.
  intros (Hlen & Hedges & Hbelow & Hgrand) Hstop i a b Hi Ha Hb.
  assert (Hat : <[pos := newitem]> heap !! pos = Some newitem)
    by (apply list_lookup_insert_eq; exact Hlen).
  destruct (decide (i = pos)) as [-> | Hip].
  - rewrite Hat in Ha. injection Ha as <-.
    rewrite list_lookup_insert_ne in Hb
      by (pose proof (parent_of_lt pos Hi); lia).
    destruct Hstop as [-> | (parent & Hparent & Hnlt)]; [lia |].
    rewrite Hparent in Hb. injection Hb as <-. exact Hnlt.
  - rewrite list_lookup_insert_ne in Ha by congruence.
    destruct (decide (parent_of i = pos)) as [Hpi | Hpi].
    + rewrite Hpi, Hat in Hb. injection Hb as <-. apply (Hbelow i a); auto.
    + rewrite list_lookup_insert_ne in Hb by congruence.
      apply (Hedges i a b); auto.
Qed.

Lemma siftdown_loop_spec (fuel : nat) (heap : list A) (newitem : A) (pos : nat) :
  (pos < fuel)%nat ->
  hole_down heap pos newitem ->
  let '(heap', pos') := heapq._siftdown_loop lt fuel heap newitem 0 pos in
  heap_ordered (<[pos' := newitem]> heap')
  /\ <[pos' := newitem]> heap' ≡ₚ <[pos := newitem]> heap.
Proof.
  revert heap pos. induction fuel as [| f IH]; intros heap pos Hfuel Hinv; [lia |].
  cbn [heapq._siftdown_loop].
  destruct (0 <? pos)%nat eqn:Hpos.
  - apply Nat.ltb_lt in Hpos. fold (parent_of pos).
    pose proof (parent_of_lt pos Hpos) as Hpp.
    pose proof (proj1 Hinv) as Hlen.
    case_eq (heap !! parent_of pos); [intros parent Hparent | intros Hparent].
    + destruct (lt newitem parent) eqn:Hlt.
      * specialize (IH (<[pos := parent]> heap) (parent_of pos) ltac:(lia)
                       (hole_down_step heap pos newitem parent Hpos
                          Hinv Hparent Hlt)).
        destruct (heapq._siftdown_loop lt f (<[pos := parent]> heap) newitem 0
                    (parent_of pos)) as [heap' pos'].
        destruct IH as [Hok Hperm]. split; [exact Hok |].
        rewrite Hperm.
        rewrite <- (list_insert_insert_eq heap pos parent newitem) at 1.
        apply insert_swap_perm.
        -- apply list_lookup_insert_eq. exact Hlen.
        -- rewrite list_lookup_insert_ne by lia. exact Hparent.
      * split; [| reflexivity].
        apply hole_down_fill; [exact Hinv |].
        right. exists parent. auto.
    + apply lookup_ge_None in Hparent. lia.
  - apply Nat.ltb_ge in Hpos. split; [| reflexivity].
    apply hole_down_fill; [exact Hinv | left; lia].
Qed.

Lemma siftdown_spec (heap : list A) (pos : nat) (newitem : A) :
  heap !! pos = Some newitem ->
  hole_down heap pos newitem ->
  heap_ordered (heapq._siftdown lt heap 0 pos)
  /\ heapq._siftdown lt heap 0 pos ≡ₚ heap.
Proof.
  intros Hnew Hinv. unfold heapq._siftdown. rewrite Hnew.
  pose proof (siftdown_loop_spec (S pos) heap newitem pos ltac:(lia) Hinv) as H.
  destruct (heapq._siftdown_loop lt (S pos) heap newitem 0 pos) as [heap' pos'].
  destruct H as [Hok Hperm]. split; [exact Hok |].
  rewrite Hperm. rewrite list_insert_id by exact Hnew. reflexivity.
Qed.

(** [heappush] keeps the heap ordered and adds exactly the item. *)
Lemma heappush_spec (heap : list A) (item : A) :
  heap_ordered heap ->
  heap_ordered (heapq.heappush lt heap item)
  /\ heapq.heappush lt heap item ≡ₚ item :: heap.
Proof.
  intros Hok. unfold heapq.heappush.
  assert (Hlast : (heap ++ [item])%list !! length heap = Some item).
  { rewrite lookup_app_r by lia. rewrite Nat.sub_diag. reflexivity. }
  assert (Hinv : hole_down (heap ++ [item])%list (length heap) item).
  { unfold hole_down. rewrite length_app. simpl. split; [lia |]. split; [| split].
    - intros i a b Hi Hne Ha Hb.
      assert (i < length heap)%nat.
      { apply lookup_lt_Some in Ha. rewrite length_app in Ha. simpl in Ha. lia. }
      pose proof (parent_of_lt i Hi).
      rewrite lookup_app_l in Ha by lia. rewrite lookup_app_l in Hb by lia.
      apply (Hok i a b); auto.
    - intros c x Hc Hpc Hx. apply lookup_lt_Some in Hx.
      rewrite length_app in Hx. simpl in Hx.
      pose proof (parent_of_lt c Hc). lia.
    - intros c x b Hc _ Hpc Hx _. apply lookup_lt_Some in Hx.
      rewrite length_app in Hx. simpl in Hx.
      pose proof (parent_of_lt c Hc). lia. }
  destruct (siftdown_spec _ _ _ Hlast Hinv) as [H1 H2]. split; [exact H1 |].
  rewrite H2. symmetry. apply Permutation_cons_append.
Qed.

(** *** [_siftup] towards the leaves *)

(** The state of the loop of [_siftup]: the heap is ordered except on the
    edges that leave the hole [pos], and the parent of the hole is not
    after the items below the hole. *)
Definition hole_up (heap : list A) (pos : nat) : Prop :=
  (forall i a b, (0 < i)%nat -> parent_of i <> pos ->
      heap !! i = Some a -> heap !! parent_of i = Some b -> not_after b a)
  /\ (forall c x b, (0 < c)%nat -> (0 < pos)%nat -> parent_of c = pos ->
        heap !! c = Some x -> heap !! parent_of pos = Some b -> not_after b x).

Lemma hole_up_step (heap : list A) (pos c : nat) (child : A) :
  hole_up heap pos ->
  parent_of c = pos -> (0 < c)%nat ->
  heap !! c = Some child ->
  (forall s x, (0 < s)%nat -> parent_of s = pos -> heap !! s = Some x ->
               not_after child x) ->
  hole_up (<[pos := child]> heap) c.
Proof.
  intros [Hedges Hgrand] Hpc Hc Hchild Hsmall.
  pose proof (parent_of_lt c Hc) as Hlt. rewrite Hpc in Hlt.
  assert (Hlen : (pos < length heap)%nat)
    by (apply lookup_lt_Some in Hchild; lia).
  assert (Hat : <[pos := child]> heap !! pos = Some child)
    by (apply list_lookup_insert_eq; exact Hlen).
  split.
  - intros i a b Hi Hne Ha Hb.
    destruct (decide (i = pos)) as [-> | Hip].
    + rewrite Hat in Ha. injection Ha as <-.
      rewrite list_lookup_insert_ne in Hb
        by (pose proof (parent_of_lt pos Hi); lia).
      apply (Hgrand c child b); auto.
    + rewrite list_lookup_insert_ne in Ha by congruence.
      destruct (decide (parent_of i = pos)) as [Hpi | Hpi].
      * rewrite Hpi, Hat in Hb. injection Hb as <-.
        apply (Hsmall i a); auto.
      * rewrite list_lookup_insert_ne in Hb by congruence.
        apply (Hedges i a b); auto.
  - intros g x b Hg _ Hpg Hx Hb.
    rewrite Hpc, Hat in Hb. injection Hb as <-.
    pose proof (parent_of_lt g Hg) as Hgl.
    rewrite list_lookup_insert_ne in Hx by lia.
    apply (Hedges g x child); auto.
    + lia.
    + rewrite Hpg. exact Hchild.
Qed.

Lemma siftup_loop_spec (fuel : nat) (heap : list A) (pos : nat) (newitem : A) :
  (length heap <= fuel + pos)%nat ->
  (pos < length heap)%nat ->
  hole_up heap pos ->
  let '(heap', pos') := heapq._siftup_loop lt fuel heap pos in
  hole_down (<[pos' := newitem]> heap') pos' newitem
  /\ <[pos' := newitem]> heap' ≡ₚ <[pos := newitem]> heap.
Proof.
  revert heap pos. induction fuel as [| f IH]; intros heap pos Hfuel Hlen Hinv; [lia |].
  cbn [heapq._siftup_loop].
  destruct (2 * pos + 1 <? length heap)%nat eqn:Hchild.
  - apply Nat.ltb_lt in Hchild.
    destruct (lookup_lt_is_Some_2 heap (2 * pos + 1)%nat Hchild) as [left Hleft].
    rewrite Hleft.
    (* the chosen child is not after its sibling *)
    assert (Hchoice :
      exists c child,
        (match heap !! (2 * pos + 1 + 1)%nat with
         | Some sibling => if negb (lt left sibling)
                           then (2 * pos + 1 + 1)%nat else (2 * pos + 1)%nat
         | None => (2 * pos + 1)%nat
         end) = c
        /\ heap !! c = Some child /\ parent_of c = pos /\ (0 < c)%nat
        /\ forall s x, (0 < s)%nat -> parent_of s = pos -> heap !! s = Some x ->
                       not_after child x).
    { destruct (heap !! (2 * pos + 1 + 1)%nat) as [right |] eqn:Hright.
      - destruct (lt left right) eqn:Hlr; simpl.
        + exists (2 * pos + 1)%nat, left. repeat split; auto.
          * apply parent_of_left.
          * lia.
          * intros s x Hs Hps Hx.
            destruct (parent_of_child s pos Hs Hps) as [-> | ->].
            -- rewrite Hleft in Hx. injection Hx as <-. apply lt_irrefl.
            -- replace (2 * pos + 2)%nat with (2 * pos + 1 + 1)%nat in Hx by lia.
               rewrite Hright in Hx. injection Hx as <-.
               apply lt_not_after. exact Hlr.
        + exists (2 * pos + 1 + 1)%nat, right. repeat split; auto.
          * replace (2 * pos + 1 + 1)%nat with (2 * pos + 2)%nat by lia.
            apply parent_of_right.
          * lia.
          * intros s x Hs Hps Hx.
            destruct (parent_of_child s pos Hs Hps) as [-> | ->].
            -- rewrite Hleft in Hx. injection Hx as <-. exact Hlr.
            -- replace (2 * pos + 2)%nat with (2 * pos + 1 + 1)%nat in Hx by lia.
               rewrite Hright in Hx. injection Hx as <-. apply lt_irrefl.
      - exists (2 * pos + 1)%nat, left. repeat split; auto.
        + apply parent_of_left.
        + lia.
        + intros s x Hs Hps Hx.
          destruct (parent_of_child s pos Hs Hps) as [-> | ->].
          * rewrite Hleft in Hx. injection Hx as <-. apply lt_irrefl.
          * replace (2 * pos + 2)%nat with (2 * pos + 1 + 1)%nat in Hx by lia.
            rewrite Hright in Hx. discriminate. }
    destruct Hchoice as (c & child & -> & Hc & Hpc & Hc0 & Hsmall).
    rewrite Hc.
    pose proof (parent_of_lt c Hc0) as Hcl. rewrite Hpc in Hcl.
    assert (Hclen : (c < length heap)%nat) by (apply lookup_lt_Some in Hc; exact Hc).
    specialize (IH (<[pos := child]> heap) c).
    rewrite length_insert in IH.
    specialize (IH ltac:(lia) Hclen (hole_up_step heap pos c child Hinv Hpc Hc0 Hc Hsmall)).
    destruct (heapq._siftup_loop lt f (<[pos := child]> heap) c) as [heap' pos'].
    destruct IH as [Hd Hperm]. split; [exact Hd |].
    rewrite Hperm.
    rewrite <- (list_insert_insert_eq heap pos child newitem) at 1.
    apply insert_swap_perm.
    + apply list_lookup_insert_eq. exact Hlen.
    + rewrite list_lookup_insert_ne by lia. exact Hc.
  - apply Nat.ltb_ge in Hchild. split; [| reflexivity].
    destruct Hinv as [Hedges Hgrand].
    assert (Hleaf : forall c, (0 < c)%nat -> parent_of c = pos ->
                              (length heap <= c)%nat).
    { intros c Hc Hpc. destruct (parent_of_child c pos Hc Hpc); lia. }
    unfold hole_down. rewrite length_insert. split; [exact Hlen |]. split; [| split].
    + intros i a b Hi Hne Ha Hb.
      rewrite list_lookup_insert_ne in Ha by congruence.
      destruct (decide (parent_of i = pos)) as [Hpi | Hpi].
      * apply lookup_lt_Some in Ha. specialize (Hleaf i Hi Hpi). lia.
      * rewrite list_lookup_insert_ne in Hb by congruence.
        apply (Hedges i a b); auto.
    + intros c x Hc Hpc Hx. apply lookup_lt_Some in Hx.
      rewrite length_insert in Hx. specialize (Hleaf c Hc Hpc). lia.
    + intros c x b Hc _ Hpc Hx _. apply lookup_lt_Some in Hx.
      rewrite length_insert in Hx. specialize (Hleaf c Hc Hpc). lia.
Qed.

Lemma siftup_root_spec (first : A) (rest : list A) (newitem : A) :
  heap_ordered (first :: rest) ->
  heap_ordered (heapq._siftup lt (newitem :: rest) 0)
  /\ heapq._siftup lt (newitem :: rest) 0 ≡ₚ newitem :: rest.
Proof.
  intros Hok. unfold heapq._siftup. cbn [lookup list_lookup].
  assert (Hinv : hole_up (newitem :: rest) 0).
  { split.
    - intros i a b Hi Hne Ha Hb.
      destruct i as [| i']; [lia |].
      destruct (parent_of (S i')) as [| p'] eqn:Hp; [contradiction |].
      apply (Hok (S i') a b); auto. rewrite Hp. exact Hb.
    - intros; lia. }
  pose proof (siftup_loop_spec (length (newitem :: rest)) (newitem :: rest) 0 newitem
                ltac:(lia) ltac:(simpl; lia) Hinv) as H.
  destruct (heapq._siftup_loop lt (length (newitem :: rest)) (newitem :: rest) 0)
    as [heap' pos'].
  destruct H as [Hd Hperm].
  assert (Hnew : <[pos' := newitem]> heap' !! pos' = Some newitem).
  { apply list_lookup_insert_eq. destruct Hd as [Hl _].
    rewrite length_insert in Hl. exact Hl. }
  destruct (siftdown_spec _ _ _ Hnew Hd) as [H1 H2].
  split; [exact H1 |]. rewrite H2, Hperm. reflexivity.
Qed.

Lemma heap_ordered_prefix (heap : list A) (lastelt : A) :
  heap_ordered (heap ++ [lastelt])%list -> heap_ordered heap.
Proof.
  intros Hok i a b Hi Ha Hb.
  apply (Hok i a b Hi).
  - apply lookup_app_l_Some. exact Ha.
  - apply lookup_app_l_Some. exact Hb.
Qed.

(** [heappop] on a non-empty ordered heap returns an item that is not
    after any item of the heap, and leaves the other items in an ordered
    heap. *)
Lemma heappop_spec (heap : list A) :
  heap_ordered heap -> heap <> [] ->
  exists item heap',
    heapq.heappop lt heap = Some (item, heap')
    /\ heap_ordered heap'
    /\ item :: heap' ≡ₚ heap
    /\ forall x, In x heap -> not_after item x.
Proof.
  intros Hok Hne.
  destruct (exists_last Hne) as (init & lastelt & ->).
  unfold heapq.heappop.
  rewrite fmap_app. cbn [fmap list_fmap].
  rewrite last_last, removelast_last.
  destruct init as [| first rest].
  - exists lastelt, []. split; [reflexivity |]. split; [apply heap_ordered_nil |].
    split; [reflexivity |].
    intros x [<- | []]. apply lt_irrefl.
  - pose proof (heap_ordered_prefix _ _ Hok) as Hinit.
    destruct (siftup_root_spec first rest lastelt Hinit) as [H1 H2].
    exists first, (heapq._siftup lt (lastelt :: rest) 0).
    split; [reflexivity |]. split; [exact H1 |]. split.
    + rewrite H2. simpl. apply perm_skip. apply Permutation_cons_append.
    + intros x Hx. apply list_elem_of_In, list_elem_of_lookup in Hx as [i Hi].
      apply (heap_root_first ((first :: rest) ++ [lastelt])%list first Hok eq_refl i x Hi).
Qed.

(** [heappop] raises exactly on the empty heap. *)
Lemma heappop_empty (heap : list A) :
  heapq.heappop lt heap = None <-> heap = [].
Proof.
  split.
  - intros H. destruct heap as [| x l]; [reflexivity |].
    destruct (exists_last (l := x :: l) ltac:(discriminate)) as (init & lastelt & E).
    rewrite E in H. unfold heapq.heappop in H.
    rewrite fmap_app in H. cbn [fmap list_fmap] in H.
    rewrite last_last, removelast_last in H.
    destruct init; discriminate.
  - intros ->. reflexivity.
Qed.

End HeapFacts.

(** ** The order of the heap entries *)

Section EntryOrder.

Lemma ascii_compare_refl (c : ascii) : (c ?= c)%char = Eq.
Proof. unfold Ascii.compare. apply N.compare_refl. Qed.

Lemma ascii_compare_lt_trans (a b c : ascii) :
  (a ?= b)%char = Lt -> (b ?= c)%char = Lt -> (a ?= c)%char = Lt.
Proof.
  unfold Ascii.compare. rewrite !N.compare_lt_iff. apply N.lt_trans.
Qed.

Lemma string_compare_refl (s : string) : (s ?= s)%string = Eq.
Proof.
  induction s as [| c s IH]; simpl; [reflexivity |].
  rewrite ascii_compare_refl. exact IH.
Qed.

Lemma string_compare_lt_trans (a b c : string) :
  (a ?= b)%string = Lt -> (b ?= c)%string = Lt -> (a ?= c)%string = Lt.
Proof.
  revert b c. induction a as [| x a IH]; intros [| y b] [| z c]; simpl;
    try discriminate; try reflexivity.
  destruct (x ?= y)%char eqn:Hxy; try discriminate;
    destruct (y ?= z)%char eqn:Hyz; try discriminate; intros Hab Hbc.
  - apply Ascii.compare_eq_iff in Hxy, Hyz. subst.
    rewrite ascii_compare_refl. eapply IH; eauto.
  - apply Ascii.compare_eq_iff in Hxy. subst. rewrite Hyz. reflexivity.
  - apply Ascii.compare_eq_iff in Hyz. subst. rewrite Hxy. reflexivity.
  - rewrite (ascii_compare_lt_trans _ _ _ Hxy Hyz). reflexivity.
Qed.

Lemma string_compare_not_gt_trans (a b c : string) :
  (a ?= b)%string <> Gt -> (b ?= c)%string <> Gt -> (a ?= c)%string <> Gt.
Proof.
  intros Hab Hbc.
  destruct (a ?= b)%string eqn:E1; [| | contradiction].
  - apply String.compare_eq_iff in E1. subst. exact Hbc.
  - destruct (b ?= c)%string eqn:E2; [| | contradiction].
    + apply String.compare_eq_iff in E2. subst. rewrite E1. discriminate.
    + rewrite (string_compare_lt_trans _ _ _ E1 E2). discriminate.
Qed.

(** [a] is not after [b] in the order of the tuples. *)
Definition entry_le (a b : Q * string) : Prop :=
  (fst a < fst b)%Q
  \/ ((fst a == fst b)%Q /\ (snd a ?= snd b)%string <> Gt).

Lemma entry_not_after_iff (a b : Q * string) :
  not_after entry_lt a b <-> entry_le a b.
Proof.
  unfold not_after, entry_lt, entry_le.
  destruct (Qcompare_spec (fst b) (fst a)) as [Heq | Hlt | Hgt].
  - unfold String.ltb. rewrite String.compare_antisym.
    split.
    + intros H. right. split; [symmetry; exact Heq |].
      destruct (snd a ?= snd b)%string; simpl in *; congruence.
    + intros [Hlt | [_ Hs]].
      * rewrite Heq in Hlt. exfalso. exact (Qlt_irrefl _ Hlt).
      * destruct (snd a ?= snd b)%string; simpl; congruence.
  - split; [discriminate |].
    intros [H | [H _]].
    + exfalso. exact (Qlt_irrefl _ (Qlt_trans _ _ _ H Hlt)).
    + rewrite H in Hlt. exfalso. exact (Qlt_irrefl _ Hlt).
  - split; [intros _; left; exact Hgt | reflexivity].
Qed.

Lemma entry_lt_irrefl (a : Q * string) : entry_lt a a = false.
Proof.
  apply entry_not_after_iff. right. split; [reflexivity |].
  rewrite string_compare_refl. discriminate.
Qed.

Lemma entry_lt_not_after (a b : Q * string) :
  entry_lt a b = true -> not_after entry_lt a b.
Proof.
  intros H. apply entry_not_after_iff. unfold entry_lt in H. unfold entry_le.
  destruct (Qcompare_spec (fst a) (fst b)) as [Heq | Hlt | Hgt].
  - right. split; [exact Heq |]. unfold String.ltb in H.
    destruct (snd a ?= snd b)%string; congruence.
  - left. exact Hlt.
  - discriminate.
Qed.

Lemma entry_le_trans (a b c : Q * string) :
  entry_le a b -> entry_le b c -> entry_le a c.
Proof.
  unfold entry_le. intros [Hab | [Hab Sab]] [Hbc | [Hbc Sbc]].
  - left. eapply Qlt_trans; eauto.
  - left. rewrite <- Hbc. exact Hab.
  - left. rewrite Hab. exact Hbc.
  - right. split; [rewrite Hab; exact Hbc |].
    eapply string_compare_not_gt_trans; eauto.
Qed.

Lemma entry_not_after_trans (a b c : Q * string) :
  not_after entry_lt a b -> not_after entry_lt b c -> not_after entry_lt a c.
Proof.
  rewrite !entry_not_after_iff. apply entry_le_trans.
Qed.

(** Among entries of equal priority, the one that is not after the other
    has the identifier that compares lower or equal. *)
Lemma entry_le_tie (p q : Q) (a b : string) :
  (p == q)%Q -> entry_le (p, a) (q, b) -> (a ?= b)%string <> Gt.
Proof.
  intros Hpq [Hlt | [_ H]]; [| exact H].
  simpl in Hlt. rewrite Hpq in Hlt. exfalso. exact (Qlt_irrefl _ Hlt).
Qed.

End EntryOrder.

(** C5, as stated, fails: of two entries of equal priority the one pushed
    second is popped first when its identifier compares lower. *)
Lemma tie_not_broken_by_insertion_order :
  exists rest,
    heapq.heappop entry_lt
      (heapq.heappush entry_lt
         (heapq.heappush entry_lt [] (inject_Z (-500), "RW_B"))
         (inject_Z (-500), "RW_A"))
    = Some ((inject_Z (-500), "RW_A"), rest).
Proof. eexists. vm_compute. reflexivity. Qed.

(** C5 (amended): the ready heap is ordered by the tuples (priority,
    identifier): the entry that [heappop] returns is not after any entry
    of the heap, so among entries of equal priority it is the one whose
    identifier compares lowest, whatever the order of insertion. *)
Theorem heappop_breaks_ties_by_identifier
    (heap rest : list (Q * string)) (priority : Q) (task : string) :
  heap_ordered entry_lt heap ->
  heapq.heappop entry_lt heap = Some ((priority, task), rest) ->
  heap_ordered entry_lt rest
  /\ (priority, task) :: rest ≡ₚ heap
  /\ forall p t, In (p, t) heap ->
       (priority <= p)%Q
       /\ ((p == priority)%Q -> (task ?= t)%string <> Gt).
Proof.
  intros Hok Hpop.
  assert (Hne : heap <> []).
  { intros ->. discriminate. }
  destruct (heappop_spec entry_lt entry_lt_irrefl entry_lt_not_after
              entry_not_after_trans heap Hok Hne)
    as (item & heap' & Hpop' & Hok' & Hperm & Hmin).
  rewrite Hpop in Hpop'. injection Hpop' as <- <-.
  split; [exact Hok' |]. split; [exact Hperm |].
  intros p t Hin. specialize (Hmin _ Hin).
  apply entry_not_after_iff in Hmin. split.
  - destruct Hmin as [H | [H _]]; simpl in H.
    + apply Qlt_le_weak. exact H.
    + rewrite H. apply Qle_refl.
  - intros Heq. apply (entry_le_tie priority p); [symmetry; exact Heq | exact Hmin].
Qed.

(** ** What a scheduling run does to the scheduler object *)

Section EngineSteps.

Variable compose_dynamic_constraints : scheduler -> list constraint.
Variable now : Z.

(** [st'] is [st] with other caches, and a memoized constraint list is
    still memoized. *)
Definition caches_only (st st' : scheduler) : Prop :=
  st' = set_critical_path_cache (_critical_path_cache st')
          (set_dynamic_constraints_cache (_dynamic_constraints_cache st') st)
  /\ forall cs, _dynamic_constraints_cache st = Some cs ->
                _dynamic_constraints_cache st' = Some cs.

Lemma caches_only_refl (st : scheduler) : caches_only st st.
Proof. split; [destruct st; reflexivity | auto]. Qed.

Lemma caches_only_trans (st1 st2 st3 : scheduler) :
  caches_only st1 st2 -> caches_only st2 st3 -> caches_only st1 st3.
Proof.
  intros [H12 K12] [H23 K23]. split; [| auto].
  rewrite H23 at 1. rewrite H12 at 1. destruct st1; reflexivity.
Qed.

Lemma caches_only_set_dynamic (st : scheduler) (v : option (list constraint)) :
  _dynamic_constraints_cache st = None ->
  caches_only st (set_dynamic_constraints_cache v st).
Proof.
  intros Hnone. split; [destruct st; reflexivity |].
  intros cs Hcs. congruence.
Qed.

Lemma caches_only_set_critical (st : scheduler) (v : gmap string Z) :
  caches_only st (set_critical_path_cache v st).
Proof. split; [destruct st; reflexivity | auto]. Qed.

Lemma build_dynamic_dependencies_caches (st st' : scheduler) (cs : list constraint) :
  build_dynamic_dependencies compose_dynamic_constraints st = (cs, st') ->
  caches_only st st'.
Proof.
  unfold build_dynamic_dependencies.
  destruct (_dynamic_constraints_cache st) eqn:Hc; intros [= <- <-].
  - apply caches_only_refl.
  - apply caches_only_set_dynamic. exact Hc.
Qed.

Lemma calculate_critical_path_length_caches (st st' : scheduler) (id : string)
    (r : res Z) :
  calculate_critical_path_length compose_dynamic_constraints st id = (r, st') ->
  caches_only st st'.
Proof.
  unfold calculate_critical_path_length.
  destruct (_critical_path_cache st !! id).
  - intros [= <- <-]. apply caches_only_refl.
  - destruct (build_dynamic_dependencies compose_dynamic_constraints st)
      as [cs st1] eqn:Hb.
    destruct (get_path_length _ _ _ _ _) as [r' cache].
    intros [= <- <-].
    eapply caches_only_trans.
    + eapply build_dynamic_dependencies_caches; eauto.
    + apply caches_only_set_critical.
Qed.

Lemma calculate_task_priority_caches (fuel : nat) (st st' : scheduler) (id : string)
    (r : res Q) :
  calculate_task_priority compose_dynamic_constraints now fuel st id = (r, st') ->
  caches_only st st'.
Proof.
  revert st st' id r. induction fuel as [| f IH]; intros st st' id r;
    cbn [calculate_task_priority];
    (destruct (tasks st !! id) as [info |];
     [| intros [= <- <-]; apply caches_only_refl]);
    (destruct (bool_decide (id ∈ late_part_tasks st));
     [destruct (on_dock_dates st !! id); intros [= <- <-]; apply caches_only_refl |]);
    (destruct (quality_inspections st !! id) as [qi |]).
  - destruct (_ && _); intros [= <- <-]; apply caches_only_refl.
  - destruct (bool_decide (id ∈ rework_tasks st)).
    + destruct (build_dynamic_dependencies compose_dynamic_constraints st)
        as [cs st1] eqn:Hb.
      intros [= <- <-]. eapply build_dynamic_dependencies_caches; eauto.
    + destruct (calculate_critical_path_length compose_dynamic_constraints st id)
        as [[cpl |] st1] eqn:Hc; intros [= <- <-];
        eapply calculate_critical_path_length_caches; eauto.
  - destruct (_ && _).
    + destruct (calculate_task_priority compose_dynamic_constraints now f st
                  (primary_task qi)) as [[p |] st1] eqn:Hp;
        intros [= <- <-]; eapply IH; eauto.
    + intros [= <- <-]. apply caches_only_refl.
  - destruct (bool_decide (id ∈ rework_tasks st)).
    + destruct (build_dynamic_dependencies compose_dynamic_constraints st)
        as [cs st1] eqn:Hb.
      intros [= <- <-]. eapply build_dynamic_dependencies_caches; eauto.
    + destruct (calculate_critical_path_length compose_dynamic_constraints st id)
        as [[cpl |] st1] eqn:Hc; intros [= <- <-];
        eapply calculate_critical_path_length_caches; eauto.
Qed.

Lemma validate_dag_caches (st st' : scheduler) (r : res bool) :
  validate_dag compose_dynamic_constraints st = (r, st') -> caches_only st st'.
Proof.
  unfold validate_dag.
  destruct (build_dynamic_dependencies compose_dynamic_constraints st)
    as [cs st1] eqn:Hb.
  apply build_dynamic_dependencies_caches in Hb.
  destruct (List.filter _ _).
  - destruct (fold_left _ _ _) as [[found visited] |]; intros [= <- <-]; exact Hb.
  - intros [= <- <-]. exact Hb.
Qed.

(** The flags that [schedule_tasks] passes to the slot search for a
    task. *)
Definition search_flags (info : task_info) : bool * bool :=
  if is_customer info then (false, true)
  else if is_quality info then (true, false)
  else (false, false).

(** One change of the scheduler object during a run whose constraint list
    is [cs]: new cache contents, the team of a task rewritten, or a
    record written for a slot that the search returned. *)
Inductive engine_step (cs : list constraint) : scheduler -> scheduler -> Prop :=
| step_caches (st st' : scheduler) :
    caches_only st st' -> engine_step cs st st'
| step_retarget (st : scheduler) (id : string) (info : task_info)
    (new_team : option string) :
    tasks st !! id = Some info ->
    engine_step cs st (set_tasks (<[id := with_team new_team info]> (tasks st)) st)
| step_place (st : scheduler) (id : string) (info : task_info)
    (scheduled_start : Z) (shift_name team_for_schedule : string)
    (base_team : option string) :
    tasks st !! id = Some info ->
    get_next_working_time_with_capacity st
      (earliest_start_of st cs id (duration info)) (product info) team_for_schedule
      (mechanics_required info) (duration info)
      (fst (search_flags info)) (snd (search_flags info))
      = Ok (Some (scheduled_start, shift_name)) ->
    DateTime.year_gt_2030 scheduled_start = false ->
    engine_step cs st
      (set_task_schedule
         (<[id := make_record info scheduled_start shift_name team_for_schedule
                              base_team]> (task_schedule st)) st).

Definition engine_steps (cs : list constraint) : scheduler -> scheduler -> Prop :=
  rtc (engine_step cs).

Lemma engine_steps_caches (cs : list constraint) (st st' : scheduler) :
  caches_only st st' -> engine_steps cs st st'.
Proof. intros H. apply rtc_once. apply step_caches. exact H. Qed.

Lemma find_customer_slot_found (st : scheduler) (earliest_start : Z)
    (product : option string) (mechanics_needed duration : Z)
    (best_team : string) (start : Z) (shift_name : string) :
  find_customer_slot st earliest_start product mechanics_needed duration
    = Ok (Some (best_team, start, shift_name)) ->
  get_next_working_time_with_capacity st earliest_start product best_team
    mechanics_needed duration false true = Ok (Some (start, shift_name)).
Proof.
  unfold find_customer_slot.
  set (step := fun (acc : res (option (string * Z * string) * Z)) (entry : string * Z) => _).
  assert (Hgen : forall l acc,
    (forall t s sh e, acc = Ok (Some (t, s, sh), e) ->
       get_next_working_time_with_capacity st earliest_start product t
         mechanics_needed duration false true = Ok (Some (s, sh))) ->
    forall t s sh e, fold_left step l acc = Ok (Some (t, s, sh), e) ->
       get_next_working_time_with_capacity st earliest_start product t
         mechanics_needed duration false true = Ok (Some (s, sh))).
  { induction l as [| entry l IH]; intros acc Hacc; simpl; [exact Hacc |].
    apply IH. unfold step at 1.
    destruct acc as [[best avail] |]; [| discriminate].
    destruct (mechanics_needed <=? snd entry); [| exact Hacc].
    destruct (get_next_working_time_with_capacity st earliest_start product
                (fst entry) mechanics_needed duration false true)
      as [[[found found_shift] |] |] eqn:Hg; [| exact Hacc | discriminate].
    destruct (found <? avail); [| exact Hacc].
    intros t s sh e [= <- <- <- <-]. exact Hg. }
  destruct (fold_left step (customer_team_capacity st) (Ok (None, DateTime.max)))
    as [[best avail] |] eqn:Hfold; [| discriminate].
  intros [= ->]. eapply Hgen; [| exact Hfold]. discriminate.
Qed.

(** What [select_team_and_slot] does: the object changes at most in the
    team of the task, and a selected slot is one that the slot search
    returned on the resulting object. *)
Lemma select_team_and_slot_steps (cs : list constraint) (st st1 : scheduler)
    (id : string) (info : task_info) (earliest_start : Z) (sel : selection) :
  tasks st !! id = Some info ->
  select_team_and_slot st id info earliest_start = (sel, st1) ->
  (st1 = st \/ exists t, st1 = set_tasks (<[id := with_team t info]> (tasks st)) st)
  /\ forall start shift_name team_for_schedule base_team,
       sel = Selected start shift_name team_for_schedule base_team ->
       get_next_working_time_with_capacity st1 earliest_start (product info)
         team_for_schedule (mechanics_required info) (duration info)
         (fst (search_flags info)) (snd (search_flags info))
       = Ok (Some (start, shift_name)).
Proof.
  intros Hinfo. unfold select_team_and_slot, search_flags.
  destruct (is_customer info).
  - intros [= <- <-]. split; [left; reflexivity |].
    intros start shift_name team_for_schedule base_team.
    unfold select_customer.
    destruct (find_customer_slot st earliest_start (product info)
                (mechanics_required info) (duration info))
      as [[[[bt bs] bsh] |] |] eqn:Hf; try discriminate.
    destruct (String.eqb bt ""); [discriminate |].
    intros [= <- <- <- <-]. apply find_customer_slot_found. exact Hf.
  - destruct (is_quality info).
    + unfold select_quality.
      set (chosen := match map_mechanic_to_quality_team st (team info) with
                     | Some quality_team => (Some quality_team, st)
                     | None => _
                     end).
      assert (Hchosen : snd chosen = st
                \/ exists t, snd chosen
                     = set_tasks (<[id := with_team t info]> (tasks st)) st).
      { unfold chosen.
        destruct (map_mechanic_to_quality_team st (team info)); [left; reflexivity |].
        destruct (quality_inspections st !! id) as [qi |]; [| left; reflexivity].
        destruct (if PyStr.truthy (Some (primary_task qi))
                  then tasks st !! primary_task qi else None) as [pinfo |];
          [| left; reflexivity].
        destruct (map_mechanic_to_quality_team st (team pinfo));
          [right; eexists; reflexivity | left; reflexivity]. }
      destruct chosen as [[quality_team |] st2]; simpl in Hchosen.
      * destruct (get_next_working_time_with_capacity st2 earliest_start (product info)
                    quality_team (mechanics_required info) (duration info) true false)
          as [[[s sh] |] |] eqn:Hg; intros [= <- <-]; (split; [exact Hchosen |]);
          intros start shift_name team_for_schedule base_team; try discriminate.
        intros [= <- <- <- <-]. exact Hg.
      * intros [= <- <-]. split; [exact Hchosen |]. discriminate.
    + intros [= <- <-]. split; [left; reflexivity |].
      intros start shift_name team_for_schedule base_team.
      unfold select_mechanic.
      destruct (match team_skill info with
                | Some declared => declared
                | None => team info
                end) as [tfs |]; [| discriminate].
      destruct (get_next_working_time_with_capacity st earliest_start (product info)
                  tfs (mechanics_required info) (duration info) false false)
        as [[[s sh] |] |] eqn:Hg; try discriminate.
      intros [= <- <- <- <-]. exact Hg.
Qed.

End EngineSteps.

(** ** Runs of the engine as sequences of steps *)

Section EngineRuns.

Variable compose_dynamic_constraints : scheduler -> list constraint.
Variable now : Z.

Local Abbreviation priority_of :=
  (calculate_task_priority compose_dynamic_constraints now).

Local Arguments calculate_task_priority : simpl never.
Local Arguments get_next_working_time_with_capacity : simpl never.
Local Arguments heapq.heappush : simpl never.
Local Arguments heapq.heappop : simpl never.

Lemma push_initial_steps (cs : list constraint) (st0 : scheduler)
    (candidates : list string) (acc : res unit * loop_state) :
  engine_steps cs st0 (self (snd acc)) ->
  engine_steps cs st0
    (self (snd (push_initial compose_dynamic_constraints now candidates acc))).
Proof.
  unfold push_initial. revert acc.
  induction candidates as [| task rest IH]; intros acc Hacc; simpl; [exact Hacc |].
  apply IH. destruct acc as [[[] |] ls]; [| exact Hacc].
  destruct (priority_of recursion_limit (self ls) task) as [[p |] st1] eqn:Hp;
    simpl in *;
    (eapply rtc_trans; [exact Hacc |]);
    apply engine_steps_caches; eapply calculate_task_priority_caches; eauto.
Qed.

Lemma push_dependents_steps (cs cs' : list constraint) (st0 : scheduler)
    (id : string) (ls : loop_state) :
  engine_steps cs st0 (self ls) ->
  engine_steps cs st0
    (self (snd (push_dependents compose_dynamic_constraints now cs' id ls))).
Proof.
  unfold push_dependents.
  generalize (constraints_by_first cs' id). intros l.
  change ls with (snd (Ok tt, ls)) at 1. generalize (Ok tt, ls). clear ls.
  induction l as [| c rest IH]; intros acc Hacc; simpl; [exact Hacc |].
  apply IH. destruct acc as [[[] |] ls]; [| exact Hacc].
  destruct (_ || _); [exact Hacc |].
  destruct (_ && _); [| exact Hacc].
  destruct (priority_of recursion_limit (self ls) (Second c)) as [[p |] st1] eqn:Hp;
    simpl in *;
    (eapply rtc_trans; [exact Hacc |]);
    apply engine_steps_caches; eapply calculate_task_priority_caches; eauto.
Qed.

Lemma self_requeue (mark : bool) (priority : Q) (id : string) (ls : loop_state) :
  self (requeue mark priority id ls) = self ls.
Proof.
  unfold requeue. destruct (_ <? 3); [reflexivity |]. destruct mark; reflexivity.
Qed.

Lemma loop_body_steps (cs : list constraint) (ls : loop_state) :
  engine_steps cs (self ls)
    (self (snd (loop_body compose_dynamic_constraints now cs ls))).
Proof.
  unfold loop_body.
  destruct (heapq.heappop entry_lt _) as [[[priority id] remaining] |];
    [| apply rtc_refl].
  cbn [ready_tasks with_iteration_count with_ready_tasks task_retry_counts
       failed_tasks self].
  destruct (3 <=? _).
  { simpl. destruct (bool_decide _); apply rtc_refl. }
  destruct (tasks (self ls) !! id) as [info |] eqn:Hinfo; [| apply rtc_refl].
  destruct (select_team_and_slot (self ls) id info
              (earliest_start_of (self ls) cs id (duration info)))
    as [sel st1] eqn:Hsel.
  destruct (select_team_and_slot_steps cs _ _ _ _ _ _ Hinfo Hsel) as [Hst1 Hfound].
  assert (Hto1 : engine_steps cs (self ls) st1).
  { destruct Hst1 as [-> | [t ->]]; [apply rtc_refl |].
    apply rtc_once. apply step_retarget. exact Hinfo. }
  destruct sel as [start shift_name team_for_schedule base_team | mark |].
  - cbn [self with_self failed_tasks].
    destruct (DateTime.year_gt_2030 start) eqn:Hyear; [exact Hto1 |].
    specialize (Hfound _ _ _ _ eq_refl).
    assert (Hplace : engine_steps cs (self ls)
              (set_task_schedule
                 (<[id := make_record info start shift_name team_for_schedule
                                      base_team]> (task_schedule st1)) st1)).
    { eapply rtc_r; [exact Hto1 |].
      destruct Hst1 as [-> | [t ->]].
      - apply step_place; auto.
      - change (make_record info start shift_name team_for_schedule base_team)
          with (make_record (with_team t info) start shift_name team_for_schedule
                            base_team).
        apply step_place; auto.
        cbn [tasks set_tasks]. apply lookup_insert_eq. }
    match goal with
    | |- context [push_dependents _ _ _ _ ?l] =>
        pose proof (push_dependents_steps cs cs (self ls) id l Hplace) as Hdeps;
        destruct (push_dependents compose_dynamic_constraints now cs id l)
          as [[[] |] ls2]
    end; simpl in Hdeps |- *.
    + exact Hdeps.
    + rewrite self_requeue. exact Hdeps.
  - simpl. rewrite self_requeue. exact Hto1.
  - simpl. rewrite self_requeue. exact Hto1.
Qed.

Lemma main_loop_steps (cs : list constraint) (fuel : nat) (total limit : Z)
    (st0 : scheduler) (ls : loop_state) :
  engine_steps cs st0 (self ls) ->
  engine_steps cs st0
    (self (snd (main_loop compose_dynamic_constraints now fuel cs total limit ls))).
Proof.
  revert ls. induction fuel as [| f IH]; intros ls Hls; simpl; [exact Hls |].
  destruct (_ && _); [| exact Hls].
  pose proof (loop_body_steps cs ls) as Hbody.
  destruct (loop_body compose_dynamic_constraints now cs ls) as [[[] |] ls1];
    simpl in Hbody.
  - apply IH. eapply rtc_trans; eauto.
  - simpl. eapply rtc_trans; eauto.
Qed.

(** The object at the start of a run: schedule and critical-path cache
    emptied. *)
Definition cleared (st : scheduler) : scheduler :=
  set_critical_path_cache ∅ (set_task_schedule ∅ st).

(** The constraint list that a run of [schedule_tasks] works with. *)
Definition run_constraints (st : scheduler) : list constraint :=
  fst (build_dynamic_dependencies compose_dynamic_constraints (cleared st)).

(** Building the list twice gives the same list and object. *)
Lemma build_dynamic_dependencies_again (st st1 : scheduler) (cs : list constraint) :
  build_dynamic_dependencies compose_dynamic_constraints st = (cs, st1) ->
  build_dynamic_dependencies compose_dynamic_constraints st1 = (cs, st1).
Proof.
  unfold build_dynamic_dependencies.
  destruct (_dynamic_constraints_cache st) eqn:Hc; intros [= <- <-].
  - rewrite Hc. reflexivity.
  - reflexivity.
Qed.

Lemma validate_dag_state (st st1 : scheduler) (r : res bool) :
  validate_dag compose_dynamic_constraints st = (r, st1) ->
  st1 = snd (build_dynamic_dependencies compose_dynamic_constraints st).
Proof.
  unfold validate_dag.
  destruct (build_dynamic_dependencies compose_dynamic_constraints st) as [cs st2].
  destruct (List.filter _ _).
  - destruct (fold_left _ _ _) as [[found visited] |]; intros [= <- <-]; reflexivity.
  - intros [= <- <-]. reflexivity.
Qed.

(** The object once the constraint list of the run is memoized. *)
Definition constraints_built (st : scheduler) : scheduler :=
  snd (build_dynamic_dependencies compose_dynamic_constraints (cleared st)).

Lemma constraints_built_cache (st : scheduler) :
  _dynamic_constraints_cache (constraints_built st) = Some (run_constraints st).
Proof.
  unfold constraints_built, run_constraints, build_dynamic_dependencies.
  destruct (_dynamic_constraints_cache (cleared st)) eqn:Hc; simpl; [exact Hc |].
  reflexivity.
Qed.

Lemma constraints_built_caches (st : scheduler) :
  caches_only (cleared st) (constraints_built st).
Proof.
  unfold constraints_built.
  destruct (build_dynamic_dependencies compose_dynamic_constraints (cleared st))
    as [cs st1] eqn:Hb.
  eapply build_dynamic_dependencies_caches; eauto.
Qed.

(** A run of [schedule_tasks], whether it returns or raises, memoizes
    the constraint list and then takes engine steps. *)
Lemma schedule_tasks_steps_built (silent_mode : bool) (st st' : scheduler) (r : res unit) :
  schedule_tasks compose_dynamic_constraints now silent_mode st = (r, st') ->
  engine_steps (run_constraints st) (constraints_built st) st'.
Proof.
  unfold schedule_tasks. fold (cleared st).
  set (cs := run_constraints st).
  assert (Hval : exists valid st1,
            (if silent_mode then (Ok true, cleared st)
             else validate_dag compose_dynamic_constraints (cleared st)) = (valid, st1)
            /\ (valid <> Ok true -> st1 = constraints_built st)
            /\ build_dynamic_dependencies compose_dynamic_constraints st1
               = (cs, constraints_built st)).
  { destruct silent_mode.
    - exists (Ok true), (cleared st). split; [reflexivity |].
      split; [intros H; contradiction |].
      unfold cs, run_constraints, constraints_built.
      destruct (build_dynamic_dependencies compose_dynamic_constraints (cleared st));
        reflexivity.
    - destruct (validate_dag compose_dynamic_constraints (cleared st))
        as [valid st1] eqn:Hv.
      exists valid, st1. split; [reflexivity |].
      apply validate_dag_state in Hv. subst st1.
      split; [reflexivity |].
      unfold cs, run_constraints, constraints_built.
      destruct (build_dynamic_dependencies compose_dynamic_constraints (cleared st))
        as [cs0 st2] eqn:Hb. simpl.
      eapply build_dynamic_dependencies_again; eauto. }
  destruct Hval as (valid & st1 & -> & Hst1 & Hb).
  assert (Hfail : valid <> Ok true ->
                  engine_steps cs (constraints_built st) st1).
  { intros Hs. rewrite (Hst1 Hs). apply rtc_refl. }
  destruct valid as [[|] |].
  2: { intros [= <- <-]. apply Hfail. discriminate. }
  2: { intros [= <- <-]. apply Hfail. discriminate. }
  rewrite Hb.
  assert (H2 : engine_steps cs (constraints_built st) (constraints_built st))
    by apply rtc_refl.
  match goal with
  | |- context [push_initial _ _ ?c (push_initial _ _ ?b (push_initial _ _ ?a ?start))] =>
      pose proof (push_initial_steps cs (constraints_built st) c
                    (push_initial compose_dynamic_constraints now b
                       (push_initial compose_dynamic_constraints now a start))
                    (push_initial_steps cs (constraints_built st) b
                       (push_initial compose_dynamic_constraints now a start)
                       (push_initial_steps cs (constraints_built st) a start H2)))
        as Hinit;
      destruct (push_initial compose_dynamic_constraints now c
                  (push_initial compose_dynamic_constraints now b
                     (push_initial compose_dynamic_constraints now a start)))
        as [[[] |] ls]
  end; simpl in Hinit.
  - match goal with
    | |- context [main_loop _ _ ?f ?c ?t ?m ?l] =>
        pose proof (main_loop_steps c f t m (constraints_built st) l Hinit) as Hloop;
        destruct (main_loop compose_dynamic_constraints now f c t m l) as [r' ls']
    end.
    intros [= <- <-]. exact Hloop.
  - intros [= <- <-]. exact Hinit.
Qed.

(** A run of [schedule_tasks] is a sequence of engine steps from the
    cleared object, whether it returns or raises. *)
Lemma schedule_tasks_steps (silent_mode : bool) (st st' : scheduler) (r : res unit) :
  schedule_tasks compose_dynamic_constraints now silent_mode st = (r, st') ->
  engine_steps (run_constraints st) (cleared st) st'.
Proof.
  intros H. eapply rtc_l.
  - apply step_caches. apply constraints_built_caches.
  - eapply schedule_tasks_steps_built; eauto.
Qed.

End EngineRuns.

(** ** The capacity ledger *)

Section Ledger.

(** The headcount of the records of [m] selected by [f]. *)
Definition booked (f : sched_rec -> bool) (m : gmap string sched_rec) : Z :=
  map_fold (fun _ schedule acc =>
              if f schedule then acc + rec_mechanics_required schedule else acc) 0 m.

(** The record is assigned to [team] and its interval [start_time,
    end_time) contains the instant [t]. *)
Definition busy_at (team : string) (t : Z) (schedule : sched_rec) : bool :=
  String.eqb (rec_team_skill schedule) team
  && (start_time schedule <=? t) && (t <? end_time schedule).

(** The headcount in use on [team] at the instant [t]. *)
Definition load (m : gmap string sched_rec) (team : string) (t : Z) : Z :=
  booked (busy_at team t) m.

Definition records_nonneg (m : gmap string sched_rec) : Prop :=
  forall id r, m !! id = Some r -> 0 <= rec_mechanics_required r.

Lemma conflicts_booked (st : scheduler) (team : string) (q c : bool) (a b : Z) :
  conflicts st team q c a b
  = booked (fun r => counts_against team q c r && overlaps r a b) (task_schedule st).
Proof. reflexivity. Qed.

Lemma booked_empty (f : sched_rec -> bool) : booked f ∅ = 0.
Proof. unfold booked. apply map_fold_empty. Qed.

Lemma booked_insert_fresh (f : sched_rec -> bool) (m : gmap string sched_rec)
    (id : string) (r : sched_rec) :
  m !! id = None ->
  booked f (<[id := r]> m)
  = booked f m + (if f r then rec_mechanics_required r else 0).
Proof.
  intros Hfresh. unfold booked.
  rewrite map_fold_insert_L; [| | exact Hfresh].
  - destruct (f r); lia.
  - intros j1 j2 z1 z2 y _ _ _. destruct (f z1), (f z2); lia.
Qed.

Lemma booked_delete (f : sched_rec -> bool) (m : gmap string sched_rec)
    (id : string) (r : sched_rec) :
  m !! id = Some r ->
  booked f m
  = booked f (delete id m) + (if f r then rec_mechanics_required r else 0).
Proof.
  intros Hr. rewrite <- (insert_delete_id m id r Hr) at 1.
  apply booked_insert_fresh. apply lookup_delete_eq.
Qed.

Lemma booked_insert (f : sched_rec -> bool) (m : gmap string sched_rec)
    (id : string) (r : sched_rec) :
  booked f (<[id := r]> m)
  = booked f (delete id m) + (if f r then rec_mechanics_required r else 0).
Proof.
  rewrite <- insert_delete_eq. apply booked_insert_fresh. apply lookup_delete_eq.
Qed.

Lemma booked_nonneg (f : sched_rec -> bool) (m : gmap string sched_rec) :
  records_nonneg m -> 0 <= booked f m.
Proof.
  induction m as [| id r m Hfresh IH] using map_ind; intros Hnn.
  - rewrite booked_empty. lia.
  - rewrite booked_insert_fresh by exact Hfresh.
    assert (0 <= booked f m).
    { apply IH. intros id' r' H'. apply (Hnn id' r').
      rewrite lookup_insert_ne; [exact H' | congruence]. }
    pose proof (Hnn id r (lookup_insert_eq _ _ _)).
    destruct (f r); lia.
Qed.

Lemma booked_mono (f g : sched_rec -> bool) (m : gmap string sched_rec) :
  records_nonneg m ->
  (forall r, f r = true -> g r = true) ->
  booked f m <= booked g m.
Proof.
  intros Hnn Hfg. induction m as [| id r m Hfresh IH] using map_ind.
  - rewrite !booked_empty. lia.
  - rewrite !booked_insert_fresh by exact Hfresh.
    assert (booked f m <= booked g m).
    { apply IH. intros id' r' H'. apply (Hnn id' r').
      rewrite lookup_insert_ne; [exact H' | congruence]. }
    pose proof (Hnn id r (lookup_insert_eq _ _ _)).
    specialize (Hfg r). destruct (f r), (g r); try lia.
Qed.

Lemma records_nonneg_delete (m : gmap string sched_rec) (id : string) :
  records_nonneg m -> records_nonneg (delete id m).
Proof.
  intros Hnn id' r'. rewrite lookup_delete. case_decide; [discriminate |].
  apply Hnn.
Qed.

Lemma booked_delete_le (f : sched_rec -> bool) (m : gmap string sched_rec)
    (id : string) :
  records_nonneg m -> booked f (delete id m) <= booked f m.
Proof.
  intros Hnn. destruct (m !! id) as [r |] eqn:Hr.
  - rewrite (booked_delete f m id r Hr).
    pose proof (Hnn id r Hr). destruct (f r); lia.
  - rewrite delete_id by exact Hr. lia.
Qed.

(** A record that is busy at an instant of [from, to) on [team] is one
    that the conflict count of the slot search counts. *)
Lemma busy_counts (team : string) (q c : bool) (from to t : Z) (r : sched_rec) :
  from <= t < to ->
  busy_at team t r = true ->
  counts_against team q c r && overlaps r from to = true.
Proof.
  unfold busy_at, counts_against, overlaps. intros Ht.
  rewrite !andb_true_iff, Z.leb_le, !Z.ltb_lt. intros [[Hteam Hs] He].
  rewrite Hteam. split; [destruct c; reflexivity | lia].
Qed.

(** The three capacity tables name different teams. *)
Definition team_names_distinct (st : scheduler) : Prop :=
  forall team,
    (is_Some (assoc_get team (customer_team_capacity st)) ->
     quality_team_capacity st !! team = None /\ team_capacity st !! team = None)
    /\ (is_Some (quality_team_capacity st !! team) -> team_capacity st !! team = None).

(** Headcounts are not negative: the capacities and what the tasks
    require. *)
Definition headcounts_nonneg (st : scheduler) : Prop :=
  (forall team, 0 <= capacity_of_team st team)
  /\ forall id info, tasks st !! id = Some info -> 0 <= mechanics_required info.

(** No team is booked beyond its capacity at any instant. *)
Definition within_capacity (st : scheduler) : Prop :=
  forall team t, load (task_schedule st) team t <= capacity_of_team st team.

Definition ledger_invariant (st : scheduler) : Prop :=
  team_names_distinct st /\ headcounts_nonneg st
  /\ records_nonneg (task_schedule st) /\ within_capacity st.

Lemma get_next_capacity (st : scheduler) (current_time : Z) (product_line : option string)
    (team : string) (need dur : Z) (q c : bool) (start : Z) (shift_name : string) :
  get_next_working_time_with_capacity st current_time product_line team need dur q c
    = Ok (Some (start, shift_name)) ->
  capacity_for st team q c <> 0
  /\ need + conflicts st team q c start (start + DateTime.minutes dur)
     <= capacity_for st team q c.
Proof.
  intros H. split.
  - unfold get_next_working_time_with_capacity in H.
    destruct (capacity_for st team q c =? 0) eqn:E; [discriminate |].
    apply Z.eqb_neq in E. exact E.
  - destruct (get_next_sound _ _ _ _ _ _ _ _ _ _ H)
      as (d & _ & _ & _ & ws & we & _ & _ & _ & _ & Hcap). lia.
Qed.

Lemma capacity_for_of_team (st : scheduler) (team : string) (info : task_info) :
  team_names_distinct st ->
  capacity_for st team (fst (search_flags info)) (snd (search_flags info)) <> 0 ->
  capacity_for st team (fst (search_flags info)) (snd (search_flags info))
  = capacity_of_team st team.
Proof.
  intros Hd. destruct (Hd team) as [Hcust Hqual].
  unfold search_flags, capacity_for, capacity_of_team.
  destruct (is_customer info); simpl.
  - destruct (assoc_get team (customer_team_capacity st)); simpl; [reflexivity |].
    intros H. contradiction.
  - destruct (is_quality info); simpl.
    + destruct (quality_team_capacity st !! team) as [v |] eqn:Hq; simpl;
        [| intros H; contradiction].
      intros _. destruct (assoc_get team (customer_team_capacity st)) eqn:Hc;
        [| reflexivity].
      destruct (Hcust ltac:(eauto)) as [Hq' _]. congruence.
    + destruct (team_capacity st !! team) as [v |] eqn:Ht; simpl;
        [| intros H; contradiction].
      intros _.
      destruct (assoc_get team (customer_team_capacity st)) eqn:Hc.
      * destruct (Hcust ltac:(eauto)) as [_ Ht']. congruence.
      * destruct (quality_team_capacity st !! team) eqn:Hq; [| reflexivity].
        specialize (Hqual ltac:(eauto)). congruence.
Qed.

Lemma caches_only_ledger (st st' : scheduler) :
  caches_only st st' -> ledger_invariant st -> ledger_invariant st'.
Proof.
  intros [H _]. rewrite H. clear H. exact id.
Qed.

Lemma ledger_invariant_step (cs : list constraint) (st st' : scheduler) :
  engine_step cs st st' -> ledger_invariant st -> ledger_invariant st'.
Proof.
  intros Hstep. destruct Hstep
    as [st st' Hc | st id info t Hinfo
        | st id info start shift_name team_for_schedule base_team Hinfo Hget Hyear].
  - apply caches_only_ledger. exact Hc.
  - intros (Hd & [Hcap Hneed] & Hrec & Hwithin).
    split; [exact Hd |]. split; [| split; [exact Hrec | exact Hwithin]].
    split; [exact Hcap |].
    intros id' info'. cbn [tasks set_tasks]. rewrite lookup_insert. case_decide.
    + intros [= <-]. simpl. eapply Hneed; eauto.
    + apply Hneed.
  - intros (Hd & [Hcap Hneed] & Hrec & Hwithin).
    pose proof (Hneed _ _ Hinfo) as Hnn.
    destruct (get_next_capacity _ _ _ _ _ _ _ _ _ _ Hget) as [Hnz Hroom].
    rewrite (capacity_for_of_team st team_for_schedule info Hd Hnz) in Hroom.
    split; [exact Hd |]. split; [split; [exact Hcap | exact Hneed] |]. split.
    + intros id' r'. cbn [task_schedule set_task_schedule].
      rewrite lookup_insert. case_decide.
      * intros [= <-]. exact Hnn.
      * apply Hrec.
    + intros team t. cbn [task_schedule set_task_schedule].
      change (capacity_of_team (set_task_schedule _ st) team)
        with (capacity_of_team st team).
      unfold load. rewrite booked_insert.
      pose proof (booked_delete_le (busy_at team t) (task_schedule st) id Hrec) as Hdel.
      specialize (Hwithin team t). unfold load in Hwithin.
      destruct (busy_at team t (make_record info start shift_name team_for_schedule
                                            base_team)) eqn:Hbusy; [| lia].
      assert (Hteam : team_for_schedule = team).
      { unfold busy_at in Hbusy. simpl in Hbusy.
        rewrite !andb_true_iff in Hbusy. destruct Hbusy as [[Ht _] _].
        apply String.eqb_eq in Ht. exact Ht. }
      subst team.
      assert (Hin : start <= t < start + DateTime.minutes (duration info)).
      { unfold busy_at in Hbusy. simpl in Hbusy.
        rewrite !andb_true_iff, Z.leb_le, Z.ltb_lt in Hbusy. lia. }
      pose proof (booked_mono (busy_at team_for_schedule t)
                    (fun r => counts_against team_for_schedule
                                (fst (search_flags info)) (snd (search_flags info)) r
                              && overlaps r start (start + DateTime.minutes (duration info)))
                    (task_schedule st) Hrec
                    (fun r => busy_counts team_for_schedule _ _ _ _ t r Hin)) as Hmono.
      rewrite conflicts_booked in Hroom. simpl. lia.
Qed.

Lemma ledger_invariant_steps (cs : list constraint) (st st' : scheduler) :
  engine_steps cs st st' -> ledger_invariant st -> ledger_invariant st'.
Proof.
  induction 1 as [| x y z Hxy _ IH]; [exact id |].
  intros H. apply IH. eapply ledger_invariant_step; eauto.
Qed.

Lemma ledger_invariant_cleared (st : scheduler) :
  team_names_distinct st -> headcounts_nonneg st -> ledger_invariant (cleared st).
Proof.
  intros Hd Hh. split; [exact Hd |]. split; [exact Hh |]. split.
  - intros id r. cbn. rewrite lookup_empty. discriminate.
  - intros team t. cbn [cleared task_schedule set_critical_path_cache set_task_schedule].
    unfold load. rewrite booked_empty. apply (proj1 Hh).
Qed.

End Ledger.

(** C1: after any run of [schedule_tasks], returned or raised, on data
    whose three capacity tables name different teams and whose headcounts
    are not negative, the records assigned to a team whose interval
    [start_time, end_time) contains an instant require together at most
    the capacity of the team. *)
Theorem schedule_within_capacity
    (compose_dynamic_constraints : scheduler -> list constraint) (now : Z)
    (silent_mode : bool) (st st' : scheduler) (r : res unit) :
  team_names_distinct st ->
  headcounts_nonneg st ->
  schedule_tasks compose_dynamic_constraints now silent_mode st = (r, st') ->
  forall team t, load (task_schedule st') team t <= capacity_of_team st' team.
Proof.
  intros Hd Hh Hrun.
  apply schedule_tasks_steps in Hrun.
  apply (ledger_invariant_steps _ _ _ Hrun (ledger_invariant_cleared st Hd Hh)).
Qed.

(** ** Late parts *)

Section LateParts.


(** No constraint of [cs] pins the start of [id] to the start of a
    predecessor. *)
Definition not_pinned (cs : list constraint) (id : string) : Prop :=
  forall c, In c cs -> Second c = id -> Relationship c <> "Start = Start".

Lemma raise_by_predecessors_spec (st : scheduler) (incoming : list constraint)
    (dur earliest : Z) :
  earliest <= fst (raise_by_predecessors st incoming dur earliest)
  /\ ((forall c, In c incoming -> Relationship c <> "Start = Start") ->
      snd (raise_by_predecessors st incoming dur earliest) = None).
Proof.
  unfold raise_by_predecessors.
  assert (Hgen : forall acc : Z * option Z,
    fst acc <= fst (fold_left
      (fun (acc : Z * option Z) c =>
         match task_schedule st !! First c with
         | Some first_schedule =>
             (Z.max (fst acc) (constraint_time (Relationship c) first_schedule dur),
              if String.eqb (Relationship c) "Start = Start"
              then Some (start_time first_schedule) else snd acc)
         | None => acc
         end) incoming acc)
    /\ ((forall c, In c incoming -> Relationship c <> "Start = Start") ->
        snd (fold_left
          (fun (acc : Z * option Z) c =>
             match task_schedule st !! First c with
             | Some first_schedule =>
                 (Z.max (fst acc) (constraint_time (Relationship c) first_schedule dur),
                  if String.eqb (Relationship c) "Start = Start"
                  then Some (start_time first_schedule) else snd acc)
             | None => acc
             end) incoming acc) = snd acc)).
  { induction incoming as [| c rest IH]; intros acc; simpl; [split; [lia | reflexivity] |].
    destruct (task_schedule st !! First c) as [fs |].
    - destruct (IH (Z.max (fst acc) (constraint_time (Relationship c) fs dur),
                    if String.eqb (Relationship c) "Start = Start"
                    then Some (start_time fs) else snd acc)) as [H1 H2].
      simpl in H1, H2. split; [lia |].
      intros Hno. rewrite H2 by (intros c' Hc'; apply Hno; right; exact Hc').
      destruct (String.eqb (Relationship c) "Start = Start") eqn:E; [| reflexivity].
      apply String.eqb_eq in E. exfalso. apply (Hno c); [left; reflexivity | exact E].
    - destruct (IH acc) as [H1 H2]. split; [exact H1 |].
      intros Hno. apply H2. intros c' Hc'. apply Hno. right. exact Hc'. }
  destruct (Hgen (earliest, None)) as [H1 H2]. split; [exact H1 | exact H2].
Qed.


Lemma get_next_not_before (st : scheduler) (current_time : Z)
    (product_line : option string) (team : string) (need dur : Z) (q c : bool)
    (start : Z) (shift_name : string) :
  get_next_working_time_with_capacity st current_time product_line team need dur q c
    = Ok (Some (start, shift_name)) ->
  current_time <= start.
Proof.
  intros H.
  destruct (get_next_sound st current_time product_line team need dur q c
              start shift_name H)
    as (d & _ & _ & _ & ws & we & _ & _ & Hstart & _).
  pose proof (round_up_15_ge (Z.max ws current_time)) as Hr.
  rewrite <- Hstart in Hr. lia.
Qed.






End LateParts.

(** Example data: one mechanic team on first shift, with a late part whose
    on-dock date is Monday 25 August 2025 at 12:00. *)
Definition late_part_example : scheduler :=
  {| late_part_delay_days := 1;
     tasks := {[ "LP_1" := {| duration := 60; team := Some "Mechanic Team 1";
                              skill := None;
                              team_skill := Some (Some "Mechanic Team 1");
                              mechanics_required := 1; is_quality := false;
                              is_customer := false; task_type := "Late Part";
                              product := Some "Product A" |} ]};
     quality_inspections := ∅;
     customer_team_capacity := []; customer_team_shifts := ∅;
     late_part_tasks := {[ "LP_1" ]}; rework_tasks := ∅;
     on_dock_dates := {[ "LP_1" := DateTime.make 739488 12 0 ]};
     team_shifts := {[ "Mechanic Team 1" := ["1st"] ]};
     team_capacity := {[ "Mechanic Team 1" := 1 ]};
     quality_team_shifts := ∅; quality_team_capacity := ∅;
     shift_hours := {[ "1st" := ("6:00", "14:30") ]};
     delivery_dates := {[ "Product A" := DateTime.make 739500 0 0 ]};
     holidays := ∅;
     task_schedule := ∅;
     _dynamic_constraints_cache := None; _critical_path_cache := ∅;
     _original_team_capacity := {[ "Mechanic Team 1" := 1 ]};
     _original_quality_capacity := ∅ |}.





(** ** Scenario drivers *)

Section ScenarioFacts.

Variable compose_dynamic_constraints : scheduler -> list constraint.
Variable now : Z.

Local Arguments calculate_task_priority : simpl never.
Local Arguments schedule_tasks : simpl never.

(** Restoring writes every entry of the original table over the current
    one and leaves the other entries. *)
Lemma restore_capacities_lookup (original current : gmap string Z) (team : string) :
  restore_capacities original current !! team
  = match original !! team with
    | Some capacity => Some capacity
    | None => current !! team
    end.
Proof.
  unfold restore_capacities.
  apply (map_fold_weak_ind
           (fun (acc : gmap string Z) (o : gmap string Z) =>
              acc !! team = match o !! team with
                            | Some capacity => Some capacity
                            | None => current !! team
                            end)).
  - rewrite lookup_empty. reflexivity.
  - intros k v o acc Hfresh IH. rewrite !lookup_insert.
    case_decide; [reflexivity | exact IH].
Qed.

Lemma restore_capacities_covered (original current : gmap string Z) :
  dom current ⊆ dom original -> restore_capacities original current = original.
Proof.
  intros Hdom. apply map_eq. intros team. rewrite restore_capacities_lookup.
  destruct (original !! team) eqn:Ho; [reflexivity |].
  apply not_elem_of_dom. intros Hin. apply Hdom in Hin.
  apply elem_of_dom in Hin. rewrite Ho in Hin. destruct Hin; discriminate.
Qed.

(** What stays as it is across engine steps: the capacity tables, the
    stored originals and a memoized constraint list. *)
Definition capacities_kept (st st' : scheduler) : Prop :=
  team_capacity st' = team_capacity st
  /\ quality_team_capacity st' = quality_team_capacity st
  /\ customer_team_capacity st' = customer_team_capacity st
  /\ _original_team_capacity st' = _original_team_capacity st
  /\ _original_quality_capacity st' = _original_quality_capacity st
  /\ forall cs, _dynamic_constraints_cache st = Some cs ->
                _dynamic_constraints_cache st' = Some cs.

Lemma capacities_kept_refl (st : scheduler) : capacities_kept st st.
Proof. unfold capacities_kept. auto 10. Qed.

Lemma capacities_kept_trans (st1 st2 st3 : scheduler) :
  capacities_kept st1 st2 -> capacities_kept st2 st3 -> capacities_kept st1 st3.
Proof.
  intros (A1 & A2 & A3 & A4 & A5 & A6) (B1 & B2 & B3 & B4 & B5 & B6).
  unfold capacities_kept. rewrite B1, B2, B3, B4, B5, A1, A2, A3, A4, A5.
  repeat split; auto.
Qed.

Lemma caches_only_capacities (st st' : scheduler) :
  caches_only st st' -> capacities_kept st st'.
Proof.
  intros [H K]. unfold capacities_kept. rewrite H. repeat split; auto.
Qed.

Lemma engine_steps_capacities (cs : list constraint) (st st' : scheduler) :
  engine_steps cs st st' -> capacities_kept st st'.
Proof.
  induction 1 as [| x y z Hxy _ IH]; [apply capacities_kept_refl |].
  eapply capacities_kept_trans; [| exact IH].
  destruct Hxy as [st st' Hc | |].
  - apply caches_only_capacities. exact Hc.
  - unfold capacities_kept. cbn. auto 10.
  - unfold capacities_kept. cbn. auto 10.
Qed.

Lemma priority_pass_caches (ids : list string) (acc : res unit * scheduler)
    (st0 : scheduler) :
  caches_only st0 (snd acc) ->
  caches_only st0
    (snd (fold_left
            (fun (acc : res unit * scheduler) task_instance_id =>
               match acc with
               | (Ok _, st) =>
                   match calculate_task_priority compose_dynamic_constraints now
                           recursion_limit st task_instance_id with
                   | (Ok _, st) => (Ok tt, st)
                   | (Raise, st) => (Raise, st)
                   end
               | (Raise, _) => acc
               end) ids acc)).
Proof.
  revert acc. induction ids as [| id rest IH]; intros acc Hacc; cbn [fold_left];
    [exact Hacc |].
  apply IH. destruct acc as [[[] |] st]; [| exact Hacc].
  destruct (calculate_task_priority compose_dynamic_constraints now recursion_limit
              st id) as [[p |] st1] eqn:Hp; cbn [snd] in *;
    (eapply caches_only_trans; [exact Hacc |]);
    eapply calculate_task_priority_caches; eauto.
Qed.

(** [generate_global_priority_list] changes the object as its run of the
    engine does, and then only the caches. *)
Lemma generate_global_priority_list_steps (silent_mode : bool) (st st' : scheduler)
    (r : res unit) :
  generate_global_priority_list compose_dynamic_constraints now silent_mode st
    = (r, st') ->
  engine_steps (run_constraints compose_dynamic_constraints st) (cleared st) st'.
Proof.
  unfold generate_global_priority_list.
  destruct (schedule_tasks compose_dynamic_constraints now silent_mode st)
    as [[[] |] st1] eqn:Hrun.
  - apply schedule_tasks_steps in Hrun.
    intros H. eapply rtc_r; [exact Hrun |]. apply step_caches.
    pose proof (priority_pass_caches (map_to_list (task_schedule st1)).*1
                  (Ok tt, st1) st1 (caches_only_refl st1)) as Hp.
    rewrite H in Hp. exact Hp.
  - intros [= <- <-]. eapply schedule_tasks_steps; eauto.
Qed.

Lemma generate_global_priority_list_capacities (silent_mode : bool) (st st' : scheduler)
    (r : res unit) :
  generate_global_priority_list compose_dynamic_constraints now silent_mode st
    = (r, st') ->
  capacities_kept st st'.
Proof.
  intros H. apply generate_global_priority_list_steps in H.
  apply engine_steps_capacities in H.
  eapply capacities_kept_trans; [| exact H].
  unfold capacities_kept, cleared. cbn. auto 10.
Qed.

(** *** Scenario 2 *)

Lemma s2_iteration_frame (s : search_state) :
  dom (team_capacity (s2_self (s2_iteration compose_dynamic_constraints now s)))
    = dom (team_capacity (s2_self s))
  /\ dom (quality_team_capacity (s2_self (s2_iteration compose_dynamic_constraints now s)))
     = dom (quality_team_capacity (s2_self s))
  /\ _original_team_capacity (s2_self (s2_iteration compose_dynamic_constraints now s))
     = _original_team_capacity (s2_self s)
  /\ _original_quality_capacity (s2_self (s2_iteration compose_dynamic_constraints now s))
     = _original_quality_capacity (s2_self s)
  /\ forall cs, _dynamic_constraints_cache (s2_self s) = Some cs ->
       _dynamic_constraints_cache
         (s2_self (s2_iteration compose_dynamic_constraints now s)) = Some cs.
Proof.
  unfold s2_iteration.
  match goal with
  | |- context [generate_global_priority_list _ _ true ?st0] =>
      pose proof (generate_global_priority_list_capacities true st0) as Hk;
      destruct (generate_global_priority_list compose_dynamic_constraints now true st0)
        as [r st1]
  end.
  specialize (Hk st1 r eq_refl). destruct Hk as (K1 & K2 & K3 & K4 & K5 & K6).
  cbn in K1, K2, K4, K5, K6.
  assert (Hgoal :
    dom (team_capacity st1) = dom (team_capacity (s2_self s))
    /\ dom (quality_team_capacity st1) = dom (quality_team_capacity (s2_self s))
    /\ _original_team_capacity st1 = _original_team_capacity (s2_self s)
    /\ _original_quality_capacity st1 = _original_quality_capacity (s2_self s)
    /\ forall cs, _dynamic_constraints_cache (s2_self s) = Some cs ->
                  _dynamic_constraints_cache st1 = Some cs).
  { rewrite K1, K2, K4, K5, !dom_fmap_L. repeat split; auto. }
  destruct r as [[] |]; [destruct (_ =? _)%nat |]; exact Hgoal.
Qed.

Lemma s2_loop_frame (fuel : nat) (s : search_state) :
  dom (team_capacity (s2_self (s2_loop compose_dynamic_constraints now fuel s)))
    = dom (team_capacity (s2_self s))
  /\ dom (quality_team_capacity (s2_self (s2_loop compose_dynamic_constraints now fuel s)))
     = dom (quality_team_capacity (s2_self s))
  /\ _original_team_capacity (s2_self (s2_loop compose_dynamic_constraints now fuel s))
     = _original_team_capacity (s2_self s)
  /\ _original_quality_capacity (s2_self (s2_loop compose_dynamic_constraints now fuel s))
     = _original_quality_capacity (s2_self s)
  /\ forall cs, _dynamic_constraints_cache (s2_self s) = Some cs ->
       _dynamic_constraints_cache
         (s2_self (s2_loop compose_dynamic_constraints now fuel s)) = Some cs.
Proof.
  revert s. induction fuel as [| f IH]; intros s; cbn [s2_loop]; [auto 10 |].
  destruct (s2_iteration_frame s) as (A1 & A2 & A3 & A4 & A5).
  destruct (_ || _); [auto 10 |].
  destruct (IH (s2_iteration compose_dynamic_constraints now s))
    as (B1 & B2 & B3 & B4 & B5).
  rewrite B1, B2, B3, B4, A1, A2, A3, A4. repeat split; auto.
Qed.

(** *** Scenario 3 *)

Local Abbreviation iteration_of :=
  (s3_iteration compose_dynamic_constraints now).

(** The object after an iteration is the one that the run on the applied
    configuration left. *)
Lemma s3_iteration_self (draws : oracle) (target : Z) (initial_temp cooling_rate : Q)
    (iteration : nat) (a : annealing_state) :
  s3_self (fst (iteration_of draws target initial_temp cooling_rate iteration a))
  = snd (generate_global_priority_list compose_dynamic_constraints now true
           (clear_previous_schedule
              (apply_capacity_configuration (current_config a) (s3_self a)))).
Proof.
  unfold s3_iteration.
  destruct (generate_global_priority_list compose_dynamic_constraints now true _)
    as [[[] |] st1]; [| reflexivity].
  cbn [snd].
  repeat match goal with
         | |- context [if ?b then _ else _] => destruct b
         | |- context [match ?r with Ok _ => _ | Raise => _ end] => destruct r
         end; reflexivity.
Qed.

Lemma s3_iteration_frame (draws : oracle) (target : Z) (initial_temp cooling_rate : Q)
    (iteration : nat) (a : annealing_state) :
  let a' := fst (iteration_of draws target initial_temp cooling_rate iteration a) in
  team_capacity (s3_self a')
    = restore_capacities (mechanic (current_config a)) (team_capacity (s3_self a))
  /\ quality_team_capacity (s3_self a')
     = restore_capacities (quality (current_config a))
                          (quality_team_capacity (s3_self a))
  /\ _original_team_capacity (s3_self a') = _original_team_capacity (s3_self a)
  /\ _original_quality_capacity (s3_self a') = _original_quality_capacity (s3_self a)
  /\ forall cs, _dynamic_constraints_cache (s3_self a) = Some cs ->
                _dynamic_constraints_cache (s3_self a') = Some cs.
Proof.
  intros a'. unfold a'. rewrite s3_iteration_self.
  match goal with
  | |- context [generate_global_priority_list _ _ true ?st0] =>
      pose proof (generate_global_priority_list_capacities true st0) as Hk;
      destruct (generate_global_priority_list compose_dynamic_constraints now true st0)
        as [r st1]
  end.
  specialize (Hk st1 r eq_refl). destruct Hk as (K1 & K2 & K3 & K4 & K5 & K6).
  cbn in K1, K2, K4, K5, K6. cbn [snd].
  rewrite K1, K2, K4, K5. repeat split; auto.
Qed.

Lemma s3_loop_frame (draws : oracle) (target : Z) (initial_temp cooling_rate : Q)
    (remaining iteration : nat) (a : annealing_state) :
  let a' := s3_loop compose_dynamic_constraints now draws target initial_temp
                    cooling_rate remaining iteration a in
  _original_team_capacity (s3_self a') = _original_team_capacity (s3_self a)
  /\ _original_quality_capacity (s3_self a') = _original_quality_capacity (s3_self a)
  /\ (forall cs, _dynamic_constraints_cache (s3_self a) = Some cs ->
                 _dynamic_constraints_cache (s3_self a') = Some cs)
  /\ (forall team, is_Some (team_capacity (s3_self a) !! team) ->
                   is_Some (team_capacity (s3_self a') !! team))
  /\ (forall team, (0 < remaining)%nat ->
                   is_Some (mechanic (current_config a) !! team) ->
                   is_Some (team_capacity (s3_self a') !! team)).
Proof.
  revert iteration a. induction remaining as [| n IH]; intros iteration a; cbn [s3_loop].
  - repeat split; auto. intros team Hn. lia.
  - pose proof (s3_iteration_frame draws target initial_temp cooling_rate iteration a)
      as (A1 & A2 & A3 & A4 & A5).
    destruct (iteration_of draws target initial_temp cooling_rate iteration a)
      as [a1 stop]. cbn [fst] in A1, A2, A3, A4, A5.
    assert (Hkeep : forall team, is_Some (team_capacity (s3_self a) !! team) ->
                                 is_Some (team_capacity (s3_self a1) !! team)).
    { intros team Hs. rewrite A1, restore_capacities_lookup.
      destruct (mechanic (current_config a) !! team); [eauto | exact Hs]. }
    assert (Hnew : forall team, is_Some (mechanic (current_config a) !! team) ->
                                is_Some (team_capacity (s3_self a1) !! team)).
    { intros team [v Hv]. rewrite A1, restore_capacities_lookup, Hv. eauto. }
    destruct stop.
    + repeat split; auto.
    + destruct (IH (S iteration) a1) as (B1 & B2 & B3 & B4 & B5).
      rewrite B1, B2, A3, A4. repeat split; auto.
Qed.

End ScenarioFacts.

(** C4, as stated, fails: the statements that reset the object inside the
    scenario loops leave a memoized constraint list where it is, and the
    next run works with it instead of composing the list again. *)
Lemma dependency_cache_survives_reset :
  let stale := {| First := "LP_1"; Second := "A_1"; Relationship := "Finish <= Start" |} in
  let st := set_dynamic_constraints_cache (Some [stale]) late_part_example in
  _dynamic_constraints_cache (clear_previous_schedule st) = Some [stale]
  /\ fst (build_dynamic_dependencies (fun _ => []) (clear_previous_schedule st))
     = [stale].
Proof. split; reflexivity. Qed.

(** C4 (amended): inside the loops of scenario 2 and scenario 3 the
    capacities are applied first; the reset that follows empties the
    Schedule Records and the critical-path cache and leaves the dependency
    cache as it is, so a constraint list memoized before an iteration is
    still memoized after it and is the list that the run of the iteration
    works with. *)
Theorem scenario_reset_keeps_dependency_cache
    (compose_dynamic_constraints : scheduler -> list constraint) (now : Z) :
  (forall st,
      task_schedule (clear_previous_schedule st) = ∅
      /\ _critical_path_cache (clear_previous_schedule st) = ∅
      /\ _dynamic_constraints_cache (clear_previous_schedule st)
         = _dynamic_constraints_cache st
      /\ team_capacity (clear_previous_schedule st) = team_capacity st
      /\ quality_team_capacity (clear_previous_schedule st) = quality_team_capacity st)
  /\ (forall st cs,
        _dynamic_constraints_cache st = Some cs ->
        run_constraints compose_dynamic_constraints st = cs)
  /\ (forall s cs,
        _dynamic_constraints_cache (s2_self s) = Some cs ->
        _dynamic_constraints_cache
          (s2_self (s2_iteration compose_dynamic_constraints now s)) = Some cs)
  /\ (forall draws target initial_temp cooling_rate iteration a cs,
        _dynamic_constraints_cache (s3_self a) = Some cs ->
        _dynamic_constraints_cache
          (s3_self (fst (s3_iteration compose_dynamic_constraints now draws target
                           initial_temp cooling_rate iteration a))) = Some cs).
Proof.
  split; [| split; [| split]].
  - intros st. repeat split; reflexivity.
  - intros st cs Hcs. unfold run_constraints, build_dynamic_dependencies.
    change (_dynamic_constraints_cache (cleared st))
      with (_dynamic_constraints_cache st).
    rewrite Hcs. reflexivity.
  - intros s cs Hcs.
    destruct (s2_iteration_frame compose_dynamic_constraints now s)
      as (_ & _ & _ & _ & H). apply H. exact Hcs.
  - intros draws target initial_temp cooling_rate iteration a cs Hcs.
    destruct (s3_iteration_frame compose_dynamic_constraints now draws target
                initial_temp cooling_rate iteration a) as (_ & _ & _ & _ & H).
    apply H. exact Hcs.
Qed.

(** Example data: a production task and its customer inspection, which
    lasts 600 minutes and so fits no shift of 510 minutes. *)
Definition customer_example : scheduler :=
  {| late_part_delay_days := 1;
     tasks := {[ "A_1" := {| duration := 60; team := Some "Mechanic Team 1";
                             skill := None;
                             team_skill := Some (Some "Mechanic Team 1");
                             mechanics_required := 1; is_quality := false;
                             is_customer := false; task_type := "Production";
                             product := Some "A" |};
                 "A_CC_601" := {| duration := 600; team := Some "Customer Team 1";
                                  skill := None;
                                  team_skill := Some (Some "Customer Team 1");
                                  mechanics_required := 1; is_quality := false;
                                  is_customer := true; task_type := "Customer";
                                  product := Some "A" |} ]};
     quality_inspections := ∅;
     customer_team_capacity := [("Customer Team 1", 1)];
     customer_team_shifts := {[ "Customer Team 1" := ["1st"] ]};
     late_part_tasks := ∅; rework_tasks := ∅;
     on_dock_dates := ∅;
     team_shifts := {[ "Mechanic Team 1" := ["1st"] ]};
     team_capacity := {[ "Mechanic Team 1" := 2 ]};
     quality_team_shifts := {[ "Quality Team 1" := ["1st"] ]};
     quality_team_capacity := {[ "Quality Team 1" := 1 ]};
     shift_hours := {[ "1st" := ("6:00", "14:30") ]};
     delivery_dates := {[ "A" := DateTime.make 739500 0 0 ]};
     holidays := ∅;
     task_schedule := ∅;
     _dynamic_constraints_cache := None; _critical_path_cache := ∅;
     _original_team_capacity := {[ "Mechanic Team 1" := 2 ]};
     _original_quality_capacity := {[ "Quality Team 1" := 1 ]} |}.

Definition customer_example_constraints (_ : scheduler) : list constraint :=
  [ {| First := "A_1"; Second := "A_CC_601"; Relationship := "Finish = Start" |} ].

Lemma customer_example_first_iteration (draws : oracle) :
  let r := s3_iteration customer_example_constraints start_date draws (-1) 100
             (95 # 100) 0
             {| s3_self := customer_example;
                current_config := initialize_moderate_capacity customer_example;
                best_config := initialize_moderate_capacity customer_example;
                best_score := None; best_metrics := None;
                temperature := 100; no_improvement := 0 |} in
  snd r = false
  /\ mechanic (current_config (fst r)) !! "Customer Team 1" = Some 1.
Proof. split; vm_compute; reflexivity. Qed.

Lemma s3_loop_unfold (compose_dynamic_constraints : scheduler -> list constraint)
    (now : Z) (draws : oracle) (target : Z) (initial_temp cooling_rate : Q)
    (remaining iteration : nat) (a : annealing_state) :
  s3_loop compose_dynamic_constraints now draws target initial_temp cooling_rate
          (S remaining) iteration a
  = let r := s3_iteration compose_dynamic_constraints now draws target initial_temp
                          cooling_rate iteration a in
    if snd r then fst r
    else s3_loop compose_dynamic_constraints now draws target initial_temp
                 cooling_rate remaining (S iteration) (fst r).
Proof.
  cbn [s3_loop].
  destruct (s3_iteration compose_dynamic_constraints now draws target initial_temp
              cooling_rate iteration a). reflexivity.
Qed.

(** C7 fails on the code for scenario 3: with a customer inspection that
    cannot be placed, whatever the random draws and for any number of
    iterations from two on, the mechanic capacity table keeps an entry for
    'Customer Team 1' after the originals are restored, although the
    original table has none. *)
Theorem scenario_3_leaves_customer_team_among_mechanics
    (draws : oracle) (max_iterations : nat) :
  (2 <= max_iterations)%nat ->
  let st' := fst (fst (scenario_3_simulated_annealing customer_example_constraints
                         start_date draws (-1) max_iterations 100 (95 # 100)
                         customer_example)) in
  _original_team_capacity customer_example !! "Customer Team 1" = None
  /\ is_Some (team_capacity st' !! "Customer Team 1")
  /\ team_capacity st' <> _original_team_capacity customer_example.
Proof.
  intros Hn st'.
  assert (Horig : _original_team_capacity customer_example !! "Customer Team 1" = None)
    by (vm_compute; reflexivity).
  assert (Hsome : is_Some (team_capacity st' !! "Customer Team 1")).
  { unfold st', scenario_3_simulated_annealing. cbn [fst].
    unfold restore_original_capacities. cbn [team_capacity set_team_capacity
      set_quality_team_capacity].
    rewrite restore_capacities_lookup, Horig.
    destruct max_iterations as [| [| n]]; [lia | lia |].
    rewrite s3_loop_unfold.
    pose proof (customer_example_first_iteration draws) as Hfirst.
    cbv zeta in Hfirst.
    remember (s3_iteration customer_example_constraints start_date draws (-1) 100
                (95 # 100) 0 _) as r0 eqn:Hr0.
    clear Hr0. destruct Hfirst as [Hstop Hkey]. cbv zeta. rewrite Hstop.
    pose proof (s3_loop_frame customer_example_constraints start_date draws (-1) 100
                  (95 # 100) (S n) 1 (fst r0)) as H.
    cbv zeta in H. destruct H as (_ & _ & _ & _ & H).
    apply H; [lia |]. rewrite Hkey. eauto. }
  split; [exact Horig |]. split; [exact Hsome |].
  intros Heq. rewrite Heq, Horig in Hsome. clear Heq.
  destruct Hsome as [v Hv]. discriminate Hv.
Qed.

Lemma scenario_3_leaves_customer_team_witness :
  is_Some (team_capacity
             (fst (fst (scenario_3_simulated_annealing customer_example_constraints
                          start_date
                          {| utilisation_raises := fun _ => false;
                             accepts := fun _ => false;
                             sampled := fun _ l k => take k l;
                             low_utilisation_draw := fun _ => Ok None |}
                          (-1) 300 100 (95 # 100) customer_example)))
           !! "Customer Team 1").
Proof.
  apply (scenario_3_leaves_customer_team_among_mechanics _ 300). lia.
Defined.

(** ** The theorems at concrete data *)

Lemma late_part_example_run :
  exists st' rec,
    schedule_tasks (fun _ => []) start_date true late_part_example = (Ok tt, st')
    /\ task_schedule st' !! "LP_1" = Some rec
    /\ start_time rec = DateTime.make 739489 6 0
    /\ end_time rec = DateTime.make 739489 7 0
    /\ size (task_schedule st') = 1%nat.
Proof.
  eexists. eexists. split; [vm_compute; reflexivity |].
  split; [vm_compute; reflexivity |]. repeat split.
Qed.

Lemma late_part_example_distinct : team_names_distinct late_part_example.
Proof.
  intros team. split.
  - intros [v Hv]. discriminate Hv.
  - intros [v Hv]. cbn in Hv. rewrite lookup_empty in Hv. discriminate Hv.
Qed.

Lemma late_part_example_nonneg : headcounts_nonneg late_part_example.
Proof.
  split.
  - intros team. unfold capacity_of_team. cbn.
    rewrite lookup_empty.
    destruct (decide (team = "Mechanic Team 1")) as [-> | Hne].
    + rewrite lookup_singleton_eq. simpl. lia.
    + rewrite lookup_singleton_ne by congruence. simpl. lia.
  - intros id info. cbn. intros H.
    apply lookup_singleton_Some in H as [_ <-]. simpl. lia.
Qed.

Lemma schedule_within_capacity_witness :
  load (task_schedule (snd (schedule_tasks (fun _ => []) start_date true
                              late_part_example)))
       "Mechanic Team 1" (DateTime.make 739489 6 0)
  <= capacity_of_team (snd (schedule_tasks (fun _ => []) start_date true
                              late_part_example)) "Mechanic Team 1".
Proof.
  apply (schedule_within_capacity (fun _ => []) start_date true late_part_example _
           (fst (schedule_tasks (fun _ => []) start_date true late_part_example))
           late_part_example_distinct late_part_example_nonneg).
  apply surjective_pairing.
Defined.

Lemma first_shift_wellformed :
  shift_hours_wellformed late_part_example.
Proof.
  intros shift_name info H. cbn in H.
  apply lookup_singleton_Some in H as [_ <-].
  exists 6, 0, 14, 30. repeat split; try reflexivity; lia.
Qed.

Lemma next_working_time_witness :
  (exists days_ahead ws we,
      0 <= days_ahead < 30
      /\ shift_window late_part_example start_date days_ahead "1st" = Some (ws, we)
      /\ ws <= start_date
      /\ start_date + DateTime.minutes 120 <= we)
  /\ get_next_working_time_with_capacity late_part_example start_date
       (Some "Product A") "Mechanic Team 9" 1 120 false false = Ok None.
Proof.
  split.
  - destruct (proj1 (next_working_time_fits_one_shift late_part_example start_date
                       (Some "Product A") "Mechanic Team 1" 1 120 false false)
                    start_date "1st" eq_refl)
      as (d & ws & we & Hd & _ & _ & Hwin & _ & Hws & Hwe & _).
    exists d, ws, we. auto.
  - apply (proj2 (next_working_time_fits_one_shift late_part_example start_date
                    (Some "Product A") "Mechanic Team 9" 1 120 false false)).
    + exact first_shift_wellformed.
    + intros d s c (_ & _ & _ & ws & we & _ & _ & _ & _ & Hcap).
      rewrite conflicts_booked in Hcap. cbn in Hcap.
      rewrite booked_empty in Hcap.
      unfold capacity_for in Hcap. cbn in Hcap.
      rewrite lookup_singleton_ne in Hcap by discriminate. simpl in Hcap. lia.
Defined.

(** C3, as stated, fails: with a task to place and an empty schedule the
    makespan is 0, not the sentinel. *)
Lemma makespan_of_empty_schedule_is_zero :
  (size (task_schedule late_part_example) < size (tasks late_part_example))%nat
  /\ calculate_makespan late_part_example = 0
  /\ calculate_makespan late_part_example <> 999999.
Proof.
  split; [vm_compute; lia |]. split; [reflexivity |].
  vm_compute. discriminate.
Qed.

Lemma calculate_makespan_witness :
  calculate_makespan late_part_example = 0
  /\ calculate_makespan
       (snd (schedule_tasks customer_example_constraints start_date true
               customer_example)) = 999999
  /\ exists first last,
       calculate_makespan
         (snd (schedule_tasks (fun _ => []) start_date true late_part_example))
       = working_days_spanning
           (snd (schedule_tasks (fun _ => []) start_date true late_part_example))
           (DateTime.date_of first) (DateTime.date_of last).
Proof.
  split; [| split].
  - apply (proj1 (calculate_makespan_cases late_part_example)). reflexivity.
  - apply (proj1 (proj2 (calculate_makespan_cases _))).
    + intros H.
      assert (Hs : size (task_schedule
                (snd (schedule_tasks customer_example_constraints start_date true
                        customer_example))) = 1%nat) by (vm_compute; reflexivity).
      rewrite H in Hs. discriminate Hs.
    + vm_compute. lia.
  - destruct (proj2 (proj2 (calculate_makespan_cases
                (snd (schedule_tasks (fun _ => []) start_date true late_part_example)))))
      as (first & last & _ & _ & H).
    + intros H.
      assert (Hs : size (task_schedule
                (snd (schedule_tasks (fun _ => []) start_date true
                        late_part_example))) = 1%nat) by (vm_compute; reflexivity).
      rewrite H in Hs. discriminate Hs.
    + vm_compute. lia.
    + exists first, last. exact H.
Defined.

Lemma two_rework_entries_ordered :
  heap_ordered entry_lt
    (heapq.heappush entry_lt
       (heapq.heappush entry_lt [] (inject_Z (-500), "RW_B"))
       (inject_Z (-500), "RW_A")).
Proof.
  apply (heappush_spec entry_lt entry_lt_irrefl entry_lt_not_after
           entry_not_after_trans).
  apply (heappush_spec entry_lt entry_lt_irrefl entry_lt_not_after
           entry_not_after_trans).
  apply heap_ordered_nil.
Qed.

Lemma heappop_ties_witness :
  heapq.heappop entry_lt
    (heapq.heappush entry_lt
       (heapq.heappush entry_lt [] (inject_Z (-500), "RW_B"))
       (inject_Z (-500), "RW_A"))
  = Some ((inject_Z (-500), "RW_A"), [(inject_Z (-500), "RW_B")])
  /\ ("RW_A" ?= "RW_B")%string <> Gt.
Proof.
  split; [vm_compute; reflexivity |].
  refine (proj2 (proj2 (proj2 (heappop_breaks_ties_by_identifier
            (heapq.heappush entry_lt
               (heapq.heappush entry_lt [] (inject_Z (-500), "RW_B"))
               (inject_Z (-500), "RW_A"))
            [(inject_Z (-500), "RW_B")] (inject_Z (-500)) "RW_A"
            two_rework_entries_ordered _))
            (inject_Z (-500)) "RW_B" _) _).
  - vm_compute. reflexivity.
  - vm_compute. right. left. reflexivity.
  - reflexivity.
Defined.

(** Example data: a production task that is placed and its quality
    inspection. *)
Definition inspection_example (placed : bool) : scheduler :=
  {| late_part_delay_days := 1;
     tasks := {[ "A_1" := {| duration := 60; team := Some "Mechanic Team 1";
                             skill := None;
                             team_skill := Some (Some "Mechanic Team 1");
                             mechanics_required := 1; is_quality := false;
                             is_customer := false; task_type := "Production";
                             product := Some "A" |};
                 "A_QI_1" := {| duration := 30; team := Some "Quality Team 1";
                                skill := None; team_skill := None;
                                mechanics_required := 1; is_quality := true;
                                is_customer := false;
                                task_type := "Quality Inspection";
                                product := Some "A" |} ]};
     quality_inspections := {[ "A_QI_1" := {| primary_task := "A_1"; headcount := 1 |} ]};
     customer_team_capacity := []; customer_team_shifts := ∅;
     late_part_tasks := ∅; rework_tasks := ∅;
     on_dock_dates := ∅;
     team_shifts := {[ "Mechanic Team 1" := ["1st"] ]};
     team_capacity := {[ "Mechanic Team 1" := 2 ]};
     quality_team_shifts := {[ "Quality Team 1" := ["1st"] ]};
     quality_team_capacity := {[ "Quality Team 1" := 1 ]};
     shift_hours := {[ "1st" := ("6:00", "14:30") ]};
     delivery_dates := {[ "A" := DateTime.make 739500 0 0 ]};
     holidays := ∅;
     task_schedule :=
       if placed
       then {[ "A_1" := sample_record (DateTime.make 739485 6 0)
                                      (DateTime.make 739485 7 0) ]}
       else ∅;
     _dynamic_constraints_cache :=
       Some [ {| First := "A_1"; Second := "A_QI_1";
                 Relationship := "Finish = Start" |} ];
     _critical_path_cache := ∅;
     _original_team_capacity := {[ "Mechanic Team 1" := 2 ]};
     _original_quality_capacity := {[ "Quality Team 1" := 1 ]} |}.

(** C6, as stated, fails: while the primary has no schedule record the
    inspection gets -2000, which is not one less than the priority of the
    primary. *)
Lemma inspection_priority_without_placed_primary :
  exists p,
    fst (calculate_task_priority (fun _ => []) start_date recursion_limit
           (inspection_example false) "A_1") = Ok p
    /\ fst (calculate_task_priority (fun _ => []) start_date recursion_limit
              (inspection_example false) "A_QI_1") = Ok (inject_Z (-2000))
    /\ ~ (inject_Z (-2000) == p - 1)%Q.
Proof.
  eexists. split; [vm_compute; reflexivity |]. split; [vm_compute; reflexivity |].
  vm_compute. discriminate.
Qed.

Lemma quality_inspection_priority_witness :
  exists p st',
    calculate_task_priority (fun _ => []) start_date 0 (inspection_example true) "A_1"
      = (Ok p, st')
    /\ calculate_task_priority (fun _ => []) start_date 1 (inspection_example true)
         "A_QI_1" = (Ok (p - 1)%Q, st').
Proof.
  eexists. eexists. split; [vm_compute; reflexivity |].
  refine (quality_inspection_priority (fun _ => []) start_date 0
            (inspection_example true) _ "A_QI_1"
            {| primary_task := "A_1"; headcount := 1 |} _ _ _ _ _).
  - eexists. vm_compute. reflexivity.
  - cbn. apply not_elem_of_empty.
  - vm_compute. reflexivity.
  - vm_compute. reflexivity.
Defined.


Lemma scenario_reset_witness :
  _dynamic_constraints_cache
    (s2_self (s2_iteration (fun _ => []) start_date
                {| s2_self := inspection_example false;
                   mech_low := 1; mech_high := 100; qual_low := 1; qual_high := 50;
                   best := None |}))
  = Some [ {| First := "A_1"; Second := "A_QI_1"; Relationship := "Finish = Start" |} ].
Proof.
  apply (proj1 (proj2 (proj2 (scenario_reset_keeps_dependency_cache (fun _ => [])
                                start_date)))).
  reflexivity.
Defined.

(* ================================================================== *)
(** * Part III: further properties of the scheduler *)
(* ================================================================== *)

(** ** Relationship texts *)

Section StripFacts.

Lemma rstrip_idempotent (s : string) : PyStr.rstrip (PyStr.rstrip s) = PyStr.rstrip s.
Proof.
  induction s as [| c s IH]; [reflexivity |].
  cbn [PyStr.rstrip]. destruct (PyStr.rstrip s) as [| d r] eqn:Hr.
  - destruct (PyStr.is_space c) eqn:Hc; [reflexivity |].
    cbn [PyStr.rstrip]. rewrite Hc. reflexivity.
  - cbn [PyStr.rstrip]. cbn [PyStr.rstrip] in IH. rewrite IH. reflexivity.
Qed.

(** A text that does not begin with white space. *)
Definition no_leading_space (s : string) : Prop :=
  match s with
  | EmptyString => True
  | String c _ => PyStr.is_space c = false
  end.

Lemma lstrip_no_leading_space (s : string) : no_leading_space (PyStr.lstrip s).
Proof.
  induction s as [| c s IH]; [exact I |].
  cbn [PyStr.lstrip]. destruct (PyStr.is_space c) eqn:Hc; [exact IH | exact Hc].
Qed.

Lemma lstrip_fixed (s : string) : no_leading_space s -> PyStr.lstrip s = s.
Proof.
  destruct s as [| c s]; [reflexivity |]. simpl. intros ->. reflexivity.
Qed.

Lemma rstrip_no_leading_space (s : string) :
  no_leading_space s -> no_leading_space (PyStr.rstrip s).
Proof.
  destruct s as [| c s]; [intros _; exact I |].
  intros Hc. simpl in Hc. cbn [PyStr.rstrip].
  destruct (PyStr.rstrip s); [rewrite Hc |]; exact Hc.
Qed.

Lemma strip_idempotent (s : string) : PyStr.strip (PyStr.strip s) = PyStr.strip s.
Proof.
  unfold PyStr.strip.
  rewrite (lstrip_fixed (PyStr.rstrip (PyStr.lstrip s))).
  - apply rstrip_idempotent.
  - apply rstrip_no_leading_space, lstrip_no_leading_space.
Qed.

Lemma assoc_get_In {V : Type} (k : string) (d : list (string * V)) (v : V) :
  assoc_get k d = Some v -> In (k, v) d.
Proof.
  induction d as [| [k' v'] d IH]; [discriminate |]. simpl.
  destruct (String.eqb k k') eqn:E.
  - apply String.eqb_eq in E. intros [= <-]. left. congruence.
  - intros H. right. auto.
Qed.

End StripFacts.

(** X21: normalising a relationship twice gives what normalising it once
    gives, unless the first result is the empty text (which happens for
    a text of white space only, and then the second result is
    'Finish <= Start'). *)
Theorem normalize_relationship_idempotent (relationship : option string) :
  _normalize_relationship_type relationship <> "" ->
  _normalize_relationship_type (Some (_normalize_relationship_type relationship))
  = _normalize_relationship_type relationship.
Proof.
  destruct relationship as [r |]; [| intros _; reflexivity].
  destruct (String.eqb r "") eqn:E.
  { apply String.eqb_eq in E. subst r. intros _. reflexivity. }
  assert (Hr : r <> "") by (intros ->; discriminate).
  destruct (assoc_get (PyStr.strip r) mappings) as [v |] eqn:Hget.
  - rewrite (normalize_alias r v Hr Hget). intros _.
    apply assoc_get_In in Hget. simpl in Hget.
    repeat (destruct Hget as [Hget | Hget];
            [injection Hget as _ <-; reflexivity |]).
    destruct Hget.
  - rewrite (normalize_not_alias r Hr Hget). intros Hne.
    rewrite normalize_not_alias; [apply strip_idempotent | exact Hne |].
    rewrite strip_idempotent. exact Hget.
Qed.

Lemma normalize_relationship_idempotent_witness :
  _normalize_relationship_type (Some (_normalize_relationship_type (Some " F-S ")))
  = _normalize_relationship_type (Some " F-S ").
Proof.
  apply normalize_relationship_idempotent. vm_compute. discriminate.
Defined.

(** X22: whatever the relationship, when both tasks are placed the
    earliest start and end that [check_constraint_satisfied] suggests
    for the second task are exactly its duration apart. *)
Theorem suggested_window_has_task_length
    (first_schedule second_schedule : sched_rec) (relationship : option string) :
  exists earliest_start earliest_end,
    snd (fst (check_constraint_satisfied (Some first_schedule) (Some second_schedule)
                relationship)) = Some earliest_start
    /\ snd (check_constraint_satisfied (Some first_schedule) (Some second_schedule)
              relationship) = Some earliest_end
    /\ earliest_end
       = earliest_start + DateTime.minutes (rec_duration second_schedule).
Proof.
  unfold check_constraint_satisfied.
  repeat match goal with
         | |- context [String.eqb ?a ?b] => destruct (String.eqb a b)
         end;
    cbn [fst snd]; eexists; eexists; (split; [reflexivity |]);
    (split; [reflexivity |]); lia.
Qed.

(** ** The slot search is complete: what it skips is infeasible *)

Section SlotSearchComplete.

Variable st : scheduler.
Variables (current_time : Z) (product_line : option string) (team : string).
Variables (mechanics_needed duration : Z) (is_quality is_customer : bool).

Local Abbreviation accepted :=
  (accepted_in_shift st current_time team mechanics_needed duration is_quality
                     is_customer).
Local Abbreviation feasible :=
  (feasible_slot st current_time product_line team mechanics_needed duration
                 is_quality is_customer).
Local Abbreviation shifts_today :=
  (search_shifts st current_time team mechanics_needed duration is_quality is_customer).
Local Abbreviation days_from :=
  (search_days st current_time product_line team mechanics_needed duration
               is_quality is_customer).

(** A shift that the loop over the shifts passes over has no accepted
    candidate. *)
Lemma search_shifts_skips (days_ahead : Z) (shifts : list string)
    (r : option (Z * string)) :
  shifts_today days_ahead (check_date_at current_time days_ahead) shifts = Ok r ->
  exists passed rest,
    shifts = (passed ++ rest)%list
    /\ (forall s start, In s passed -> ~ accepted days_ahead s start)
    /\ match r with
       | None => rest = []
       | Some (start, shift) =>
           exists rest', rest = shift :: rest' /\ accepted days_ahead shift start
       end.
Proof.
  revert r. induction shifts as [| s shifts IH]; intros r; simpl.
  - intros [= <-]. exists [], []. repeat split. intros s start [].
  - assert (Hskip : forall r',
      shifts_today days_ahead (check_date_at current_time days_ahead) shifts = Ok r' ->
      (forall start, ~ accepted days_ahead s start) ->
      exists passed rest,
        s :: shifts = (passed ++ rest)%list
        /\ (forall s' start, In s' passed -> ~ accepted days_ahead s' start)
        /\ match r' with
           | None => rest = []
           | Some (start, shift) =>
               exists rest', rest = shift :: rest' /\ accepted days_ahead shift start
           end).
    { intros r' Hr' Hnot. destruct (IH r' Hr') as (passed & rest & -> & Hp & Hr).
      exists (s :: passed), rest. split; [reflexivity |]. split; [| exact Hr].
      intros s' start [<- | Hin]; [apply Hnot | apply Hp; exact Hin]. }
    unfold accepted_in_shift, shift_window in *.
    destruct (shift_hours st !! s) as [info |] eqn:Hinfo.
    + destruct (shift_bounds current_time days_ahead _ s info) as [[ws we] |] eqn:Hb;
        simpl; [| discriminate].
      destruct (we <=? current_time) eqn:Hend.
      { intros Hr. apply Hskip; [exact Hr |].
        intros start (ws' & we' & [= <- <-] & Hlt & _). lia. }
      destruct (we <? round_up_15 (Z.max ws current_time) + DateTime.minutes duration)
        eqn:Hfit.
      { intros Hr. apply Hskip; [exact Hr |].
        intros start (ws' & we' & [= <- <-] & _ & -> & Hle & _). lia. }
      destruct (mechanics_needed <=? _) eqn:Hcap.
      * intros [= <-]. exists [], (s :: shifts). split; [reflexivity |].
        split; [intros s' start [] |].
        exists shifts. split; [reflexivity |].
        rewrite Hinfo, Hb. exists ws, we. repeat split; lia.
      * intros Hr. apply Hskip; [exact Hr |].
        intros start (ws' & we' & [= <- <-] & _ & -> & _ & Hle). lia.
    + intros Hr. apply Hskip; [exact Hr |].
      intros start (ws' & we' & Hw & _). discriminate Hw.
Qed.

(** The days that the loop over the days passes over have no feasible
    slot. *)
Lemma search_days_skips (n : nat) :
  forall (first_day : Z) (r : option (Z * string)),
    days_from (seqZ first_day (Z.of_nat n)) = Ok r ->
    match r with
    | None =>
        forall d s start, first_day <= d < first_day + Z.of_nat n ->
                          ~ (is_working_day st (check_date_at current_time d) product_line
                             = true
                             /\ In s (shifts_for st team is_quality is_customer)
                             /\ accepted d s start)
    | Some (start, shift) =>
        exists d passed rest,
          first_day <= d < first_day + Z.of_nat n
          /\ is_working_day st (check_date_at current_time d) product_line = true
          /\ shifts_for st team is_quality is_customer = (passed ++ shift :: rest)%list
          /\ (forall s c, In s passed -> ~ accepted d s c)
          /\ accepted d shift start
          /\ forall d' s' c', first_day <= d' < d ->
               ~ (is_working_day st (check_date_at current_time d') product_line = true
                  /\ In s' (shifts_for st team is_quality is_customer)
                  /\ accepted d' s' c')
    end.
Proof.
  induction n as [| n IH]; intros first_day r.
  - simpl. intros [= <-]. intros d s start Hd. lia.
  - rewrite seqZ_cons by lia.
    replace (Z.pred (Z.of_nat (S n))) with (Z.of_nat n) by lia.
    cbn [search_days].
    fold (check_date_at current_time first_day).
    assert (Hrest : forall r',
      days_from (seqZ (Z.succ first_day) (Z.of_nat n)) = Ok r' ->
      (forall s start,
         ~ (is_working_day st (check_date_at current_time first_day) product_line = true
            /\ In s (shifts_for st team is_quality is_customer)
            /\ accepted first_day s start)) ->
      match r' with
      | None =>
          forall d s start, first_day <= d < first_day + Z.of_nat (S n) ->
            ~ (is_working_day st (check_date_at current_time d) product_line = true
               /\ In s (shifts_for st team is_quality is_customer)
               /\ accepted d s start)
      | Some (start, shift) =>
          exists d passed rest,
            first_day <= d < first_day + Z.of_nat (S n)
            /\ is_working_day st (check_date_at current_time d) product_line = true
            /\ shifts_for st team is_quality is_customer = (passed ++ shift :: rest)%list
            /\ (forall s c, In s passed -> ~ accepted d s c)
            /\ accepted d shift start
            /\ forall d' s' c', first_day <= d' < d ->
                 ~ (is_working_day st (check_date_at current_time d') product_line = true
                    /\ In s' (shifts_for st team is_quality is_customer)
                    /\ accepted d' s' c')
      end).
    { intros r' Hr' Hnot. specialize (IH _ _ Hr'). destruct r' as [[start shift] |].
      - destruct IH as (d & passed & rest & Hd & Hw & Hs & Hp & Ha & Hmin).
        exists d, passed, rest. repeat split; auto; try lia.
        intros d' s' c' Hd'. destruct (decide (d' = first_day)) as [-> | Hne].
        + apply Hnot.
        + apply Hmin. lia.
      - intros d s start Hd. destruct (decide (d = first_day)) as [-> | Hne].
        + apply Hnot.
        + apply IH. lia. }
    destruct (is_working_day st (check_date_at current_time first_day) product_line)
      eqn:Hw; cbn [negb].
    + destruct (shifts_today first_day (check_date_at current_time first_day)
                  (shifts_for st team is_quality is_customer))
        as [[[start shift] |] |] eqn:Hs.
      * intros [= <-].
        destruct (search_shifts_skips _ _ _ Hs)
          as (passed & rest & Hsplit & Hp & rest' & -> & Ha).
        exists first_day, passed, rest'. repeat split; auto; lia.
      * destruct (search_shifts_skips _ _ _ Hs) as (passed & rest & Hsplit & Hp & ->).
        rewrite app_nil_r in Hsplit.
        intros Hr. apply Hrest; [exact Hr |].
        intros s start (_ & Hin & Ha). rewrite Hsplit in Hin. exact (Hp s start Hin Ha).
      * discriminate.
    + intros Hr. apply Hrest; [exact Hr |].
      intros s start (Hw' & _). discriminate Hw'.
Qed.

End SlotSearchComplete.

(** X2: the slot that [get_next_working_time_with_capacity] returns is on
    the first day, among the 30 it looks at, that has a feasible slot,
    and in the first shift of the team's list with an accepted candidate
    on that day. *)
Theorem next_working_time_is_first_feasible
    (st : scheduler) (current_time : Z) (product_line : option string) (team : string)
    (mechanics_needed duration : Z) (is_quality is_customer : bool)
    (start : Z) (shift_name : string) :
  get_next_working_time_with_capacity st current_time product_line team
    mechanics_needed duration is_quality is_customer = Ok (Some (start, shift_name)) ->
  exists days_ahead passed rest,
    feasible_slot st current_time product_line team mechanics_needed duration
                  is_quality is_customer days_ahead shift_name start
    /\ shifts_for st team is_quality is_customer = (passed ++ shift_name :: rest)%list
    /\ (forall s c, In s passed ->
          ~ accepted_in_shift st current_time team mechanics_needed duration
                              is_quality is_customer days_ahead s c)
    /\ forall d s c, 0 <= d < days_ahead ->
         ~ feasible_slot st current_time product_line team mechanics_needed duration
                         is_quality is_customer d s c.
Proof.
  unfold get_next_working_time_with_capacity.
  destruct (_ || _); [discriminate |].
  intros H. apply (search_days_skips _ _ _ _ _ _ _ _ 30 0) in H.
  destruct H as (d & passed & rest & Hd & Hw & Hs & Hp & Ha & Hmin).
  exists d, passed, rest. split; [| split; [exact Hs | split; [exact Hp |]]].
  - unfold feasible_slot. repeat split; auto; try lia.
    rewrite Hs. apply in_elt.
  - intros d' s c Hd' (_ & Hw' & Hin & Ha'). apply (Hmin d' s c); [lia | auto].
Qed.

(** X3: when the team has the headcount that the task needs, the answer
    (None, None) means that no day among the 30 has a feasible slot. *)
Theorem next_working_time_none_is_infeasible
    (st : scheduler) (current_time : Z) (product_line : option string) (team : string)
    (mechanics_needed duration : Z) (is_quality is_customer : bool) :
  capacity_for st team is_quality is_customer <> 0 ->
  mechanics_needed <= capacity_for st team is_quality is_customer ->
  get_next_working_time_with_capacity st current_time product_line team
    mechanics_needed duration is_quality is_customer = Ok None ->
  forall d s c,
    ~ feasible_slot st current_time product_line team mechanics_needed duration
                    is_quality is_customer d s c.
Proof.
  intros Hcap Hneed. unfold get_next_working_time_with_capacity.
  destruct (_ =? 0) eqn:H0; [lia |].
  destruct (_ <? mechanics_needed) eqn:H1; [lia |]. cbn [orb].
  intros H. apply (search_days_skips _ _ _ _ _ _ _ _ 30 0) in H.
  intros d s c (Hd & Hw & Hin & Ha). apply (H d s c); [lia | auto].
Qed.

Lemma next_working_time_is_first_feasible_witness :
  exists days_ahead,
    feasible_slot late_part_example (DateTime.make 739486 6 0) (Some "Product A")
                  "Mechanic Team 1" 1 60 false false days_ahead "1st"
                  (DateTime.make 739488 6 0)
    /\ forall d s c, 0 <= d < days_ahead ->
         ~ feasible_slot late_part_example (DateTime.make 739486 6 0) (Some "Product A")
                         "Mechanic Team 1" 1 60 false false d s c.
Proof.
  destruct (next_working_time_is_first_feasible late_part_example
              (DateTime.make 739486 6 0) (Some "Product A") "Mechanic Team 1"
              1 60 false false (DateTime.make 739488 6 0) "1st")
    as (d & passed & rest & Hf & _ & _ & Hmin).
  - vm_compute. reflexivity.
  - exists d. split; assumption.
Defined.

Lemma next_working_time_none_is_infeasible_witness :
  get_next_working_time_with_capacity late_part_example start_date
    (Some "Product A") "Mechanic Team 1" 1 600 false false = Ok None
  /\ ~ feasible_slot late_part_example start_date (Some "Product A")
                     "Mechanic Team 1" 1 600 false false 3 "1st"
                     (DateTime.make 739488 6 0).
Proof.
  split; [vm_compute; reflexivity |].
  apply next_working_time_none_is_infeasible.
  - vm_compute. discriminate.
  - vm_compute. discriminate.
  - vm_compute. reflexivity.
Defined.

(** ** The validation of the dependency graph ([validate_dag]) *)

Section DagFacts.

Variable graph : string -> list string.

Definition edge (a b : string) : Prop := In b (graph a).

(** A set of nodes that is closed under the successors and through which
    no cycle runs. *)
Definition settled (D : gset string) : Prop :=
  (forall v w, v ∈ D -> edge v w -> w ∈ D)
  /\ (forall v, v ∈ D -> ~ tc edge v v).

Lemma settled_equiv (D D' : gset string) :
  (forall x, x ∈ D <-> x ∈ D') -> settled D -> settled D'.
Proof.
  intros Heq [Hc Ha]. split.
  - intros v w Hv Hvw. apply Heq. apply (Hc v); [apply Heq; exact Hv | exact Hvw].
  - intros v Hv. apply Ha. apply Heq. exact Hv.
Qed.

Lemma settled_reach (D : gset string) (v w : string) :
  settled D -> v ∈ D -> rtc edge v w -> w ∈ D.
Proof.
  intros [Hc _] Hv Hr. induction Hr as [| x y z Hxy _ IH]; [exact Hv |].
  apply IH. apply (Hc x); assumption.
Qed.

Lemma settled_add (D : gset string) (node : string) :
  settled D -> node ∉ D -> (forall w, edge node w -> w ∈ D) ->
  settled ({[node]} ∪ D).
Proof.
  intros HD Hnot Hsucc. split.
  - intros v w Hv Hvw. apply elem_of_union in Hv as [Hv | Hv].
    + apply elem_of_singleton in Hv as ->. apply elem_of_union_r. auto.
    + apply elem_of_union_r. apply (proj1 HD v); assumption.
  - intros v Hv Hcyc. apply elem_of_union in Hv as [Hv | Hv].
    + apply elem_of_singleton in Hv as ->.
      assert (Hin : exists w, edge node w /\ rtc edge w node).
      { inversion Hcyc as [x y H | x y z H Ht]; subst.
        - exists node. split; [exact H | apply rtc_refl].
        - exists y. split; [exact H | apply tc_rtc; exact Ht]. }
      destruct Hin as (w & Hw & Hr).
      apply Hnot. eapply settled_reach; [exact HD | apply Hsucc; exact Hw | exact Hr].
    + exact (proj2 HD v Hv Hcyc).
Qed.

Definition dfs_step (f : nat) (rec_stack : gset string)
    (acc : res (bool * gset string)) (neighbor : string) : res (bool * gset string) :=
  match acc with
  | Ok (false, visited) =>
      if negb (bool_decide (neighbor ∈ visited))
      then has_cycle_dfs f graph neighbor visited rec_stack
      else if bool_decide (neighbor ∈ rec_stack) then Ok (true, visited)
      else acc
  | _ => acc
  end.

Lemma dfs_step_stuck (f : nat) (R : gset string) (l : list string)
    (acc : res (bool * gset string)) :
  (forall v, acc <> Ok (false, v)) -> fold_left (dfs_step f R) l acc = acc.
Proof.
  intros H. induction l as [| w l IH]; [reflexivity |]. simpl.
  replace (dfs_step f R acc w) with acc; [exact IH |].
  destruct acc as [[[] v] |]; try reflexivity. exfalso. exact (H v eq_refl).
Qed.

Lemma has_cycle_dfs_unfold (f : nat) (node : string) (visited rec_stack : gset string) :
  has_cycle_dfs (S f) graph node visited rec_stack
  = fold_left (dfs_step f ({[node]} ∪ rec_stack)) (graph node)
              (Ok (false, {[node]} ∪ visited)).
Proof. reflexivity. Qed.

Lemma has_cycle_dfs_settles (fuel : nat) :
  forall (node : string) (visited rec_stack visited' : gset string),
    has_cycle_dfs fuel graph node visited rec_stack = Ok (false, visited') ->
    node ∉ visited -> rec_stack ⊆ visited -> settled (visited ∖ rec_stack) ->
    visited ⊆ visited' /\ node ∈ visited' /\ settled (visited' ∖ rec_stack).
Proof.
  induction fuel as [| f IH]; intros node visited rec_stack visited' Hrun Hnew Hsub Hset;
    [discriminate |].
  rewrite has_cycle_dfs_unfold in Hrun.
  set (R := {[node]} ∪ rec_stack) in *.
  assert (Hloop : forall l av,
    fold_left (dfs_step f R) l (Ok (false, av)) = Ok (false, visited') ->
    R ⊆ av -> settled (av ∖ R) ->
    av ⊆ visited' /\ settled (visited' ∖ R)
    /\ forall w, In w l -> w ∈ visited' ∖ R).
  { induction l as [| w l IHl]; intros av Hfold HR Hav.
    - simpl in Hfold. injection Hfold as <-.
      split; [set_solver |]. split; [exact Hav |]. intros w [].
    - cbn [fold_left] in Hfold.
      assert (Hstep : dfs_step f R (Ok (false, av)) w
                = if negb (bool_decide (w ∈ av)) then has_cycle_dfs f graph w av R
                  else if bool_decide (w ∈ R) then Ok (true, av) else Ok (false, av))
        by reflexivity.
      rewrite Hstep in Hfold. clear Hstep.
      destruct (bool_decide (w ∈ av)) eqn:Hwav; cbn [negb] in Hfold.
      + apply bool_decide_eq_true in Hwav.
        destruct (bool_decide (w ∈ R)) eqn:HwR.
        * rewrite dfs_step_stuck in Hfold by discriminate. discriminate.
        * apply bool_decide_eq_false in HwR.
          destruct (IHl av Hfold HR Hav) as (Hsub' & Hset' & Hall).
          split; [exact Hsub' |]. split; [exact Hset' |].
          intros w' [<- | Hin]; [| auto]. set_solver.
      + apply bool_decide_eq_false in Hwav.
        destruct (has_cycle_dfs f graph w av R) as [[[] av2] |] eqn:Hrec.
        * rewrite dfs_step_stuck in Hfold by discriminate. discriminate.
        * destruct (IH w av R av2 Hrec Hwav HR Hav) as (H1 & H2 & H3).
          assert (HR2 : R ⊆ av2) by set_solver.
          destruct (IHl av2 Hfold HR2 H3) as (Hsub' & Hset' & Hall).
          split; [set_solver |]. split; [exact Hset' |].
          intros w' [<- | Hin]; [| auto]. set_solver.
        * rewrite dfs_step_stuck in Hfold by discriminate. discriminate. }
  destruct (Hloop (graph node) ({[node]} ∪ visited) Hrun) as (H1 & H2 & H3).
  - unfold R. set_solver.
  - eapply settled_equiv; [| exact Hset]. unfold R. set_solver.
  - split; [set_solver |]. split; [set_solver |].
    eapply settled_equiv; [| apply (settled_add (visited' ∖ R) node H2)].
    + intros x. unfold R.
      destruct (decide (x = node)) as [-> | Hne]; set_solver.
    + unfold R. set_solver.
    + intros w Hw. apply H3. exact Hw.
Qed.

Local Opaque recursion_limit.

(** The loop of [validate_dag] over the nodes. *)
Definition search_step (acc : res (bool * gset string)) (node : string)
    : res (bool * gset string) :=
  match acc with
  | Ok (false, visited) =>
      if negb (bool_decide (node ∈ visited))
      then has_cycle_dfs recursion_limit graph node visited ∅
      else acc
  | _ => acc
  end.

Lemma search_step_stuck (l : list string) (acc : res (bool * gset string)) :
  (forall v, acc <> Ok (false, v)) -> fold_left search_step l acc = acc.
Proof.
  intros H. induction l as [| w l IH]; [reflexivity |]. simpl.
  replace (search_step acc w) with acc; [exact IH |].
  destruct acc as [[[] v] |]; try reflexivity. exfalso. exact (H v eq_refl).
Qed.

Lemma search_settles (l : list string) :
  forall visited visited',
    fold_left search_step l (Ok (false, visited)) = Ok (false, visited') ->
    settled visited ->
    settled visited' /\ forall node, In node l -> node ∈ visited'.
Proof.
  induction l as [| node l IH]; intros visited visited' Hfold Hset.
  - simpl in Hfold. injection Hfold as <-. split; [exact Hset | intros node []].
  - cbn [fold_left] in Hfold.
    assert (Hstep : search_step (Ok (false, visited)) node
              = if negb (bool_decide (node ∈ visited))
                then has_cycle_dfs recursion_limit graph node visited ∅
                else Ok (false, visited)) by reflexivity.
    rewrite Hstep in Hfold. clear Hstep.
    assert (Hmono : forall v1 v2, fold_left search_step l (Ok (false, v1)) = Ok (false, v2) ->
                                  settled v1 -> v1 ⊆ v2).
    { clear. induction l as [| n l IHl]; intros v1 v2 Hf Hs.
      - simpl in Hf. injection Hf as <-. set_solver.
      - cbn [fold_left] in Hf.
        assert (Hstep : search_step (Ok (false, v1)) n
                  = if negb (bool_decide (n ∈ v1))
                    then has_cycle_dfs recursion_limit graph n v1 ∅
                    else Ok (false, v1)) by reflexivity.
        rewrite Hstep in Hf. clear Hstep.
        destruct (bool_decide (n ∈ v1)) eqn:Hn; cbn [negb] in Hf.
        + apply IHl; assumption.
        + apply bool_decide_eq_false in Hn.
          destruct (has_cycle_dfs recursion_limit graph n v1 ∅) as [[[] v3] |] eqn:Hrec;
            try (rewrite search_step_stuck in Hf by discriminate; discriminate).
          destruct (has_cycle_dfs_settles _ _ _ _ _ Hrec Hn) as (H1 & H2 & H3);
            [set_solver | eapply settled_equiv; [| exact Hs]; set_solver |].
          assert (settled v3) by (eapply settled_equiv; [| exact H3]; set_solver).
          specialize (IHl v3 v2 Hf H). set_solver. }
    destruct (bool_decide (node ∈ visited)) eqn:Hn; cbn [negb] in Hfold.
    + apply bool_decide_eq_true in Hn.
      destruct (IH visited visited' Hfold Hset) as [Hs Hall].
      split; [exact Hs |]. intros n [<- | Hin]; [| auto].
      apply (Hmono visited visited' Hfold Hset). exact Hn.
    + apply bool_decide_eq_false in Hn.
      destruct (has_cycle_dfs recursion_limit graph node visited ∅) as [[[] v3] |] eqn:Hrec;
        try (rewrite search_step_stuck in Hfold by discriminate; discriminate).
      destruct (has_cycle_dfs_settles _ _ _ _ _ Hrec Hn) as (H1 & H2 & H3);
        [set_solver | eapply settled_equiv; [| exact Hset]; set_solver |].
      assert (Hs3 : settled v3) by (eapply settled_equiv; [| exact H3]; set_solver).
      destruct (IH v3 visited' Hfold Hs3) as [Hs Hall].
      split; [exact Hs |]. intros n [<- | Hin]; [| auto].
      apply (Hmono v3 visited' Hfold Hs3). exact H2.
Qed.

End DagFacts.

Section ValidateDag.

Local Opaque recursion_limit.

Variable compose_dynamic_constraints : scheduler -> list constraint.

(** A precedence edge of the constraint list: the relationships that
    [validate_dag] puts into its graph. *)
Definition precedence_edge (cs : list constraint) (a b : string) : Prop :=
  exists c, In c cs /\ First c = a /\ Second c = b
            /\ (Relationship c = "Finish <= Start" \/ Relationship c = "Finish = Start").

Definition precedence_graph (cs : list constraint) (node : string) : list string :=
  remove_dups
    (Second <$> List.filter
       (fun c => String.eqb (First c) node
                 && (String.eqb (Relationship c) "Finish <= Start"
                     || String.eqb (Relationship c) "Finish = Start"))
       cs).

Lemma precedence_graph_edge (cs : list constraint) (a b : string) :
  edge (precedence_graph cs) a b <-> precedence_edge cs a b.
Proof.
  unfold edge, precedence_graph, precedence_edge.
  rewrite <- list_elem_of_In, elem_of_remove_dups, list_elem_of_fmap.
  split.
  - intros (c & -> & Hc). apply list_elem_of_In, filter_In in Hc as [Hin Hf].
    apply andb_true_iff in Hf as [Hfirst Hrel].
    apply String.eqb_eq in Hfirst. apply orb_true_iff in Hrel.
    exists c. repeat split; auto.
    destruct Hrel as [H | H]; apply String.eqb_eq in H; auto.
  - intros (c & Hin & <- & <- & Hrel). exists c. split; [reflexivity |].
    apply list_elem_of_In, filter_In. split; [exact Hin |].
    apply andb_true_iff. split; [apply String.eqb_refl |].
    apply orb_true_iff. destruct Hrel as [-> | ->]; [left | right]; reflexivity.
Qed.

Lemma filter_nil_none {A : Type} (f : A -> bool) (l : list A) :
  List.filter f l = [] -> forall x, In x l -> f x = false.
Proof.
  induction l as [| a l IH]; intros H x Hin; [destruct Hin |].
  simpl in H. destruct (f a) eqn:Hfa; [discriminate |].
  destruct Hin as [<- | Hin]; auto.
Qed.

Lemma tc_edge_iff (R R' : string -> string -> Prop) :
  (forall a b, R a b -> R' a b) -> forall a b, tc R a b -> tc R' a b.
Proof.
  intros H a b Ht. induction Ht as [x y Hxy | x y z Hxy _ IH].
  - apply tc_once. auto.
  - eapply tc_l; eauto.
Qed.

(** X1: [validate_dag] answers True only when every task named in a
    constraint is defined and no cycle runs through the
    'Finish <= Start' and 'Finish = Start' constraints. *)
Theorem validate_dag_accepts_only_acyclic (st st' : scheduler) :
  validate_dag compose_dynamic_constraints st = (Ok true, st') ->
  let cs := fst (build_dynamic_dependencies compose_dynamic_constraints st) in
  (forall c, In c cs ->
     is_Some (tasks st !! First c) /\ is_Some (tasks st !! Second c))
  /\ forall id, ~ tc (precedence_edge cs) id id.
Proof.
  unfold validate_dag.
  destruct (build_dynamic_dependencies compose_dynamic_constraints st)
    as [cs st1] eqn:Hb.
  assert (Htasks : tasks st1 = tasks st).
  { unfold build_dynamic_dependencies in Hb.
    destruct (_dynamic_constraints_cache st); injection Hb as <- <-; reflexivity. }
  cbn [fst].
  fold (precedence_graph cs).
  set (all := remove_dups (flat_map (fun c => [First c; Second c]) cs)).
  destruct (List.filter _ all) as [| missing others] eqn:Hmissing; [| discriminate].
  pose proof (filter_nil_none _ _ Hmissing) as Hknown.
  assert (Hall : forall c, In c cs -> In (First c) all /\ In (Second c) all).
  { intros c Hc. unfold all.
    split; apply list_elem_of_In, elem_of_remove_dups, list_elem_of_In, in_flat_map;
      exists c; (split; [exact Hc |]); simpl; auto. }
  fold (search_step (precedence_graph cs)).
  destruct (fold_left _ all _) as [[found visited] |] eqn:Hsearch; [| discriminate].
  destruct found; [discriminate |]. intros _.
  split.
  - intros c Hc. destruct (Hall c Hc) as [H1 H2].
    apply Hknown in H1. apply Hknown in H2.
    apply negb_false_iff, bool_decide_eq_true in H1.
    apply negb_false_iff, bool_decide_eq_true in H2.
    rewrite Htasks in H1, H2. auto.
  - intros id Hcyc.
    destruct (search_settles (precedence_graph cs) all ∅ visited Hsearch) as [Hset Hin].
    { split; intros v; set_solver. }
    assert (Hcyc' : tc (edge (precedence_graph cs)) id id).
    { eapply tc_edge_iff; [| exact Hcyc]. intros a b. apply precedence_graph_edge. }
    assert (Hid : id ∈ visited).
    { apply Hin.
      assert (Hout : exists w, precedence_edge cs id w).
      { inversion Hcyc as [x y H | x y z H Ht]; subst; eauto. }
      destruct Hout as (w & c & Hc & <- & _). apply Hall. exact Hc. }
    exact (proj2 Hset id Hid Hcyc').
Qed.

End ValidateDag.

Lemma validate_dag_accepts_only_acyclic_witness :
  validate_dag customer_example_constraints customer_example
    = (Ok true,
       snd (build_dynamic_dependencies customer_example_constraints customer_example))
  /\ ~ tc (precedence_edge
             (fst (build_dynamic_dependencies customer_example_constraints
                     customer_example))) "A_1" "A_1".
Proof.
  split; [vm_compute; reflexivity |].
  refine (proj2 (validate_dag_accepts_only_acyclic customer_example_constraints
                   customer_example _ _) "A_1").
  vm_compute. reflexivity.
Defined.

(** ** The records that a run of the engine writes *)

Section RunRecords.

Variable compose_dynamic_constraints : scheduler -> list constraint.
Variable now : Z.

(** An invariant of the engine steps holds after a run when it holds
    for the cleared object. *)
Lemma engine_steps_invariant (P : scheduler -> Prop) (cs : list constraint) :
  (forall st st', engine_step cs st st' -> P st -> P st') ->
  forall st st', engine_steps cs st st' -> P st -> P st'.
Proof.
  intros Hstep st st' Hrun. induction Hrun as [| x y z Hxy _ IH]; [auto |].
  intros Hx. apply IH. eapply Hstep; eauto.
Qed.

(** The record of [id] carries the data of the task [id]. *)
Definition describes (info : task_info) (rec : sched_rec) : Prop :=
  end_time rec = start_time rec + DateTime.minutes (duration info)
  /\ rec_duration rec = duration info
  /\ rec_mechanics_required rec = mechanics_required info
  /\ rec_is_quality rec = is_quality info
  /\ rec_is_customer rec = is_customer info
  /\ rec_product rec = product info
  /\ rec_skill rec = skill info
  /\ rec_task_type rec = task_type info.

Definition records_describe_tasks (st : scheduler) : Prop :=
  forall id rec, task_schedule st !! id = Some rec ->
    exists info, tasks st !! id = Some info /\ describes info rec.

Lemma describes_with_team (t : option string) (info : task_info) (rec : sched_rec) :
  describes info rec -> describes (with_team t info) rec.
Proof. exact (fun H => H). Qed.

Lemma records_describe_tasks_step (cs : list constraint) (st st' : scheduler) :
  engine_step cs st st' -> records_describe_tasks st -> records_describe_tasks st'.
Proof.
  intros Hstep. destruct Hstep
    as [st st' Hc | st id info t Hinfo
        | st id info start shift_name team_for_schedule base_team Hinfo Hget Hyear].
  - destruct Hc as [Hc _]. rewrite Hc. exact (fun H => H).
  - intros Hinv id' rec Hrec. cbn in Hrec.
    destruct (Hinv id' rec Hrec) as (info' & Hinfo' & Hd).
    cbn [tasks set_tasks]. rewrite lookup_insert. case_decide.
    + subst id'. rewrite Hinfo in Hinfo'. injection Hinfo' as <-.
      exists (with_team t info). split; [reflexivity | exact Hd].
    + exists info'. split; assumption.
  - intros Hinv id' rec. cbn [task_schedule set_task_schedule tasks].
    rewrite lookup_insert. case_decide.
    + subst id'. intros [= <-]. exists info. split; [exact Hinfo |].
      unfold describes. simpl. repeat split.
    + apply Hinv.
Qed.

(** The start of every record is on a quarter-hour mark. *)
Definition starts_on_quarter_hours (st : scheduler) : Prop :=
  forall id rec, task_schedule st !! id = Some rec ->
    DateTime.minute (start_time rec) mod 15 = 0.

Lemma minute_replace_minute (t m : Z) :
  0 <= m < 60 -> DateTime.minute (DateTime.replace_minute t m) = m.
Proof.
  intros Hm. unfold DateTime.replace_minute.
  pose proof (minute_range t) as Hr. pose proof (minute_floor t) as Hf.
  set (k := DateTime.minute t) in *.
  assert (Hlt : t mod DateTime.us_per_hour < (k + 1) * DateTime.us_per_minute).
  { unfold k, DateTime.minute, DateTime.us_per_hour, DateTime.us_per_minute.
    pose proof (Z.mod_pos_bound t 3600000000 ltac:(lia)).
    pose proof (Z.div_mod (t mod 3600000000) 60000000 ltac:(lia)).
    pose proof (Z.mod_pos_bound (t mod 3600000000) 60000000 ltac:(lia)). lia. }
  unfold DateTime.minute.
  pose proof (Z.div_mod t DateTime.us_per_hour
                ltac:(unfold DateTime.us_per_hour; lia)) as Ht.
  set (r := t mod DateTime.us_per_hour) in *.
  set (q := t / DateTime.us_per_hour) in *.
  replace (t - k * DateTime.us_per_minute + m * DateTime.us_per_minute)
    with ((r - k * DateTime.us_per_minute + m * DateTime.us_per_minute)
          + q * DateTime.us_per_hour) by lia.
  rewrite Z.mod_add by (unfold DateTime.us_per_hour; lia).
  unfold DateTime.us_per_hour, DateTime.us_per_minute in *.
  rewrite Z.mod_small by lia.
  symmetry. apply Z.div_unique with (r := r - k * 60000000); lia.
Qed.

Lemma minute_plus_hour (t : Z) :
  DateTime.minute (t + DateTime.hours 1) = DateTime.minute t.
Proof.
  unfold DateTime.minute, DateTime.hours.
  replace (t + 1 * DateTime.us_per_hour) with (t + 1 * DateTime.us_per_hour) by lia.
  rewrite Z.mod_add by (unfold DateTime.us_per_hour; lia). reflexivity.
Qed.

Lemma round_up_15_minute (t : Z) : DateTime.minute (round_up_15 t) mod 15 = 0.
Proof.
  unfold round_up_15.
  pose proof (minute_range t) as Hr.
  destruct (DateTime.minute t mod 15 =? 0) eqn:E; cbn [negb].
  - apply Z.eqb_eq in E. exact E.
  - set (m := DateTime.minute t) in *.
    destruct (60 <=? (m / 15 + 1) * 15) eqn:E60.
    + rewrite minute_plus_hour, minute_replace_minute by lia. reflexivity.
    + rewrite minute_replace_minute.
      * apply Z.mod_mul. lia.
      * pose proof (Z.div_pos m 15 ltac:(lia) ltac:(lia)). lia.
Qed.

Lemma round_up_15_lt (t : Z) : round_up_15 t < t + DateTime.minutes 15.
Proof.
  unfold round_up_15.
  pose proof (minute_range t) as Hr.
  destruct (DateTime.minute t mod 15 =? 0) eqn:E; cbn [negb].
  - unfold DateTime.minutes, DateTime.us_per_minute. lia.
  - set (m := DateTime.minute t) in *.
    pose proof (Z.div_mod m 15 ltac:(lia)) as Hdm.
    pose proof (Z.mod_pos_bound m 15 ltac:(lia)) as Hmb.
    apply Z.eqb_neq in E.
    destruct (60 <=? (m / 15 + 1) * 15) eqn:E60.
    + unfold DateTime.replace_minute, DateTime.hours, DateTime.minutes. fold m.
      unfold DateTime.us_per_hour, DateTime.us_per_minute. lia.
    + unfold DateTime.replace_minute, DateTime.minutes. fold m.
      unfold DateTime.us_per_minute. lia.
Qed.

Lemma starts_on_quarter_hours_step (cs : list constraint) (st st' : scheduler) :
  engine_step cs st st' -> starts_on_quarter_hours st -> starts_on_quarter_hours st'.
Proof.
  intros Hstep. destruct Hstep
    as [st st' Hc | st id info t Hinfo
        | st id info start shift_name team_for_schedule base_team Hinfo Hget Hyear].
  - destruct Hc as [Hc _]. rewrite Hc. exact (fun H => H).
  - exact (fun H => H).
  - intros Hinv id' rec. cbn [task_schedule set_task_schedule].
    rewrite lookup_insert. case_decide.
    + subst id'. intros [= <-]. simpl.
      destruct (get_next_sound _ _ _ _ _ _ _ _ _ _ Hget)
        as (d & _ & _ & _ & ws & we & _ & _ & -> & _).
      apply round_up_15_minute.
    + apply Hinv.
Qed.

(** The record lies inside the window of its shift on a working day of
    its product. *)
Definition in_one_shift (st : scheduler) (rec : sched_rec) : Prop :=
  exists requested days_ahead ws we,
    0 <= days_ahead < 30
    /\ is_working_day st (check_date_at requested days_ahead) (rec_product rec) = true
    /\ shift_window st requested days_ahead (shift rec) = Some (ws, we)
    /\ ws <= start_time rec
    /\ end_time rec <= we.

Definition records_in_one_shift (st : scheduler) : Prop :=
  forall id rec, task_schedule st !! id = Some rec -> in_one_shift st rec.

Lemma records_in_one_shift_step (cs : list constraint) (st st' : scheduler) :
  engine_step cs st st' -> records_in_one_shift st -> records_in_one_shift st'.
Proof.
  intros Hstep. destruct Hstep
    as [st st' Hc | st id info t Hinfo
        | st id info start shift_name team_for_schedule base_team Hinfo Hget Hyear].
  - destruct Hc as [Hc _]. rewrite Hc. exact (fun H => H).
  - exact (fun H => H).
  - intros Hinv id' rec. cbn [task_schedule set_task_schedule].
    rewrite lookup_insert. case_decide.
    + subst id'. intros [= <-].
      destruct (get_next_sound _ _ _ _ _ _ _ _ _ _ Hget)
        as (d & Hd & Hw & _ & ws & we & Hwin & _ & Hstart & Hfit & _).
      exists (earliest_start_of st cs id (duration info)), d, ws, we.
      pose proof (round_up_15_ge
                    (Z.max ws (earliest_start_of st cs id (duration info)))) as Hge.
      rewrite <- Hstart in Hge.
      repeat split; simpl; auto; lia.
    + intros Hrec. exact (Hinv id' rec Hrec).
Qed.

(** Without late parts nothing starts before the start date. *)
Definition after_start_date (st : scheduler) : Prop :=
  forall id rec, task_schedule st !! id = Some rec -> start_date <= start_time rec.

Lemma raise_by_predecessors_pin (st : scheduler) (incoming : list constraint)
    (dur earliest : Z) (pinned : Z) :
  snd (raise_by_predecessors st incoming dur earliest) = Some pinned ->
  exists c fs, In c incoming /\ task_schedule st !! First c = Some fs
               /\ pinned = start_time fs.
Proof.
  unfold raise_by_predecessors.
  assert (Hgen : forall acc : Z * option Z,
    snd (fold_left
      (fun (acc : Z * option Z) c =>
         match task_schedule st !! First c with
         | Some first_schedule =>
             (Z.max (fst acc) (constraint_time (Relationship c) first_schedule dur),
              if String.eqb (Relationship c) "Start = Start"
              then Some (start_time first_schedule) else snd acc)
         | None => acc
         end) incoming acc) = Some pinned ->
    snd acc = Some pinned
    \/ exists c fs, In c incoming /\ task_schedule st !! First c = Some fs
                    /\ pinned = start_time fs).
  { induction incoming as [| c rest IH]; intros acc; simpl; [auto |].
    intros H. apply IH in H as [H | (c' & fs & Hin & Hfs & Hp)].
    - destruct (task_schedule st !! First c) as [fs |] eqn:Hfs; [| auto].
      simpl in H. destruct (String.eqb (Relationship c) "Start = Start"); [| auto].
      injection H as <-. right. exists c, fs. auto.
    - right. exists c', fs. auto. }
  intros H. apply Hgen in H as [H | H]; [discriminate H | exact H].
Qed.

Lemma after_start_date_step (cs : list constraint) (st st' : scheduler) :
  engine_step cs st st' ->
  late_part_tasks st = ∅ /\ after_start_date st ->
  late_part_tasks st' = ∅ /\ after_start_date st'.
Proof.
  intros Hstep. destruct Hstep
    as [st st' Hc | st id info t Hinfo
        | st id info start shift_name team_for_schedule base_team Hinfo Hget Hyear].
  - destruct Hc as [Hc _]. rewrite Hc. exact (fun H => H).
  - exact (fun H => H).
  - intros [Hnone Hinv]. split; [exact Hnone |].
    intros id' rec. cbn [task_schedule set_task_schedule].
    rewrite lookup_insert. case_decide.
    + subst id'. intros [= <-]. simpl.
      apply get_next_not_before in Hget.
      assert (Hes : start_date <= earliest_start_of st cs id (duration info)).
      { unfold earliest_start_of. rewrite Hnone.
        rewrite bool_decide_eq_false_2 by set_solver.
        pose proof (raise_by_predecessors_spec st (constraints_by_second cs id)
                      (duration info) start_date) as [H1 _].
        pose proof (raise_by_predecessors_pin st (constraints_by_second cs id)
                      (duration info) start_date) as H2.
        destruct (raise_by_predecessors st (constraints_by_second cs id)
                    (duration info) start_date) as [es [pinned |]];
          simpl in H1, H2; [| exact H1].
        destruct (H2 pinned eq_refl) as (c & fs & _ & Hfs & ->).
        exact (Hinv _ _ Hfs). }
      lia.
    + apply Hinv.
Qed.

(** What a run leaves as it was: everything but the schedule, the two
    caches and the teams of the tasks. *)
Definition run_frame (st st' : scheduler) : Prop :=
  st' = set_tasks (tasks st')
          (set_task_schedule (task_schedule st')
             (set_critical_path_cache (_critical_path_cache st')
                (set_dynamic_constraints_cache (_dynamic_constraints_cache st') st)))
  /\ forall id, tasks st' !! id
                = (fun info => with_team (team (default info (tasks st' !! id))) info)
                    <$> tasks st !! id.

Lemma run_frame_refl (st : scheduler) : run_frame st st.
Proof.
  split; [destruct st; reflexivity |].
  intros id. destruct (tasks st !! id) as [info |]; [| reflexivity].
  simpl. destruct info; reflexivity.
Qed.

Lemma run_frame_trans (st1 st2 st3 : scheduler) :
  run_frame st1 st2 -> run_frame st2 st3 -> run_frame st1 st3.
Proof.
  intros [H12 K12] [H23 K23]. split.
  - rewrite H23 at 1. rewrite H12 at 1. destruct st1; reflexivity.
  - intros id. rewrite (K23 id). rewrite (K12 id).
    destruct (tasks st1 !! id) as [info |]; [| reflexivity]. simpl.
    rewrite (K23 id), (K12 id). simpl. reflexivity.
Qed.

Lemma run_frame_step (cs : list constraint) (st st' : scheduler) :
  engine_step cs st st' -> run_frame st st'.
Proof.
  intros Hstep. destruct Hstep
    as [st st' Hc | st id info t Hinfo
        | st id info start shift_name team_for_schedule base_team Hinfo Hget Hyear].
  - destruct Hc as [Hc _]. split.
    + rewrite Hc.
      generalize (_critical_path_cache st') (_dynamic_constraints_cache st').
      intros c d. destruct st; reflexivity.
    + intros id. rewrite Hc. cbn [tasks set_critical_path_cache
                                   set_dynamic_constraints_cache].
      destruct (tasks st !! id) as [info |]; [| reflexivity].
      simpl. destruct info; reflexivity.
  - split; [destruct st; reflexivity |].
    intros id'. cbn [tasks set_tasks]. rewrite lookup_insert. case_decide.
    + subst id'. rewrite Hinfo. reflexivity.
    + destruct (tasks st !! id') as [info' |]; [| reflexivity].
      simpl. destruct info'; reflexivity.
  - split; [destruct st; reflexivity |].
    intros id'. cbn [tasks set_task_schedule].
    destruct (tasks st !! id') as [info' |]; [| reflexivity].
    simpl. destruct info'; reflexivity.
Qed.

Lemma run_frame_steps (cs : list constraint) (st st' : scheduler) :
  engine_steps cs st st' -> run_frame st st'.
Proof.
  induction 1 as [| x y z Hxy _ IH]; [apply run_frame_refl |].
  eapply run_frame_trans; [| exact IH]. eapply run_frame_step; eauto.
Qed.

Lemma cleared_schedule (st : scheduler) : task_schedule (cleared st) = ∅.
Proof. reflexivity. Qed.

(** X4: after a run of [schedule_tasks], whether it returned or raised,
    every record of the schedule belongs to a task of the scheduler and
    carries its data: the end is the start plus the duration of the
    task, and headcount, flags, product, skill and type are the task's. *)
Theorem scheduled_records_describe_tasks
    (silent_mode : bool) (st st' : scheduler) (r : res unit)
    (id : string) (rec : sched_rec) :
  schedule_tasks compose_dynamic_constraints now silent_mode st = (r, st') ->
  task_schedule st' !! id = Some rec ->
  exists info, tasks st' !! id = Some info /\ describes info rec.
Proof.
  intros Hrun. apply schedule_tasks_steps in Hrun.
  revert id rec. change (records_describe_tasks st').
  eapply engine_steps_invariant; [| exact Hrun |].
  - apply records_describe_tasks_step.
  - intros id rec. rewrite cleared_schedule, lookup_empty. discriminate.
Qed.

(** X5: after a run of [schedule_tasks] the minute of every scheduled
    start is a multiple of 15. *)
Theorem scheduled_starts_on_quarter_hours
    (silent_mode : bool) (st st' : scheduler) (r : res unit)
    (id : string) (rec : sched_rec) :
  schedule_tasks compose_dynamic_constraints now silent_mode st = (r, st') ->
  task_schedule st' !! id = Some rec ->
  DateTime.minute (start_time rec) mod 15 = 0.
Proof.
  intros Hrun. apply schedule_tasks_steps in Hrun.
  revert id rec. change (starts_on_quarter_hours st').
  eapply engine_steps_invariant; [| exact Hrun |].
  - apply starts_on_quarter_hours_step.
  - intros id rec. rewrite cleared_schedule, lookup_empty. discriminate.
Qed.

(** X6: after a run of [schedule_tasks] every record lies, from start to
    end, inside the window of its shift on a working day of its
    product: no placed task crosses a shift boundary. *)
Theorem scheduled_records_in_one_shift
    (silent_mode : bool) (st st' : scheduler) (r : res unit)
    (id : string) (rec : sched_rec) :
  schedule_tasks compose_dynamic_constraints now silent_mode st = (r, st') ->
  task_schedule st' !! id = Some rec ->
  in_one_shift st' rec.
Proof.
  intros Hrun. apply schedule_tasks_steps in Hrun.
  revert id rec. change (records_in_one_shift st').
  eapply engine_steps_invariant; [| exact Hrun |].
  - apply records_in_one_shift_step.
  - intros id rec. rewrite cleared_schedule, lookup_empty. discriminate.
Qed.

(** X7: when there are no late parts, a run of [schedule_tasks] places
    nothing before its start date, 22 August 2025 at 06:00. *)
Theorem nothing_scheduled_before_start_date
    (silent_mode : bool) (st st' : scheduler) (r : res unit)
    (id : string) (rec : sched_rec) :
  late_part_tasks st = ∅ ->
  schedule_tasks compose_dynamic_constraints now silent_mode st = (r, st') ->
  task_schedule st' !! id = Some rec ->
  start_date <= start_time rec.
Proof.
  intros Hnone Hrun. apply schedule_tasks_steps in Hrun.
  revert id rec. change (after_start_date st').
  refine (proj2 (engine_steps_invariant
                   (fun s => late_part_tasks s = ∅ /\ after_start_date s)
                   _ _ _ _ Hrun _)).
  - apply after_start_date_step.
  - split; [exact Hnone |].
    intros id rec. rewrite cleared_schedule, lookup_empty. discriminate.
Qed.

(** X8: a run of [schedule_tasks], whether it returns or raises, leaves
    the capacities, the shifts, the calendars and the late-part and
    rework tables as they were; of the tasks it changes at most the
    team. *)
Theorem schedule_tasks_frame
    (silent_mode : bool) (st st' : scheduler) (r : res unit) :
  schedule_tasks compose_dynamic_constraints now silent_mode st = (r, st') ->
  team_capacity st' = team_capacity st
  /\ quality_team_capacity st' = quality_team_capacity st
  /\ customer_team_capacity st' = customer_team_capacity st
  /\ _original_team_capacity st' = _original_team_capacity st
  /\ _original_quality_capacity st' = _original_quality_capacity st
  /\ team_shifts st' = team_shifts st
  /\ quality_team_shifts st' = quality_team_shifts st
  /\ customer_team_shifts st' = customer_team_shifts st
  /\ shift_hours st' = shift_hours st
  /\ holidays st' = holidays st
  /\ delivery_dates st' = delivery_dates st
  /\ quality_inspections st' = quality_inspections st
  /\ late_part_tasks st' = late_part_tasks st
  /\ rework_tasks st' = rework_tasks st
  /\ on_dock_dates st' = on_dock_dates st
  /\ late_part_delay_days st' = late_part_delay_days st
  /\ forall id,
       tasks st' !! id
       = (fun info => with_team (team (default info (tasks st' !! id))) info)
           <$> tasks st !! id.
Proof.
  intros Hrun. apply schedule_tasks_steps, run_frame_steps in Hrun.
  destruct Hrun as [Heq Htasks].
  repeat (split; [rewrite Heq; reflexivity |]).
  exact Htasks.
Qed.

End RunRecords.

(** ** One placement and the predecessors already placed *)

Section Placement.

Variable compose_dynamic_constraints : scheduler -> list constraint.
Variable now : Z.

Local Arguments calculate_task_priority : simpl never.
Local Arguments get_next_working_time_with_capacity : simpl never.
Local Arguments heapq.heappush : simpl never.
Local Arguments heapq.heappop : simpl never.

Lemma caches_only_schedule (st st' : scheduler) :
  caches_only st st' -> task_schedule st' = task_schedule st.
Proof. intros [H _]. rewrite H. reflexivity. Qed.

Lemma push_dependents_caches (cs : list constraint) (id : string) (ls : loop_state) :
  caches_only (self ls)
    (self (snd (push_dependents compose_dynamic_constraints now cs id ls))).
Proof.
  unfold push_dependents.
  generalize (constraints_by_first cs id). intros l.
  assert (Hgen : forall acc : res unit * loop_state,
    caches_only (self ls) (self (snd acc)) ->
    caches_only (self ls)
      (self (snd (fold_left
         (fun (acc : res unit * loop_state) c =>
            match acc with
            | (Ok _, ls) =>
                let dependent := Second c in
                if bool_decide (is_Some (task_schedule (self ls) !! dependent))
                   || bool_decide (dependent ∈ failed_tasks ls)
                then acc
                else
                  let all_satisfied :=
                    forallb (fun dep_constraint =>
                               bool_decide (is_Some (task_schedule (self ls)
                                                       !! First dep_constraint)))
                            (constraints_by_second cs dependent) in
                  if all_satisfied
                     && negb (existsb (String.eqb dependent) (snd <$> ready_tasks ls))
                  then
                    match calculate_task_priority compose_dynamic_constraints now
                            recursion_limit (self ls) dependent with
                    | (Ok dep_priority, st) =>
                        (Ok tt,
                         with_ready_tasks
                           (heapq.heappush entry_lt (ready_tasks ls)
                                           (dep_priority, dependent))
                           (with_self st ls))
                    | (Raise, st) => (Raise, with_self st ls)
                    end
                  else acc
            | (Raise, _) => acc
            end) l acc)))).
  { induction l as [| c rest IH]; intros acc Hacc; simpl; [exact Hacc |].
    apply IH. destruct acc as [[[] |] ls1]; [| exact Hacc].
    destruct (_ || _); [exact Hacc |].
    destruct (_ && _); [| exact Hacc].
    destruct (calculate_task_priority compose_dynamic_constraints now recursion_limit
                (self ls1) (Second c)) as [[p |] st1] eqn:Hp;
      simpl in *;
      (eapply caches_only_trans; [exact Hacc |]);
      eapply calculate_task_priority_caches; eauto. }
  apply Hgen. apply caches_only_refl.
Qed.

(** The bound of every placed predecessor is below the raised earliest
    start. *)
Lemma raise_by_predecessors_bounds (st : scheduler) (incoming : list constraint)
    (dur earliest : Z) (c : constraint) (first_rec : sched_rec) :
  In c incoming ->
  task_schedule st !! First c = Some first_rec ->
  constraint_time (Relationship c) first_rec dur
  <= fst (raise_by_predecessors st incoming dur earliest).
Proof.
  unfold raise_by_predecessors.
  set (step := fun (acc : Z * option Z) c =>
         match task_schedule st !! First c with
         | Some first_schedule =>
             (Z.max (fst acc) (constraint_time (Relationship c) first_schedule dur),
              if String.eqb (Relationship c) "Start = Start"
              then Some (start_time first_schedule) else snd acc)
         | None => acc
         end).
  assert (Hmono : forall l acc, fst acc <= fst (fold_left step l acc)).
  { induction l as [| c' l IH]; intros acc; simpl; [lia |].
    etransitivity; [| apply IH]. unfold step.
    destruct (task_schedule st !! First c'); simpl; lia. }
  generalize (earliest, @None Z).
  induction incoming as [| c' rest IH]; intros acc Hin Hfirst; [destruct Hin |].
  simpl. destruct Hin as [-> | Hin].
  - etransitivity; [| apply Hmono]. unfold step. rewrite Hfirst. simpl. lia.
  - apply IH; assumption.
Qed.

Lemma earliest_start_of_bounds (st : scheduler) (cs : list constraint)
    (id : string) (dur : Z) (c : constraint) (first_rec : sched_rec) :
  not_pinned cs id ->
  In c cs -> Second c = id ->
  task_schedule st !! First c = Some first_rec ->
  constraint_time (Relationship c) first_rec dur <= earliest_start_of st cs id dur.
Proof.
  intros Hpin Hin Hsec Hfirst. unfold earliest_start_of.
  set (base := if bool_decide (id ∈ late_part_tasks st)
               then get_earliest_start_for_late_part st id else start_date).
  assert (Hc : In c (constraints_by_second cs id)).
  { unfold constraints_by_second. apply filter_In. split; [exact Hin |].
    apply String.eqb_eq. exact Hsec. }
  pose proof (raise_by_predecessors_bounds st _ dur base c first_rec Hc Hfirst) as Hb.
  pose proof (raise_by_predecessors_spec st (constraints_by_second cs id) dur base)
    as [_ Hnone].
  destruct (raise_by_predecessors st (constraints_by_second cs id) dur base)
    as [es pinned].
  simpl in Hb, Hnone. rewrite Hnone; [exact Hb |].
  intros c' Hc'. unfold constraints_by_second in Hc'.
  apply filter_In in Hc' as [Hin' Hsec']. apply String.eqb_eq in Hsec'.
  exact (Hpin c' Hin' Hsec').
Qed.

(** What one iteration of the main loop does to the schedule: nothing,
    or one record for a slot found at or after the earliest start. *)
Lemma loop_body_schedule (cs : list constraint) (ls : loop_state) :
  let ls' := snd (loop_body compose_dynamic_constraints now cs ls) in
  task_schedule (self ls') = task_schedule (self ls)
  \/ exists id info rec,
       tasks (self ls) !! id = Some info
       /\ task_schedule (self ls') = <[id := rec]> (task_schedule (self ls))
       /\ rec_duration rec = duration info
       /\ earliest_start_of (self ls) cs id (duration info) <= start_time rec.
Proof.
  unfold loop_body.
  destruct (heapq.heappop entry_lt _) as [[[priority id] remaining] |];
    [| left; reflexivity].
  cbn [ready_tasks with_iteration_count with_ready_tasks task_retry_counts
       failed_tasks self].
  destruct (3 <=? _).
  { left. simpl. destruct (bool_decide _); reflexivity. }
  destruct (tasks (self ls) !! id) as [info |] eqn:Hinfo; [| left; reflexivity].
  destruct (select_team_and_slot (self ls) id info
              (earliest_start_of (self ls) cs id (duration info)))
    as [sel st1] eqn:Hsel.
  destruct (select_team_and_slot_steps cs _ _ _ _ _ _ Hinfo Hsel) as [Hst1 Hfound].
  assert (Hsched1 : task_schedule st1 = task_schedule (self ls)).
  { destruct Hst1 as [-> | [t ->]]; reflexivity. }
  destruct sel as [start shift_name team_for_schedule base_team | mark |].
  - cbn [self with_self failed_tasks].
    destruct (DateTime.year_gt_2030 start) eqn:Hyear; [left; exact Hsched1 |].
    specialize (Hfound _ _ _ _ eq_refl).
    apply get_next_not_before in Hfound.
    right. exists id, info,
      (make_record info start shift_name team_for_schedule base_team).
    split; [exact Hinfo |]. split; [| split; [reflexivity | exact Hfound]].
    match goal with
    | |- context [push_dependents _ _ _ _ ?l] =>
        pose proof (push_dependents_caches cs id l) as Hdeps;
        apply caches_only_schedule in Hdeps;
        destruct (push_dependents compose_dynamic_constraints now cs id l)
          as [[[] |] ls2]
    end; simpl in Hdeps |- *.
    + rewrite Hdeps, Hsched1. reflexivity.
    + rewrite self_requeue, Hdeps, Hsched1. reflexivity.
  - left. simpl. rewrite self_requeue. exact Hsched1.
  - left. simpl. rewrite self_requeue. exact Hsched1.
Qed.

(** X9: a record that one iteration of the main loop writes respects the
    predecessors that are placed at that moment: unless a
    'Start = Start' constraint pins the task, its start is at or after
    the bound of every constraint whose first task is placed (the end of
    the first task for 'Finish <= Start' and 'Finish = Start', its start
    for 'Start <= Start', and so on). *)
Theorem placement_respects_placed_predecessors
    (cs : list constraint) (ls ls' : loop_state) (r : res unit)
    (id : string) (rec : sched_rec) (c : constraint) (first_rec : sched_rec) :
  loop_body compose_dynamic_constraints now cs ls = (r, ls') ->
  task_schedule (self ls') !! id = Some rec ->
  task_schedule (self ls) !! id <> Some rec ->
  not_pinned cs id ->
  In c cs -> Second c = id ->
  task_schedule (self ls) !! First c = Some first_rec ->
  constraint_time (Relationship c) first_rec (rec_duration rec) <= start_time rec.
Proof.
  intros Hbody Hrec Hnew Hpin Hin Hsec Hfirst.
  pose proof (loop_body_schedule cs ls) as Hs. rewrite Hbody in Hs. simpl in Hs.
  destruct Hs as [Hsame | (id0 & info & rec0 & Hinfo & Hsched & Hdur & Hearly)].
  - rewrite Hsame in Hrec. contradiction.
  - rewrite Hsched in Hrec. rewrite lookup_insert in Hrec.
    case_decide as Hid; [| contradiction].
    subst id0. injection Hrec as ->.
    rewrite Hdur.
    pose proof (earliest_start_of_bounds (self ls) cs id (duration info) c first_rec
                  Hpin Hin Hsec Hfirst). lia.
Qed.

End Placement.

Lemma customer_example_run :
  exists st' rec,
    schedule_tasks customer_example_constraints start_date true customer_example
      = (Ok tt, st')
    /\ task_schedule st' !! "A_1" = Some rec.
Proof.
  eexists. eexists. split; vm_compute; reflexivity.
Qed.

Lemma scheduled_records_describe_tasks_witness :
  exists rec info,
    task_schedule (snd (schedule_tasks (fun _ => []) start_date true late_part_example))
      !! "LP_1" = Some rec
    /\ tasks (snd (schedule_tasks (fun _ => []) start_date true late_part_example))
         !! "LP_1" = Some info
    /\ describes info rec.
Proof.
  destruct late_part_example_run as (st' & rec & Hrun & Hrec & _).
  destruct (scheduled_records_describe_tasks (fun _ => []) start_date true
              late_part_example st' (Ok tt) "LP_1" rec Hrun Hrec) as (info & Hi & Hd).
  exists rec, info. rewrite Hrun. auto.
Defined.

Lemma scheduled_starts_on_quarter_hours_witness :
  exists rec,
    task_schedule (snd (schedule_tasks (fun _ => []) start_date true late_part_example))
      !! "LP_1" = Some rec
    /\ DateTime.minute (start_time rec) mod 15 = 0.
Proof.
  destruct late_part_example_run as (st' & rec & Hrun & Hrec & _).
  exists rec. rewrite Hrun. split; [exact Hrec |].
  exact (scheduled_starts_on_quarter_hours (fun _ => []) start_date true
           late_part_example st' (Ok tt) "LP_1" rec Hrun Hrec).
Defined.

Lemma scheduled_records_in_one_shift_witness :
  exists rec,
    task_schedule (snd (schedule_tasks (fun _ => []) start_date true late_part_example))
      !! "LP_1" = Some rec
    /\ in_one_shift
         (snd (schedule_tasks (fun _ => []) start_date true late_part_example)) rec.
Proof.
  destruct late_part_example_run as (st' & rec & Hrun & Hrec & _).
  exists rec. rewrite Hrun. split; [exact Hrec |].
  exact (scheduled_records_in_one_shift (fun _ => []) start_date true
           late_part_example st' (Ok tt) "LP_1" rec Hrun Hrec).
Defined.

Lemma nothing_scheduled_before_start_date_witness :
  exists rec,
    task_schedule (snd (schedule_tasks customer_example_constraints start_date true
                          customer_example)) !! "A_1" = Some rec
    /\ start_date <= start_time rec.
Proof.
  destruct customer_example_run as (st' & rec & Hrun & Hrec).
  exists rec. rewrite Hrun. split; [exact Hrec |].
  exact (nothing_scheduled_before_start_date customer_example_constraints start_date
           true customer_example st' (Ok tt) "A_1" rec eq_refl Hrun Hrec).
Defined.

Lemma schedule_tasks_frame_witness :
  team_capacity (snd (schedule_tasks (fun _ => []) start_date true late_part_example))
  = team_capacity late_part_example.
Proof.
  refine (proj1 (schedule_tasks_frame (fun _ => []) start_date true late_part_example
                   _ (fst (schedule_tasks (fun _ => []) start_date true
                             late_part_example)) _)).
  apply surjective_pairing.
Defined.

(** Example data: the inspection of the placed task is at the head of
    the queue. *)
Definition inspection_ready : loop_state :=
  {| self := inspection_example true;
     ready_tasks := [(inject_Z (-2000), "A_QI_1")];
     scheduled_count := 1; iteration_count := 1;
     failed_tasks := ∅; task_retry_counts := ∅ |}.

Definition inspection_constraints : list constraint :=
  [ {| First := "A_1"; Second := "A_QI_1"; Relationship := "Finish = Start" |} ].

Lemma inspection_ready_iteration :
  exists ls' rec,
    loop_body (fun _ => []) start_date inspection_constraints inspection_ready
      = (Ok tt, ls')
    /\ task_schedule (self ls') !! "A_QI_1" = Some rec
    /\ rec_duration rec = 30.
Proof.
  eexists. eexists. split; [vm_compute; reflexivity |].
  split; [vm_compute; reflexivity | reflexivity].
Qed.

Lemma placement_respects_placed_predecessors_witness :
  exists rec,
    task_schedule
      (self (snd (loop_body (fun _ => []) start_date inspection_constraints
                    inspection_ready))) !! "A_QI_1" = Some rec
    /\ DateTime.make 739485 7 0 <= start_time rec.
Proof.
  destruct inspection_ready_iteration as (ls' & rec & Hbody & Hrec & Hdur).
  exists rec. rewrite Hbody. split; [exact Hrec |].
  refine (placement_respects_placed_predecessors (fun _ => []) start_date
            inspection_constraints inspection_ready ls' (Ok tt) "A_QI_1" rec
            {| First := "A_1"; Second := "A_QI_1"; Relationship := "Finish = Start" |}
            (sample_record (DateTime.make 739485 6 0) (DateTime.make 739485 7 0))
            Hbody Hrec _ _ _ _ _).
  - vm_compute. discriminate.
  - intros c [<- | []] _. discriminate.
  - left. reflexivity.
  - reflexivity.
  - vm_compute. reflexivity.
Defined.

(** ** The capacity check of a window ([check_team_capacity_at_time]) *)

Section Sweep.

#[local] Instance event_le_total : Total event_le.
Proof. intros a b. unfold event_le. lia. Qed.

#[local] Instance event_le_trans : Transitive event_le.
Proof. intros a b c. unfold event_le. lia. Qed.

(** The sum of the deltas of the events at or before [t]. *)
Definition deltas_until (t : Z) (events : list (Z * Z)) : Z :=
  foldr (fun event acc => if fst event <=? t then snd event + acc else acc) 0 events.

Lemma deltas_until_app (t : Z) (l1 l2 : list (Z * Z)) :
  deltas_until t (l1 ++ l2)%list = deltas_until t l1 + deltas_until t l2.
Proof.
  induction l1 as [| e l1 IH]; simpl; [lia |].
  rewrite IH. destruct (fst e <=? t); lia.
Qed.

Lemma deltas_until_perm (t : Z) (l1 l2 : list (Z * Z)) :
  l1 ≡ₚ l2 -> deltas_until t l1 = deltas_until t l2.
Proof.
  induction 1 as [| e l1 l2 _ IH | a b l | l1 l2 l3 _ IH1 _ IH2]; simpl.
  - reflexivity.
  - rewrite IH. reflexivity.
  - destruct (fst a <=? t), (fst b <=? t); lia.
  - congruence.
Qed.

Definition sweep_from (acc : Z * Z) (events : list (Z * Z)) : Z * Z :=
  fold_left
    (fun (acc : Z * Z) (event : Z * Z) =>
       let current_usage := fst acc + snd event in
       (current_usage, Z.max (snd acc) current_usage))
    events acc.

Lemma sweep_from_max (events : list (Z * Z)) (acc : Z * Z) :
  snd acc <= snd (sweep_from acc events).
Proof.
  revert acc. induction events as [| e l IH]; intros acc.
  { unfold sweep_from. simpl. lia. }
  change (sweep_from acc (e :: l))
    with (sweep_from (fst acc + snd e, Z.max (snd acc) (fst acc + snd e)) l).
  etransitivity; [| apply IH]. simpl. lia.
Qed.

(** The highest usage seen is at least the usage at any instant. *)
Lemma sweep_from_covers (t : Z) (events : list (Z * Z)) :
  StronglySorted event_le events ->
  forall acc, fst acc <= snd acc ->
    fst acc + deltas_until t events <= snd (sweep_from acc events).
Proof.
  induction 1 as [| e l Hsorted IH Hall]; intros acc Hacc.
  { unfold deltas_until, sweep_from. simpl. lia. }
  change (deltas_until t (e :: l))
    with (if fst e <=? t then snd e + deltas_until t l else deltas_until t l).
  change (sweep_from acc (e :: l))
    with (sweep_from (fst acc + snd e, Z.max (snd acc) (fst acc + snd e)) l).
  destruct (fst e <=? t) eqn:He.
  - specialize (IH (fst acc + snd e, Z.max (snd acc) (fst acc + snd e))).
    simpl in IH. lia.
  - assert (Hzero : deltas_until t l = 0).
    { clear IH Hsorted. induction l as [| e' l IHl]; [reflexivity |].
      apply Forall_cons in Hall as [Hle Hall].
      change (deltas_until t (e' :: l))
        with (if fst e' <=? t then snd e' + deltas_until t l else deltas_until t l).
      rewrite (IHl Hall).
      destruct (fst e' <=? t) eqn:He'; [| reflexivity].
      unfold event_le in Hle. lia. }
    rewrite Hzero.
    pose proof (sweep_from_max l (fst acc + snd e, Z.max (snd acc) (fst acc + snd e)))
      as Hm.
    simpl in Hm. lia.
Qed.

(** What a record contributes to the events at or before an instant of
    the window. *)
Lemma window_events_until (from to t : Z) (r : sched_rec) :
  from <= t < to ->
  deltas_until t (window_events from to r)
  = if (start_time r <=? t) && (t <? end_time r)
    then rec_mechanics_required r else 0.
Proof.
  intros Ht. unfold window_events.
  destruct (Z.max (start_time r) from <? Z.min (end_time r) to) eqn:Hov; simpl.
  - destruct (Z.max (start_time r) from <=? t) eqn:H1,
             (Z.min (end_time r) to <=? t) eqn:H2,
             (start_time r <=? t) eqn:H3, (t <? end_time r) eqn:H4; simpl; lia.
  - destruct (start_time r <=? t) eqn:H3, (t <? end_time r) eqn:H4; simpl; lia.
Qed.

Lemma deltas_until_records (team : string) (from to t : Z) (records : list sched_rec) :
  from <= t < to ->
  deltas_until t
    (flat_map (window_events from to)
       (List.filter
          (fun sched =>
             String.eqb (rec_team_skill sched) team
             && (start_time sched <? to) && (from <? end_time sched))
          records))
  = foldr (fun r acc => if busy_at team t r then acc + rec_mechanics_required r else acc)
          0 records.
Proof.
  intros Ht. induction records as [| r records IH]; [reflexivity |].
  cbn [List.filter foldr]. rewrite <- IH. clear IH.
  unfold busy_at.
  destruct (String.eqb (rec_team_skill r) team); cbn [andb].
  - destruct ((start_time r <? to) && (from <? end_time r)) eqn:Hov.
    + cbn [flat_map]. rewrite deltas_until_app, window_events_until by exact Ht.
      destruct ((start_time r <=? t) && (t <? end_time r)); lia.
    + destruct (start_time r <=? t) eqn:H3, (t <? end_time r) eqn:H4; simpl; lia.
  - reflexivity.
Qed.

Lemma load_foldr (m : gmap string sched_rec) (team : string) (t : Z) :
  load m team t
  = foldr (fun r acc => if busy_at team t r then acc + rec_mechanics_required r else acc)
          0 (map_to_list m).*2.
Proof.
  unfold load, booked. rewrite map_fold_foldr.
  induction (map_to_list m) as [| [id r] l IH]; [reflexivity |].
  simpl. rewrite IH. reflexivity.
Qed.

Lemma merge_sort_events_sorted (events : list (Z * Z)) :
  StronglySorted event_le (merge_sort event_le events).
Proof. apply StronglySorted_merge_sort; apply _. Qed.

End Sweep.

(** X10: when [check_team_capacity_at_time] answers True for a team, a
    window and a headcount, then at every instant of the window the
    headcount already booked on the team plus the requested headcount
    is within the capacity of the team. *)
Theorem check_team_capacity_at_time_sound
    (st : scheduler) (team : string) (from to mechanics_needed : Z) (t : Z) :
  check_team_capacity_at_time st team from to mechanics_needed = true ->
  from <= t < to ->
  load (task_schedule st) team t + mechanics_needed <= capacity_of_team st team.
Proof.
  unfold check_team_capacity_at_time.
  destruct (capacity_of_team st team =? 0); [discriminate |].
  destruct (capacity_of_team st team <? mechanics_needed); [discriminate |].
  intros Hok Ht. apply negb_true_iff, Z.ltb_ge in Hok.
  set (events := flat_map _ _) in Hok.
  pose proof (sweep_from_covers t (merge_sort event_le events)
                (merge_sort_events_sorted events) (0, 0) ltac:(simpl; lia))
    as Hcover.
  rewrite (deltas_until_perm t _ _ (merge_sort_Permutation event_le events)) in Hcover.
  change (sweep_from (0, 0) (merge_sort event_le events))
    with (sweep (merge_sort event_le events)) in Hcover.
  unfold events at 1 in Hcover.
  rewrite deltas_until_records in Hcover by exact Ht.
  rewrite <- load_foldr in Hcover.
  cbn [fst] in Hcover. lia.
Qed.

Lemma check_team_capacity_at_time_sound_witness :
  load (task_schedule (inspection_example true)) "Mechanic Team 1"
       (DateTime.make 739485 6 30) + 1
  <= capacity_of_team (inspection_example true) "Mechanic Team 1".
Proof.
  apply (check_team_capacity_at_time_sound (inspection_example true) "Mechanic Team 1"
           (DateTime.make 739485 6 0) (DateTime.make 739485 8 0) 1).
  - vm_compute. reflexivity.
  - vm_compute. split; [discriminate | reflexivity].
Defined.

(** ** Delivery metrics *)

Section Metrics.

Lemma fold_left_max_end (l : list sched_rec) (a : Z) :
  let e := fold_left (fun acc task => Z.max acc (end_time task)) l a in
  a <= e
  /\ (forall r, In r l -> end_time r <= e)
  /\ (e = a \/ exists r, In r l /\ end_time r = e).
Proof.
  revert a. induction l as [| r l IH]; intros a; simpl.
  - split; [lia |]. split; [intros r [] | left; reflexivity].
  - destruct (IH (Z.max a (end_time r))) as (H1 & H2 & H3).
    split; [lia |]. split.
    + intros r' [<- | Hin]; [lia | auto].
    + destruct H3 as [H3 | (r' & Hin & Hr')].
      * destruct (Z.max_spec a (end_time r)) as [[_ Hm] | [_ Hm]].
        -- right. exists r. split; [left; reflexivity | lia].
        -- left. lia.
      * right. exists r'. split; [right; exact Hin | exact Hr'].
Qed.

(** The records of a product, as the loop of [calculate_lateness_metrics]
    collects them. *)
Lemma product_tasks_spec (st : scheduler) (product : string) (r : sched_rec) :
  In r (List.filter (fun schedule => bool_decide (rec_product schedule = Some product))
                    (map_to_list (task_schedule st)).*2)
  <-> (exists id, task_schedule st !! id = Some r) /\ rec_product r = Some product.
Proof.
  rewrite filter_In, bool_decide_eq_true, <- list_elem_of_In, list_elem_of_fmap.
  split.
  - intros [([id r'] & -> & Hin) Hp]. apply elem_of_map_to_list in Hin.
    split; [exists id; exact Hin | exact Hp].
  - intros [[id Hid] Hp]. split; [| exact Hp].
    exists (id, r). split; [reflexivity |]. apply elem_of_map_to_list. exact Hid.
Qed.

End Metrics.

(** X11: for every product with a delivery date, [calculate_lateness_metrics]
    has an entry. When no record of the schedule belongs to the product,
    the entry has no projected completion, lateness 999999 and is not on
    time. Otherwise the projected completion is the latest end among the
    records of the product, the lateness is the whole number of days
    from the delivery date to it, and the product is on time exactly
    when that number is at most 0. *)
Theorem lateness_metrics_of_product (st : scheduler) (product : string) (delivery : Z) :
  delivery_dates st !! product = Some delivery ->
  exists m,
    calculate_lateness_metrics st !! product = Some m
    /\ delivery_date m = delivery
    /\ ((forall id r, task_schedule st !! id = Some r -> rec_product r <> Some product) ->
        projected_completion m = None /\ lateness_days m = 999999 /\ on_time m = false)
    /\ (forall id r, task_schedule st !! id = Some r -> rec_product r = Some product ->
        exists e,
          projected_completion m = Some e
          /\ end_time r <= e
          /\ (exists id' r', task_schedule st !! id' = Some r'
                             /\ rec_product r' = Some product /\ end_time r' = e)
          /\ lateness_days m = DateTime.td_days (e - delivery)
          /\ on_time m = (lateness_days m <=? 0)).
Proof.
  intros Hd. unfold calculate_lateness_metrics.
  rewrite map_lookup_imap, Hd. cbn [mbind option_bind].
  pose proof (product_tasks_spec st product) as Hspec.
  destruct (List.filter _ _) as [| first others] eqn:Hf.
  - eexists. split; [reflexivity |]. split; [reflexivity |]. split.
    + intros _. repeat split.
    + intros id r Hr Hp. exfalso.
      apply (proj2 (Hspec r)). split; [exists id; exact Hr | exact Hp].
  - eexists. split; [reflexivity |]. split; [reflexivity |]. split.
    + intros Hnone. exfalso.
      destruct (proj1 (Hspec first) (or_introl eq_refl)) as [[id Hid] Hp].
      exact (Hnone id first Hid Hp).
    + intros id r Hr Hp. cbn [projected_completion lateness_days on_time].
      pose proof (fold_left_max_end others (end_time first)) as (H1 & H2 & H3).
      eexists. split; [reflexivity |]. split; [| split; [| split; reflexivity]].
      * assert (Hin : In r (first :: others)).
        { apply Hspec. split; [exists id; exact Hr | exact Hp]. }
        destruct Hin as [<- | Hin]; [exact H1 | exact (H2 r Hin)].
      * assert (Hex : exists r', In r' (first :: others)
                  /\ end_time r' = fold_left (fun acc task => Z.max acc (end_time task))
                                             others (end_time first)).
        { destruct H3 as [-> | (r' & Hin & Hr')].
          - exists first. split; [left; reflexivity | reflexivity].
          - exists r'. split; [right; exact Hin | exact Hr']. }
        destruct Hex as (r' & Hin & Hr').
        apply Hspec in Hin as [[id' Hid'] Hp'].
        exists id', r'. auto.
Qed.

Lemma lateness_metrics_of_product_witness :
  exists m,
    calculate_lateness_metrics (inspection_example true) !! "A" = Some m
    /\ delivery_date m = DateTime.make 739500 0 0.
Proof.
  destruct (lateness_metrics_of_product (inspection_example true) "A"
              (DateTime.make 739500 0 0)) as (m & Hm & Hd & _).
  - vm_compute. reflexivity.
  - exists m. split; assumption.
Defined.

(** X12: in the result of [evaluate_delivery_performance] the counter of
    products at least one day early and the counter of products early by
    any amount are always equal, because lateness is a whole number of
    days. *)
Theorem products_on_target_equals_products_early (st : scheduler) :
  products_on_target (evaluate_delivery_performance st)
  = products_early (evaluate_delivery_performance st).
Proof.
  unfold evaluate_delivery_performance. cbn [products_on_target products_early].
  f_equal. f_equal. apply filter_ext. intros v.
  destruct (v <=? -1) eqn:H1, (v <? 0) eqn:H2; try reflexivity; lia.
Qed.

Section Extremes.

Lemma fold_left_max_ge (l : list Z) (a : Z) :
  a <= fold_left Z.max l a /\ forall v, In v l -> v <= fold_left Z.max l a.
Proof.
  revert a. induction l as [| x l IH]; intros a; simpl.
  - split; [lia | intros v []].
  - destruct (IH (Z.max a x)) as [H1 H2]. split; [lia |].
    intros v [<- | Hin]; [lia | auto].
Qed.

Lemma fold_left_min_le (l : list Z) (a : Z) :
  fold_left Z.min l a <= a /\ forall v, In v l -> fold_left Z.min l a <= v.
Proof.
  revert a. induction l as [| x l IH]; intros a; simpl.
  - split; [lia | intros v []].
  - destruct (IH (Z.min a x)) as [H1 H2]. split; [lia |].
    intros v [<- | Hin]; [lia | auto].
Qed.

End Extremes.

(** X13: the lateness of every product that has a projected completion
    lies between [min_lateness] and [max_lateness] of
    [evaluate_delivery_performance]. *)
Theorem lateness_between_extremes (st : scheduler) (product : string)
    (m : product_metrics) :
  calculate_lateness_metrics st !! product = Some m ->
  is_Some (projected_completion m) ->
  lateness_days m < 999999 ->
  min_lateness (evaluate_delivery_performance st) <= lateness_days m
  /\ lateness_days m <= max_lateness (evaluate_delivery_performance st).
Proof.
  intros Hm Hp Hl. unfold evaluate_delivery_performance.
  cbn [min_lateness max_lateness].
  set (values := lateness_days <$> List.filter _ _).
  assert (Hin : In (lateness_days m) values).
  { unfold values. apply list_elem_of_In, list_elem_of_fmap. exists m.
    split; [reflexivity |]. apply list_elem_of_In, filter_In. split.
    - apply list_elem_of_In, list_elem_of_fmap. exists (product, m).
      split; [reflexivity |]. apply elem_of_map_to_list. exact Hm.
    - apply andb_true_iff. split; [apply bool_decide_eq_true; exact Hp |].
      apply Z.ltb_lt. exact Hl. }
  destruct values as [| v vs]; [destruct Hin |].
  pose proof (fold_left_max_ge vs v) as [A1 A2].
  pose proof (fold_left_min_le vs v) as [B1 B2].
  destruct Hin as [<- | Hin]; [lia |].
  split; [apply B2 | apply A2]; exact Hin.
Qed.

Lemma lateness_between_extremes_witness :
  exists m,
    calculate_lateness_metrics
      (snd (schedule_tasks (fun _ => []) start_date true late_part_example))
      !! "Product A" = Some m
    /\ lateness_days m
       <= max_lateness
            (evaluate_delivery_performance
               (snd (schedule_tasks (fun _ => []) start_date true late_part_example))).
Proof.
  eexists. split; [vm_compute; reflexivity |].
  refine (proj2 (lateness_between_extremes
                   (snd (schedule_tasks (fun _ => []) start_date true late_part_example))
                   "Product A" _ _ _ _)).
  - vm_compute. reflexivity.
  - eexists. reflexivity.
  - vm_compute. reflexivity.
Defined.

(** ** The scenario drivers and their capacity configurations *)

Section ScenarioRestores.

Variable compose_dynamic_constraints : scheduler -> list constraint.
Variable now : Z.

Lemma restore_original_capacities_lookup
    (original_team original_quality : gmap string Z) (st : scheduler) :
  team_capacity (restore_original_capacities original_team original_quality st)
    = restore_capacities original_team (team_capacity st)
  /\ quality_team_capacity (restore_original_capacities original_team original_quality st)
     = restore_capacities original_quality (quality_team_capacity st)
  /\ _original_team_capacity (restore_original_capacities original_team original_quality st)
     = _original_team_capacity st
  /\ _original_quality_capacity
       (restore_original_capacities original_team original_quality st)
     = _original_quality_capacity st.
Proof. repeat split. Qed.

Lemma s2_loop_restored (fuel : nat) (s : search_state)
    (original_team original_quality : gmap string Z) :
  dom (team_capacity (s2_self s)) ⊆ dom original_team ->
  dom (quality_team_capacity (s2_self s)) ⊆ dom original_quality ->
  let st' := restore_original_capacities original_team original_quality
               (s2_self (s2_loop compose_dynamic_constraints now fuel s)) in
  team_capacity st' = original_team
  /\ quality_team_capacity st' = original_quality
  /\ _original_team_capacity st' = _original_team_capacity (s2_self s)
  /\ _original_quality_capacity st' = _original_quality_capacity (s2_self s).
Proof.
  intros Hm Hq st'.
  destruct (s2_loop_frame compose_dynamic_constraints now fuel s)
    as (D1 & D2 & O1 & O2 & _).
  destruct (restore_original_capacities_lookup original_team original_quality
              (s2_self (s2_loop compose_dynamic_constraints now fuel s)))
    as (R1 & R2 & R3 & R4).
  unfold st'. rewrite R1, R2, R3, R4.
  split; [| split; [| split]].
  - apply restore_capacities_covered. rewrite D1. exact Hm.
  - apply restore_capacities_covered. rewrite D2. exact Hq.
  - exact O1.
  - exact O2.
Qed.

Lemma s3_loop_restored (draws : oracle) (target_earliness : Z)
    (initial_temp cooling_rate : Q) (remaining iteration : nat) (a : annealing_state)
    (original_team original_quality : gmap string Z) :
  let st' := restore_original_capacities original_team original_quality
               (s3_self (s3_loop compose_dynamic_constraints now draws target_earliness
                                 initial_temp cooling_rate remaining iteration a)) in
  (forall team capacity,
      original_team !! team = Some capacity -> team_capacity st' !! team = Some capacity)
  /\ (forall team capacity,
        original_quality !! team = Some capacity ->
        quality_team_capacity st' !! team = Some capacity)
  /\ _original_team_capacity st' = _original_team_capacity (s3_self a)
  /\ _original_quality_capacity st' = _original_quality_capacity (s3_self a).
Proof.
  intros st'.
  pose proof (s3_loop_frame compose_dynamic_constraints now draws target_earliness
                initial_temp cooling_rate remaining iteration a) as H.
  cbv zeta in H. destruct H as (O1 & O2 & _).
  destruct (restore_original_capacities_lookup original_team original_quality
              (s3_self (s3_loop compose_dynamic_constraints now draws target_earliness
                                initial_temp cooling_rate remaining iteration a)))
    as (R1 & R2 & R3 & R4).
  unfold st'. rewrite R1, R2, R3, R4.
  split; [| split; [| split]].
  - intros team capacity H. rewrite restore_capacities_lookup, H. reflexivity.
  - intros team capacity H. rewrite restore_capacities_lookup, H. reflexivity.
  - exact O1.
  - exact O2.
Qed.

(** X14: when every team of the two capacity tables has a stored original,
    [scenario_2_minimize_makespan] leaves both tables equal to the
    stored originals, and the stored originals as they were. *)
Theorem scenario_2_restores_capacities
    (min_mechanics max_mechanics min_quality max_quality : Z) (st : scheduler) :
  dom (team_capacity st) ⊆ dom (_original_team_capacity st) ->
  dom (quality_team_capacity st) ⊆ dom (_original_quality_capacity st) ->
  let st' := fst (scenario_2_minimize_makespan compose_dynamic_constraints now
                    min_mechanics max_mechanics min_quality max_quality st) in
  team_capacity st' = _original_team_capacity st
  /\ quality_team_capacity st' = _original_quality_capacity st
  /\ _original_team_capacity st' = _original_team_capacity st
  /\ _original_quality_capacity st' = _original_quality_capacity st.
Proof.
  intros Hm Hq.
  exact (s2_loop_restored 20
           {| s2_self := st;
              mech_low := min_mechanics; mech_high := max_mechanics;
              qual_low := min_quality; qual_high := max_quality;
              best := None |}
           (_original_team_capacity st) (_original_quality_capacity st) Hm Hq).
Qed.

(** X15: [scenario_3_simulated_annealing] gives every team of the stored
    originals its original capacity back, whatever the random draws,
    and leaves the stored originals as they were. *)
Theorem scenario_3_restores_original_teams
    (draws : oracle) (target_earliness : Z) (max_iterations : nat)
    (initial_temp cooling_rate : Q) (st : scheduler) :
  let st' := fst (fst (scenario_3_simulated_annealing compose_dynamic_constraints now
                         draws target_earliness max_iterations initial_temp
                         cooling_rate st)) in
  (forall team capacity,
      _original_team_capacity st !! team = Some capacity ->
      team_capacity st' !! team = Some capacity)
  /\ (forall team capacity,
        _original_quality_capacity st !! team = Some capacity ->
        quality_team_capacity st' !! team = Some capacity)
  /\ _original_team_capacity st' = _original_team_capacity st
  /\ _original_quality_capacity st' = _original_quality_capacity st.
Proof.
  exact (s3_loop_restored draws target_earliness initial_temp cooling_rate
           max_iterations 0
           {| s3_self := st;
              current_config := initialize_moderate_capacity st;
              best_config := initialize_moderate_capacity st;
              best_score := None; best_metrics := None;
              temperature := initial_temp; no_improvement := 0 |}
           (_original_team_capacity st) (_original_quality_capacity st)).
Qed.

End ScenarioRestores.

Lemma scenario_2_restores_capacities_witness :
  team_capacity (fst (scenario_2_minimize_makespan customer_example_constraints
                        start_date 1 100 1 50 customer_example))
  = _original_team_capacity customer_example.
Proof.
  refine (proj1 (scenario_2_restores_capacities customer_example_constraints start_date
                   1 100 1 50 customer_example _ _)).
  - cbn. rewrite !dom_singleton_L. reflexivity.
  - cbn. rewrite !dom_singleton_L. reflexivity.
Defined.

Lemma scenario_3_restores_original_teams_witness :
  team_capacity
    (fst (fst (scenario_3_simulated_annealing customer_example_constraints start_date
                 {| utilisation_raises := fun _ => false;
                    accepts := fun _ => false;
                    sampled := fun _ l k => take k l;
                    low_utilisation_draw := fun _ => Ok None |}
                 (-1) 300 100 (95 # 100) customer_example)))
    !! "Mechanic Team 1" = Some 2.
Proof.
  refine (proj1 (scenario_3_restores_original_teams customer_example_constraints
                   start_date _ (-1) 300 100 (95 # 100) customer_example)
                "Mechanic Team 1" 2 _).
  reflexivity.
Defined.

(** *** The moves of scenario 3 *)

Section Moves.

(** X16: [reduce_random_teams] touches only the mechanic capacities; it
    never raises one, never takes one that is at least 2 below 2, leaves
    those at or below 2 alone, and keeps the set of teams. *)
Theorem reduce_random_teams_floor (config : configuration)
    (teams_to_reduce : list string) (team : string) :
  quality (reduce_random_teams config teams_to_reduce) = quality config
  /\ match mechanic config !! team with
     | Some v =>
         exists v', mechanic (reduce_random_teams config teams_to_reduce) !! team
                    = Some v'
                    /\ v' <= v /\ Z.min v 2 <= v'
     | None => mechanic (reduce_random_teams config teams_to_reduce) !! team = None
     end.
Proof.
  split; [reflexivity |].
  unfold reduce_random_teams. cbn [mechanic].
  generalize (mechanic config). intros m. revert m.
  induction teams_to_reduce as [| t rest IH]; intros m; cbn [fold_left].
  - destruct (m !! team) as [v |]; [| reflexivity]. exists v. repeat split; lia.
  - set (m1 := match m !! t with
               | Some v => if 2 <? v then <[t := v - 1]> m else m
               | None => m
               end).
    specialize (IH m1).
    assert (Hm1 : match m !! team with
                  | Some v => exists v1, m1 !! team = Some v1 /\ v1 <= v /\ Z.min v 2 <= v1
                  | None => m1 !! team = None
                  end).
    { unfold m1. destruct (m !! t) as [vt |] eqn:Ht.
      - destruct (2 <? vt) eqn:Hlt.
        + destruct (decide (t = team)) as [-> | Hne].
          * rewrite Ht, lookup_insert_eq. exists (vt - 1). repeat split; lia.
          * rewrite lookup_insert_ne by exact Hne.
            destruct (m !! team) as [v |]; [| reflexivity].
            exists v. repeat split; lia.
        + destruct (m !! team) as [v |]; [| reflexivity]. exists v. repeat split; lia.
      - destruct (m !! team) as [v |]; [| reflexivity]. exists v. repeat split; lia. }
    destruct (m !! team) as [v |].
    + destruct Hm1 as (v1 & Hv1 & H1 & H2). rewrite Hv1 in IH.
      destruct IH as (v' & Hv' & H3 & H4). exists v'. repeat split; [exact Hv' | lia | lia].
    + rewrite Hm1 in IH. exact IH.
Qed.

(** X17: [fix_unscheduled_tasks] never lowers a capacity, and it leaves
    the configuration as it is when every task has a record. *)
Theorem fix_unscheduled_tasks_only_adds (st : scheduler) (config : configuration)
    (team : string) :
  default 0 (mechanic config !! team)
    <= default 0 (mechanic (fix_unscheduled_tasks st config) !! team)
  /\ default 0 (quality config !! team)
     <= default 0 (quality (fix_unscheduled_tasks st config) !! team)
  /\ (is_Some (mechanic config !! team) ->
      is_Some (mechanic (fix_unscheduled_tasks st config) !! team))
  /\ (is_Some (quality config !! team) ->
      is_Some (quality (fix_unscheduled_tasks st config) !! team))
  /\ ((forall id, is_Some (tasks st !! id) -> is_Some (task_schedule st !! id)) ->
      fix_unscheduled_tasks st config = config).
Proof.
  unfold fix_unscheduled_tasks.
  apply (map_fold_weak_ind
           (fun (new_config : configuration) (m : gmap string task_info) =>
              default 0 (mechanic config !! team)
                <= default 0 (mechanic new_config !! team)
              /\ default 0 (quality config !! team)
                 <= default 0 (quality new_config !! team)
              /\ (is_Some (mechanic config !! team) ->
                  is_Some (mechanic new_config !! team))
              /\ (is_Some (quality config !! team) ->
                  is_Some (quality new_config !! team))
              /\ ((forall id, is_Some (m !! id) -> is_Some (task_schedule st !! id)) ->
                  new_config = config))).
  - repeat split; auto; lia.
  - intros id info m new_config Hfresh (H1 & H2 & H3 & H4 & H5).
    destruct (bool_decide (is_Some (task_schedule st !! id))) eqn:Hs.
    + repeat split; auto. intros Hall. apply H5. intros id' Hid'. apply Hall.
      rewrite lookup_insert_ne; [exact Hid' |]. intros ->.
      rewrite Hfresh in Hid'. destruct Hid'; discriminate.
    + apply bool_decide_eq_false in Hs.
      assert (Hnot : ~ (forall id0, is_Some (<[id := info]> m !! id0) ->
                                    is_Some (task_schedule st !! id0))).
      { intros Hall. apply Hs. apply Hall. rewrite lookup_insert_eq. eauto. }
      destruct (PyStr.truthy (declared_team info)).
      * destruct (PyStr.contains "Quality" (default "" (declared_team info)));
          cbn [mechanic quality].
        -- repeat split; auto; try contradiction.
           ++ destruct (decide (default "" (declared_team info) = team)) as [<- | Hne].
              ** rewrite lookup_insert_eq. simpl. lia.
              ** rewrite lookup_insert_ne by exact Hne. exact H2.
           ++ intros Hq. destruct (decide (default "" (declared_team info) = team))
                as [<- | Hne].
              ** rewrite lookup_insert_eq. eauto.
              ** rewrite lookup_insert_ne by exact Hne. auto.
        -- repeat split; auto; try contradiction.
           ++ destruct (decide (default "" (declared_team info) = team)) as [<- | Hne].
              ** rewrite lookup_insert_eq. simpl. lia.
              ** rewrite lookup_insert_ne by exact Hne. exact H1.
           ++ intros Hq. destruct (decide (default "" (declared_team info) = team))
                as [<- | Hne].
              ** rewrite lookup_insert_eq. eauto.
              ** rewrite lookup_insert_ne by exact Hne. auto.
      * repeat split; auto. contradiction.
Qed.

End Moves.

(** *** Headcount totals and minimum requirements *)

Section Requirements.

Lemma sum_values_insert_fresh (m : gmap string Z) (team : string) (v : Z) :
  m !! team = None -> sum_values (<[team := v]> m) = sum_values m + v.
Proof.
  intros Hfresh. unfold sum_values.
  rewrite map_fold_insert_L; [reflexivity | | exact Hfresh].
  intros j1 j2 z1 z2 y _ _ _. lia.
Qed.

Lemma sum_values_insert (m : gmap string Z) (team : string) (old v : Z) :
  m !! team = Some old -> sum_values (<[team := v]> m) = sum_values m - old + v.
Proof.
  intros Hold.
  rewrite <- (insert_delete_id m team old Hold) at 2.
  rewrite <- insert_delete_eq.
  rewrite !sum_values_insert_fresh by apply lookup_delete_eq. lia.
Qed.

(** X18: [fine_tune_workforce] lowers the total headcount of a
    configuration by one or leaves the configuration as it is; when it
    lowers, the team drawn keeps at least 1 (quality) or 2 (mechanic). *)
Theorem fine_tune_workforce_step (config : configuration) (drawn : option string) :
  let tuned := fine_tune_workforce config drawn in
  tuned = config
  \/ (sum_values (mechanic tuned) + sum_values (quality tuned)
      = sum_values (mechanic config) + sum_values (quality config) - 1
      /\ exists team v,
           drawn = Some team
           /\ ((quality tuned !! team = Some v /\ 1 <= v
                /\ mechanic tuned = mechanic config)
               \/ (mechanic tuned !! team = Some v /\ 2 <= v
                   /\ quality tuned = quality config))).
Proof.
  unfold fine_tune_workforce. destruct drawn as [team |]; [| left; reflexivity].
  destruct (PyStr.contains "Quality" team && (1 <? default 0 (quality config !! team)))
    eqn:Hq.
  - right. apply andb_true_iff in Hq as [_ Hq]. apply Z.ltb_lt in Hq.
    destruct (quality config !! team) as [v |] eqn:Hv; simpl in Hq; [| lia].
    cbn [mechanic quality default]. split.
    + rewrite (sum_values_insert _ _ v) by exact Hv. simpl. lia.
    + exists team, (v - 1). split; [reflexivity |]. left.
      rewrite lookup_insert_eq. simpl. repeat split. lia.
  - destruct (mechanic config !! team) as [v |] eqn:Hv; [| left; reflexivity].
    destruct (2 <? v) eqn:Hlt; [| left; reflexivity].
    right. apply Z.ltb_lt in Hlt. cbn [mechanic quality]. split.
    + rewrite (sum_values_insert _ _ v) by exact Hv. lia.
    + exists team, (v - 1). split; [reflexivity |]. right.
      rewrite lookup_insert_eq. repeat split. lia.
Qed.

(** One step of the loops of [calculate_minimum_team_requirements]: the
    requirement of [team] is raised to [need] when [team] is known. *)
Definition raise_requirement (team : string) (need : Z) (acc : gmap string Z)
    : gmap string Z :=
  match acc !! team with
  | Some known => <[team := Z.max known need]> acc
  | None => acc
  end.

(** [acc'] has the teams of [acc], with requirements at least as high. *)
Definition requirements_le (acc acc' : gmap string Z) : Prop :=
  forall team,
    match acc !! team with
    | Some v => exists v', acc' !! team = Some v' /\ v <= v'
    | None => acc' !! team = None
    end.

Lemma requirements_le_refl (acc : gmap string Z) : requirements_le acc acc.
Proof.
  intros team. destruct (acc !! team) as [v |]; [| reflexivity].
  exists v. split; [reflexivity | lia].
Qed.

Lemma requirements_le_trans (a b c : gmap string Z) :
  requirements_le a b -> requirements_le b c -> requirements_le a c.
Proof.
  intros Hab Hbc team. specialize (Hab team). specialize (Hbc team).
  destruct (a !! team) as [v |].
  - destruct Hab as (v' & Hv' & Hle). rewrite Hv' in Hbc.
    destruct Hbc as (v'' & Hv'' & Hle'). exists v''. split; [exact Hv'' | lia].
  - rewrite Hab in Hbc. exact Hbc.
Qed.

Lemma raise_requirement_le (team : string) (need : Z) (acc : gmap string Z) :
  requirements_le acc (raise_requirement team need acc).
Proof.
  unfold raise_requirement. destruct (acc !! team) as [known |] eqn:Hk;
    [| apply requirements_le_refl].
  intros t. destruct (decide (team = t)) as [<- | Hne].
  - rewrite Hk, lookup_insert_eq. exists (Z.max known need). split; [reflexivity | lia].
  - rewrite lookup_insert_ne by exact Hne.
    destruct (acc !! t) as [v |]; [| reflexivity]. exists v. split; [reflexivity | lia].
Qed.

Lemma raise_requirement_covers (team : string) (need : Z) (acc : gmap string Z) :
  is_Some (acc !! team) ->
  exists v, raise_requirement team need acc !! team = Some v /\ need <= v.
Proof.
  intros [known Hk]. unfold raise_requirement. rewrite Hk, lookup_insert_eq.
  exists (Z.max known need). split; [reflexivity | lia].
Qed.

Definition known_teams (st : scheduler) : gmap string Z :=
  ((fun _ => 0) <$> quality_team_capacity st) ∪ ((fun _ => 0) <$> team_capacity st).

Lemma known_teams_lookup (st : scheduler) (team : string) :
  is_Some (known_teams st !! team)
  <-> is_Some (team_capacity st !! team) \/ is_Some (quality_team_capacity st !! team).
Proof.
  unfold known_teams. rewrite lookup_union_is_Some, !lookup_fmap, !fmap_is_Some. tauto.
Qed.

Lemma known_teams_zero (st : scheduler) (team : string) (v : Z) :
  known_teams st !! team = Some v -> v = 0.
Proof.
  unfold known_teams. intros H. apply lookup_union_Some_raw in H.
  rewrite !lookup_fmap in H.
  destruct H as [H | [_ H]];
    [destruct (quality_team_capacity st !! team) | destruct (team_capacity st !! team)];
    simpl in H; congruence.
Qed.

End Requirements.

Lemma minimum_requirements_folds (st : scheduler) :
  requirements_le (known_teams st) (calculate_minimum_team_requirements st)
  /\ (forall id info team,
        tasks st !! id = Some info ->
        declared_team info = Some team -> team <> "" ->
        is_Some (known_teams st !! team) ->
        exists v, calculate_minimum_team_requirements st !! team = Some v
                  /\ mechanics_required info <= v)
  /\ (forall id qi info name,
        quality_inspections st !! id = Some qi ->
        tasks st !! id = Some info ->
        team info = Some name -> name <> "" ->
        is_Some (known_teams st !! name) ->
        exists v, calculate_minimum_team_requirements st !! name = Some v
                  /\ headcount qi <= v).
Proof.
  unfold calculate_minimum_team_requirements. fold (known_teams st).
  set (step1 := fun (_ : string) (task_info : task_info) (acc : gmap string Z) =>
         if PyStr.truthy (declared_team task_info) then
           match acc !! default "" (declared_team task_info) with
           | Some known =>
               <[default "" (declared_team task_info) :=
                   Z.max known (mechanics_required task_info)]> acc
           | None => acc
           end
         else acc).
  set (step2 := fun (qi_id : string) (qi_info : qi_info) (acc : gmap string Z) =>
         match tasks st !! qi_id with
         | Some info =>
             if PyStr.truthy (team info) then
               match acc !! default "" (team info) with
               | Some known =>
                   <[default "" (team info) := Z.max known (headcount qi_info)]> acc
               | None => acc
               end
             else acc
         | None => acc
         end).
  assert (Htruthy : forall team, team <> "" -> PyStr.truthy (Some team) = true).
  { intros team Hne. unfold PyStr.truthy. apply negb_true_iff, String.eqb_neq.
    exact Hne. }
  assert (H1 : requirements_le (known_teams st) (map_fold step1 (known_teams st) (tasks st))
               /\ forall id info team,
                    tasks st !! id = Some info ->
                    declared_team info = Some team -> team <> "" ->
                    is_Some (known_teams st !! team) ->
                    exists v, map_fold step1 (known_teams st) (tasks st) !! team = Some v
                              /\ mechanics_required info <= v).
  { apply (map_fold_weak_ind
             (fun (acc : gmap string Z) (m : gmap string task_info) =>
                requirements_le (known_teams st) acc
                /\ forall id info team,
                     m !! id = Some info ->
                     declared_team info = Some team -> team <> "" ->
                     is_Some (known_teams st !! team) ->
                     exists v, acc !! team = Some v /\ mechanics_required info <= v)).
    - split; [apply requirements_le_refl |]. intros id info team H.
      rewrite lookup_empty in H. discriminate.
    - intros id info m acc Hfresh [Hle Hcov].
      assert (Hstep : requirements_le acc (step1 id info acc)).
      { unfold step1. destruct (PyStr.truthy (declared_team info));
          [| apply requirements_le_refl].
        apply (raise_requirement_le (default "" (declared_team info))
                 (mechanics_required info) acc). }
      split; [eapply requirements_le_trans; eauto |].
      intros id' info' team Hin Hteam Hne Hknown.
      rewrite lookup_insert in Hin. case_decide as Hid.
      + injection Hin as ->. unfold step1. rewrite Hteam, (Htruthy team Hne).
        cbn [default].
        apply (raise_requirement_covers team (mechanics_required info') acc).
        destruct Hknown as [v0 Hv0]. specialize (Hle team). rewrite Hv0 in Hle.
        destruct Hle as (v' & Hv' & _). eauto.
      + destruct (Hcov id' info' team Hin Hteam Hne Hknown) as (v & Hv & Hle').
        specialize (Hstep team). rewrite Hv in Hstep.
        destruct Hstep as (v' & Hv' & Hle''). exists v'. split; [exact Hv' | lia]. }
  destruct H1 as [Hle1 Hcov1].
  set (by_tasks := map_fold step1 (known_teams st) (tasks st)) in *.
  assert (H2 : requirements_le by_tasks (map_fold step2 by_tasks (quality_inspections st))
               /\ forall id qi info name,
                    quality_inspections st !! id = Some qi ->
                    tasks st !! id = Some info ->
                    team info = Some name -> name <> "" ->
                    is_Some (known_teams st !! name) ->
                    exists v, map_fold step2 by_tasks (quality_inspections st) !! name
                              = Some v /\ headcount qi <= v).
  { apply (map_fold_weak_ind
             (fun (acc : gmap string Z) (m : gmap string qi_info) =>
                requirements_le by_tasks acc
                /\ forall id qi info name,
                     m !! id = Some qi ->
                     tasks st !! id = Some info ->
                     team info = Some name -> name <> "" ->
                     is_Some (known_teams st !! name) ->
                     exists v, acc !! name = Some v /\ headcount qi <= v)).
    - split; [apply requirements_le_refl |]. intros id qi info team H.
      rewrite lookup_empty in H. discriminate.
    - intros id qi m acc Hfresh [Hacc Hcov].
      assert (Hstep : requirements_le acc (step2 id qi acc)).
      { unfold step2. destruct (tasks st !! id) as [info |];
          [| apply requirements_le_refl].
        destruct (PyStr.truthy (team info)); [| apply requirements_le_refl].
        apply (raise_requirement_le (default "" (team info)) (headcount qi) acc). }
      split; [eapply requirements_le_trans; eauto |].
      intros id' qi' info' team Hin Hinfo Hteam Hne Hknown.
      rewrite lookup_insert in Hin. case_decide as Hid.
      + injection Hin as ->. subst id'. unfold step2.
        rewrite Hinfo, Hteam, (Htruthy team Hne). cbn [default].
        apply (raise_requirement_covers team (headcount qi') acc).
        destruct Hknown as [v0 Hv0].
        pose proof (requirements_le_trans _ _ _ Hle1 Hacc team) as Hk.
        rewrite Hv0 in Hk. destruct Hk as (v' & Hv' & _). eauto.
      + destruct (Hcov id' qi' info' team Hin Hinfo Hteam Hne Hknown) as (v & Hv & Hle').
        specialize (Hstep team). rewrite Hv in Hstep.
        destruct Hstep as (v' & Hv' & Hle''). exists v'. split; [exact Hv' | lia]. }
  destruct H2 as [Hle2 Hcov2].
  split; [eapply requirements_le_trans; eauto |]. split; [| exact Hcov2].
  intros id info team Hin Hteam Hne Hknown.
  destruct (Hcov1 id info team Hin Hteam Hne Hknown) as (v & Hv & Hlev).
  specialize (Hle2 team). rewrite Hv in Hle2.
  destruct Hle2 as (v' & Hv' & Hle'). exists v'. split; [exact Hv' | lia].
Qed.

(** X19: [calculate_minimum_team_requirements] has an entry for exactly
    the teams of the two capacity tables, none of them negative; the
    entry of a team is at least the headcount of every task that
    declares the team and of every quality inspection whose task has
    the team. *)
Theorem minimum_requirements_cover_tasks (st : scheduler) :
  (forall team,
      is_Some (calculate_minimum_team_requirements st !! team)
      <-> is_Some (team_capacity st !! team)
          \/ is_Some (quality_team_capacity st !! team))
  /\ (forall team v, calculate_minimum_team_requirements st !! team = Some v -> 0 <= v)
  /\ (forall id info team,
        tasks st !! id = Some info ->
        declared_team info = Some team ->
        team <> "" ->
        is_Some (team_capacity st !! team) \/ is_Some (quality_team_capacity st !! team) ->
        exists v, calculate_minimum_team_requirements st !! team = Some v
                  /\ mechanics_required info <= v)
  /\ forall id qi info name,
       quality_inspections st !! id = Some qi ->
       tasks st !! id = Some info ->
       team info = Some name ->
       name <> "" ->
       is_Some (team_capacity st !! name) \/ is_Some (quality_team_capacity st !! name) ->
       exists v, calculate_minimum_team_requirements st !! name = Some v
                 /\ headcount qi <= v.
Proof.
  destruct (minimum_requirements_folds st) as (Hle & Htasks & Hqi).
  split; [| split; [| split]].
  - intros team. rewrite <- known_teams_lookup. specialize (Hle team).
    destruct (known_teams st !! team) as [v |].
    + destruct Hle as (v' & Hv' & _). rewrite Hv'. split; eauto.
    + rewrite Hle. tauto.
  - intros team v Hv. specialize (Hle team).
    destruct (known_teams st !! team) as [v0 |] eqn:Hv0.
    + apply known_teams_zero in Hv0. destruct Hle as (v' & Hv' & Hle').
      rewrite Hv in Hv'. injection Hv' as <-. lia.
    + rewrite Hle in Hv. discriminate.
  - intros id info team Hin Hteam Hne Hknown.
    apply known_teams_lookup in Hknown. eauto.
  - intros id qi info team Hqi' Hin Hteam Hne Hknown.
    apply known_teams_lookup in Hknown. eauto.
Qed.

(** X20: [initialize_moderate_capacity] gives a capacity to exactly the
    teams of the stored originals: at least 5 for a mechanic team and at
    least 3 for a quality team, and, for a mechanic team of the capacity
    tables, at least 2 more than the headcount of every task that
    declares the team. *)
Theorem initialize_moderate_capacity_covers (st : scheduler) :
  (forall team,
      is_Some (mechanic (initialize_moderate_capacity st) !! team)
      <-> is_Some (_original_team_capacity st !! team))
  /\ (forall team,
        is_Some (quality (initialize_moderate_capacity st) !! team)
        <-> is_Some (_original_quality_capacity st !! team))
  /\ (forall team c, mechanic (initialize_moderate_capacity st) !! team = Some c -> 5 <= c)
  /\ (forall team c, quality (initialize_moderate_capacity st) !! team = Some c -> 3 <= c)
  /\ forall id info team c,
       mechanic (initialize_moderate_capacity st) !! team = Some c ->
       tasks st !! id = Some info ->
       declared_team info = Some team ->
       team <> "" ->
       is_Some (team_capacity st !! team) \/ is_Some (quality_team_capacity st !! team) ->
       mechanics_required info + 2 <= c.
Proof.
  unfold initialize_moderate_capacity. cbn [mechanic quality].
  split; [| split; [| split; [| split]]].
  - intros team. rewrite map_lookup_imap.
    destruct (_original_team_capacity st !! team); simpl; split; intros [v Hv];
      eauto; discriminate.
  - intros team. rewrite map_lookup_imap.
    destruct (_original_quality_capacity st !! team); simpl; split; intros [v Hv];
      eauto; discriminate.
  - intros team c. rewrite map_lookup_imap.
    destruct (_original_team_capacity st !! team); simpl; [| discriminate].
    intros [= <-]. lia.
  - intros team c. rewrite map_lookup_imap.
    destruct (_original_quality_capacity st !! team); simpl; [| discriminate].
    intros [= <-]. lia.
  - intros id info team c. rewrite map_lookup_imap.
    destruct (_original_team_capacity st !! team); simpl; [| discriminate].
    intros [= <-] Hin Hteam Hne Hknown.
    apply known_teams_lookup in Hknown.
    destruct (proj1 (proj2 (minimum_requirements_folds st))
                id info team Hin Hteam Hne Hknown) as (v & Hv & Hle).
    rewrite Hv. simpl. lia.
Qed.

(** ** Queueing the successors that became ready *)

Section PushPermutation.

Context {A : Type}.
Variable lt : A -> A -> bool.

Lemma siftdown_loop_perm (fuel : nat) (heap : list A) (newitem : A)
    (startpos pos : nat) :
  (pos < length heap)%nat ->
  let '(heap', pos') := heapq._siftdown_loop lt fuel heap newitem startpos pos in
  <[pos' := newitem]> heap' ≡ₚ <[pos := newitem]> heap.
Proof.
  assert (Hstop : forall (h : list A) (p : nat),
            (let '(heap', pos') := (h, p) in
             <[pos' := newitem]> heap' ≡ₚ <[p := newitem]> h)).
  { intros h p. reflexivity. }
  revert heap pos. induction fuel as [| f IH]; intros heap pos Hlen; [apply Hstop |].
  cbn [heapq._siftdown_loop].
  destruct (startpos <? pos)%nat eqn:Hpos; [| apply Hstop].
  apply Nat.ltb_lt in Hpos.
  assert (Hpp : ((pos - 1) / 2 < pos)%nat).
  { apply Nat.Div0.div_lt_upper_bound. lia. }
  destruct (heap !! ((pos - 1) / 2)%nat) as [parent |] eqn:Hparent; [| apply Hstop].
  destruct (lt newitem parent); [| apply Hstop].
  specialize (IH (<[pos := parent]> heap) ((pos - 1) / 2)%nat).
  rewrite length_insert in IH. specialize (IH ltac:(lia)).
  destruct (heapq._siftdown_loop lt f (<[pos := parent]> heap) newitem startpos
              ((pos - 1) / 2)%nat) as [heap' pos'].
  rewrite IH.
  rewrite <- (list_insert_insert_eq heap pos parent newitem) at 1.
  apply insert_swap_perm.
  - apply list_lookup_insert_eq. exact Hlen.
  - rewrite list_lookup_insert_ne by lia. exact Hparent.
Qed.

(** [heappush] adds exactly the item, whatever the order of the list. *)
Lemma heappush_perm (heap : list A) (item : A) :
  heapq.heappush lt heap item ≡ₚ item :: heap.
Proof.
  unfold heapq.heappush, heapq._siftdown.
  assert (Hlast : (heap ++ [item])%list !! length heap = Some item).
  { rewrite lookup_app_r by lia. rewrite Nat.sub_diag. reflexivity. }
  rewrite Hlast.
  pose proof (siftdown_loop_perm (S (length heap)) (heap ++ [item])%list item 0
                (length heap)) as H.
  specialize (H ltac:(rewrite length_app; simpl; lia)).
  destruct (heapq._siftdown_loop lt (S (length heap)) (heap ++ [item])%list item 0
              (length heap)) as [heap' pos'].
  change (<[pos' := item]> heap' ≡ₚ item :: heap).
  change (<[pos' := item]> heap' ≡ₚ <[length heap := item]> (heap ++ [item])%list) in H.
  rewrite H, list_insert_id by exact Hlast.
  symmetry. apply Permutation_cons_append.
Qed.

Lemma heappush_In (heap : list A) (item x : A) :
  In x (heapq.heappush lt heap item) <-> x = item \/ In x heap.
Proof.
  rewrite <- !list_elem_of_In, (heappush_perm heap item), elem_of_cons. reflexivity.
Qed.

End PushPermutation.

Section Readiness.

Variable compose_dynamic_constraints : scheduler -> list constraint.
Variable now : Z.

Local Arguments calculate_task_priority : simpl never.
Local Arguments heapq.heappush : simpl never.

(** The successor [dep] of the task [id] is ready: it has no record, it
    has not failed, and the first task of every constraint that ends in
    it has a record. *)
Definition became_ready (cs : list constraint) (id : string) (ls : loop_state)
    (dep : string) : Prop :=
  task_schedule (self ls) !! dep = None
  /\ dep ∉ failed_tasks ls
  /\ (exists c, In c cs /\ First c = id /\ Second c = dep)
  /\ forall c, In c cs -> Second c = dep ->
               is_Some (task_schedule (self ls) !! First c).

(** X23: the loop that queues the successors of a task just placed adds to
    the ready queue only successors of that task that have no record,
    have not failed, and whose every constraint has a first task with a
    record; it removes nothing from the queue. *)
Theorem push_dependents_queues_ready
    (cs : list constraint) (id : string) (ls ls' : loop_state) (r : res unit)
    (priority : Q) (dep : string) :
  push_dependents compose_dynamic_constraints now cs id ls = (r, ls') ->
  (In (priority, dep) (ready_tasks ls) -> In (priority, dep) (ready_tasks ls'))
  /\ (In (priority, dep) (ready_tasks ls') ->
      In (priority, dep) (ready_tasks ls) \/ became_ready cs id ls dep).
Proof.
  unfold push_dependents.
  assert (Hsub : forall c, In c (constraints_by_first cs id) -> In c cs /\ First c = id).
  { intros c Hc. unfold constraints_by_first in Hc. apply filter_In in Hc as [H1 H2].
    apply String.eqb_eq in H2. auto. }
  revert Hsub. generalize (constraints_by_first cs id). intros l Hsub.
  match goal with |- context [fold_left ?f l _] => set (step := f) end.
  assert (Hgen : forall acc : res unit * loop_state,
    (task_schedule (self (snd acc)) = task_schedule (self ls)
     /\ failed_tasks (snd acc) = failed_tasks ls
     /\ (In (priority, dep) (ready_tasks ls) -> In (priority, dep) (ready_tasks (snd acc)))
     /\ (In (priority, dep) (ready_tasks (snd acc)) ->
         In (priority, dep) (ready_tasks ls) \/ became_ready cs id ls dep)) ->
    let acc' := fold_left step l acc in
    (In (priority, dep) (ready_tasks ls) -> In (priority, dep) (ready_tasks (snd acc')))
    /\ (In (priority, dep) (ready_tasks (snd acc')) ->
        In (priority, dep) (ready_tasks ls) \/ became_ready cs id ls dep)).
  { induction l as [| c rest IH]; intros acc (Hs & Hf & Hkeep & Hnew); cbn [fold_left].
    - split; assumption.
    - apply IH; [intros c' Hc'; apply Hsub; right; exact Hc' |].
      destruct (Hsub c (or_introl eq_refl)) as [Hc Hfirst].
      unfold step at 1 2 3 4. destruct acc as [[[] |] ls1]; cbn [snd] in *;
        [| repeat split; assumption].
      destruct (bool_decide (is_Some (task_schedule (self ls1) !! Second c))
                || bool_decide (Second c ∈ failed_tasks ls1)) eqn:Hskip;
        [cbn [snd]; repeat split; assumption |].
      destruct (forallb _ _ && negb _) eqn:Hready;
        [| cbn [snd]; repeat split; assumption].
      apply orb_false_iff in Hskip as [Hnone Hnf].
      apply bool_decide_eq_false in Hnone, Hnf.
      apply andb_true_iff in Hready as [Hall _].
      assert (Hdep : became_ready cs id ls (Second c)).
      { unfold became_ready. rewrite <- Hs, <- Hf. split.
        - destruct (task_schedule (self ls1) !! Second c) eqn:E; [| reflexivity].
          exfalso. apply Hnone. eauto.
        - split; [exact Hnf |]. split; [exists c; auto |].
          intros c' Hc' Hsec.
          rewrite forallb_forall in Hall.
          assert (Hin : In c' (constraints_by_second cs (Second c))).
          { unfold constraints_by_second. apply filter_In. split; [exact Hc' |].
            apply String.eqb_eq. exact Hsec. }
          apply Hall in Hin. apply bool_decide_eq_true in Hin. exact Hin. }
      destruct (calculate_task_priority compose_dynamic_constraints now recursion_limit
                  (self ls1) (Second c)) as [[p |] st1] eqn:Hp.
      + apply calculate_task_priority_caches, caches_only_schedule in Hp.
        cbn [snd self ready_tasks failed_tasks with_ready_tasks with_self].
        split; [congruence |]. split; [exact Hf |]. split.
        * intros H. apply heappush_In. right. auto.
        * intros H. apply heappush_In in H as [[= -> ->] | H]; [right; exact Hdep | auto].
      + apply calculate_task_priority_caches, caches_only_schedule in Hp.
        cbn [snd self ready_tasks failed_tasks with_self].
        split; [congruence |]. repeat split; assumption. }
  intros Hrun. specialize (Hgen (Ok tt, ls)). rewrite Hrun in Hgen. apply Hgen.
  cbn [snd]. repeat split; auto.
Qed.

End Readiness.

(** Example data: the production task is placed and nothing is
    queued. *)
Definition inspection_placed : loop_state :=
  {| self := inspection_example true;
     ready_tasks := []; scheduled_count := 1; iteration_count := 1;
     failed_tasks := ∅; task_retry_counts := ∅ |}.

Lemma push_dependents_queues_ready_witness :
  exists priority,
    In (priority, "A_QI_1")
       (ready_tasks (snd (push_dependents (fun _ => []) start_date
                            [ {| First := "A_1"; Second := "A_QI_1";
                                 Relationship := "Finish = Start" |} ]
                            "A_1" inspection_placed)))
    /\ became_ready [ {| First := "A_1"; Second := "A_QI_1";
                         Relationship := "Finish = Start" |} ]
                    "A_1" inspection_placed "A_QI_1".
Proof.
  assert (Hq : exists q,
            In (q, "A_QI_1")
               (ready_tasks (snd (push_dependents (fun _ => []) start_date
                                    [ {| First := "A_1"; Second := "A_QI_1";
                                         Relationship := "Finish = Start" |} ]
                                    "A_1" inspection_placed)))).
  { eexists. vm_compute. left. reflexivity. }
  destruct Hq as [q Hq]. exists q. split; [exact Hq |].
  destruct (proj2 (push_dependents_queues_ready (fun _ => []) start_date
                     [ {| First := "A_1"; Second := "A_QI_1";
                          Relationship := "Finish = Start" |} ]
                     "A_1" inspection_placed _ _ q "A_QI_1"
                     (surjective_pairing _)) Hq) as [[] | H].
  exact H.
Defined.

(** *** The binary search of scenario 2 *)

Section BinarySearch.

Variable compose_dynamic_constraints : scheduler -> list constraint.
Variable now : Z.
Variables (min_mechanics max_mechanics min_quality max_quality : Z).

(** The bounds of the search and the best capacities found so far lie
    in the requested ranges. *)
Definition within_ranges (s : search_state) : Prop :=
  min_mechanics <= mech_low s /\ mech_high s <= max_mechanics
  /\ min_quality <= qual_low s /\ qual_high s <= max_quality
  /\ forall best_makespan mechanics quality_capacity metrics,
       best s = Some (best_makespan, mechanics, quality_capacity, metrics) ->
       min_mechanics <= mechanics <= max_mechanics
       /\ min_quality <= quality_capacity <= max_quality.

Lemma s2_iteration_within (s : search_state) :
  mech_low s <= mech_high s -> qual_low s <= qual_high s ->
  within_ranges s ->
  within_ranges (s2_iteration compose_dynamic_constraints now s).
Proof.
  intros Hm Hq (A1 & A2 & A3 & A4 & A5).
  assert (Hmid : mech_low s <= (mech_low s + mech_high s) / 2 <= mech_high s).
  { split; [apply Z.div_le_lower_bound | apply Z.div_le_upper_bound]; lia. }
  assert (Hqid : qual_low s <= (qual_low s + qual_high s) / 2 <= qual_high s).
  { split; [apply Z.div_le_lower_bound | apply Z.div_le_upper_bound]; lia. }
  unfold s2_iteration.
  destruct (generate_global_priority_list compose_dynamic_constraints now true _)
    as [[[] |] st1].
  - destruct (_ =? _)%nat.
    + unfold within_ranges.
      cbn [mech_low mech_high qual_low qual_high best].
      repeat (split; [lia |]).
      intros bm m q met.
      destruct (match best s with
                | Some (best_makespan, _, _, _) => calculate_makespan st1 <? best_makespan
                | None => true
                end).
      * intros [= <- <- <- <-]. lia.
      * apply A5.
    + unfold within_ranges.
      cbn [mech_low mech_high qual_low qual_high best].
      repeat (split; [lia |]). exact A5.
  - unfold within_ranges.
    cbn [mech_low mech_high qual_low qual_high best].
    repeat (split; [lia |]). exact A5.
Qed.

Lemma s2_loop_within (fuel : nat) (s : search_state) :
  mech_low s <= mech_high s -> qual_low s <= qual_high s ->
  within_ranges s ->
  within_ranges (s2_loop compose_dynamic_constraints now fuel s).
Proof.
  revert s. induction fuel as [| f IH]; intros s Hm Hq Hs; cbn [s2_loop]; [exact Hs |].
  pose proof (s2_iteration_within s Hm Hq Hs) as H1.
  destruct ((mech_high (s2_iteration compose_dynamic_constraints now s)
             <? mech_low (s2_iteration compose_dynamic_constraints now s))
            || (qual_high (s2_iteration compose_dynamic_constraints now s)
                <? qual_low (s2_iteration compose_dynamic_constraints now s))) eqn:Hstop;
    [exact H1 |].
  apply orb_false_iff in Hstop as [Hs1 Hs2].
  apply IH; [lia | lia | exact H1].
Qed.

Lemma report_in_ranges (s : search_state) (st' : scheduler)
    (mechanics quality_capacity makespan total : Z)
    (metrics : gmap string product_metrics) :
  within_ranges s ->
  match best s with
  | Some (best_makespan, mechanics, quality_capacity, best_metrics) =>
      Some (mechanics, quality_capacity, best_makespan, best_metrics,
            mechanics * Z.of_nat (size (team_capacity st'))
            + quality_capacity * Z.of_nat (size (quality_team_capacity st')))
  | None => None
  end = Some (mechanics, quality_capacity, makespan, metrics, total) ->
  min_mechanics <= mechanics <= max_mechanics
  /\ min_quality <= quality_capacity <= max_quality
  /\ total = mechanics * Z.of_nat (size (team_capacity st'))
             + quality_capacity * Z.of_nat (size (quality_team_capacity st')).
Proof.
  intros (_ & _ & _ & _ & Hbest).
  destruct (best s) as [[[[bm m] q] met] |]; [| discriminate].
  intros [= <- <- <- <- <-].
  destruct (Hbest bm m q met eq_refl) as [H1 H2].
  split; [exact H1 |]. split; [exact H2 |]. reflexivity.
Qed.

Lemma within_ranges_start (st : scheduler) :
  within_ranges {| s2_self := st;
                   mech_low := min_mechanics; mech_high := max_mechanics;
                   qual_low := min_quality; qual_high := max_quality;
                   best := None |}.
Proof.
  unfold within_ranges. cbn [mech_low mech_high qual_low qual_high best].
  repeat (split; [lia |]). discriminate.
Qed.

Lemma scenario_2_result (st : scheduler) :
  snd (scenario_2_minimize_makespan compose_dynamic_constraints now
         min_mechanics max_mechanics min_quality max_quality st)
  = match best (s2_loop compose_dynamic_constraints now 20
                  {| s2_self := st;
                     mech_low := min_mechanics; mech_high := max_mechanics;
                     qual_low := min_quality; qual_high := max_quality;
                     best := None |}) with
    | Some (best_makespan, mechanics, quality_capacity, best_metrics) =>
        Some (mechanics, quality_capacity, best_makespan, best_metrics,
              mechanics
              * Z.of_nat (size (team_capacity
                                  (fst (scenario_2_minimize_makespan
                                          compose_dynamic_constraints now min_mechanics
                                          max_mechanics min_quality max_quality st))))
              + quality_capacity
                * Z.of_nat (size (quality_team_capacity
                                    (fst (scenario_2_minimize_makespan
                                            compose_dynamic_constraints now
                                            min_mechanics max_mechanics min_quality
                                            max_quality st)))))
    | None => None
    end.
Proof. reflexivity. Qed.

End BinarySearch.

(** X24: the capacities that [scenario_2_minimize_makespan] reports lie in
    the requested ranges, and the reported total is the mechanic
    capacity for every mechanic team plus the quality capacity for
    every quality team. *)
Theorem scenario_2_result_in_ranges
    (compose_dynamic_constraints : scheduler -> list constraint) (now : Z)
    (min_mechanics max_mechanics min_quality max_quality : Z) (st : scheduler)
    (mechanics quality_capacity makespan total : Z)
    (metrics : gmap string product_metrics) :
  min_mechanics <= max_mechanics ->
  min_quality <= max_quality ->
  snd (scenario_2_minimize_makespan compose_dynamic_constraints now
         min_mechanics max_mechanics min_quality max_quality st)
    = Some (mechanics, quality_capacity, makespan, metrics, total) ->
  min_mechanics <= mechanics <= max_mechanics
  /\ min_quality <= quality_capacity <= max_quality
  /\ total
     = mechanics
       * Z.of_nat (size (team_capacity
                           (fst (scenario_2_minimize_makespan
                                   compose_dynamic_constraints now min_mechanics
                                   max_mechanics min_quality max_quality st))))
       + quality_capacity
         * Z.of_nat (size (quality_team_capacity
                             (fst (scenario_2_minimize_makespan
                                     compose_dynamic_constraints now min_mechanics
                                     max_mechanics min_quality max_quality st)))).
Proof.
  intros Hm Hq H. rewrite scenario_2_result in H.
  revert H.
  apply (report_in_ranges min_mechanics max_mechanics min_quality max_quality).
  apply s2_loop_within; [exact Hm | exact Hq | apply within_ranges_start].
Qed.

Lemma scenario_2_result_in_ranges_witness :
  exists mechanics quality_capacity makespan metrics total,
    snd (scenario_2_minimize_makespan (fun _ => []) start_date 1 4 1 3 late_part_example)
      = Some (mechanics, quality_capacity, makespan, metrics, total)
    /\ 1 <= mechanics <= 4 /\ 1 <= quality_capacity <= 3
    /\ total
       = mechanics
         * Z.of_nat (size (team_capacity
                             (fst (scenario_2_minimize_makespan (fun _ => []) start_date
                                     1 4 1 3 late_part_example))))
         + quality_capacity
           * Z.of_nat (size (quality_team_capacity
                               (fst (scenario_2_minimize_makespan (fun _ => []) start_date
                                       1 4 1 3 late_part_example)))).
Proof.
  destruct (snd (scenario_2_minimize_makespan (fun _ => []) start_date 1 4 1 3
                   late_part_example))
    as [[[[[mechanics quality_capacity] makespan] metrics] total] |] eqn:H.
  - exists mechanics, quality_capacity, makespan, metrics, total.
    split; [reflexivity |].
    apply (scenario_2_result_in_ranges (fun _ => []) start_date 1 4 1 3 late_part_example
             mechanics quality_capacity makespan total metrics); [lia | lia | exact H].
  - exfalso. vm_compute in H. discriminate H.
Defined.

(** ** The suggested window of a constraint *)

(** The second record moved to another window. *)
Definition moved_to (schedule : sched_rec) (new_start new_end : Z) : sched_rec :=
  {| start_time := new_start; end_time := new_end;
     rec_team := rec_team schedule; rec_team_skill := rec_team_skill schedule;
     rec_skill := rec_skill schedule; rec_product := rec_product schedule;
     rec_duration := rec_duration schedule;
     rec_mechanics_required := rec_mechanics_required schedule;
     rec_is_quality := rec_is_quality schedule;
     rec_is_customer := rec_is_customer schedule;
     rec_task_type := rec_task_type schedule; shift := shift schedule |}.

(** X25: the window that [check_constraint_satisfied] suggests for the
    second task satisfies the constraint: with the second task moved to
    the suggested start and end, the check answers True, whatever the
    relationship. *)
Theorem suggested_window_satisfies
    (first_schedule second_schedule : sched_rec) (relationship : option string)
    (earliest_start earliest_end : Z) :
  snd (fst (check_constraint_satisfied (Some first_schedule) (Some second_schedule)
              relationship)) = Some earliest_start ->
  snd (check_constraint_satisfied (Some first_schedule) (Some second_schedule)
         relationship) = Some earliest_end ->
  fst (fst (check_constraint_satisfied
              (Some first_schedule)
              (Some (moved_to second_schedule earliest_start earliest_end))
              relationship)) = true.
Proof.
  unfold check_constraint_satisfied.
  repeat match goal with
         | |- context [String.eqb ?a ?b] => destruct (String.eqb a b)
         end;
    cbn [fst snd moved_to start_time end_time rec_duration];
    intros [= <-] [= <-];
    first [ apply Z.leb_le; lia | apply Z.ltb_lt; lia ].
Qed.

Lemma suggested_window_satisfies_witness :
  fst (fst (check_constraint_satisfied
              (Some (sample_record 0 10))
              (Some (moved_to (sample_record 5 15) 10 (10 + DateTime.minutes 60)))
              (Some "FS"))) = true.
Proof.
  apply (suggested_window_satisfies (sample_record 0 10) (sample_record 5 15) (Some "FS"));
    reflexivity.
Defined.

(** ** The memo of the critical path lengths *)

Section CriticalPathMemo.

Variable compose_dynamic_constraints : scheduler -> list constraint.

Lemma get_path_length_stores (fuel : nat) (all_tasks : gmap string task_info)
    (cs : list constraint) (task : string) (cache cache' : gmap string Z) (v : Z) :
  get_path_length fuel all_tasks cs task cache = (Ok v, cache') ->
  cache' !! task = Some v.
Proof.
  destruct fuel as [| f]; cbn [get_path_length]; [discriminate |].
  destruct (cache !! task) as [known |] eqn:Hc.
  - intros [= <- <-]. exact Hc.
  - destruct (all_tasks !! task) as [info |]; [| discriminate].
    destruct (fold_left _ cs (Ok 0, cache)) as [[m |] c1]; [| discriminate].
    intros [= <- <-]. apply lookup_insert_eq.
Qed.

Lemma get_path_length_grows (fuel : nat) (all_tasks : gmap string task_info)
    (cs : list constraint) (task : string) (cache cache' : gmap string Z) (r : res Z) :
  get_path_length fuel all_tasks cs task cache = (r, cache') ->
  forall k x, cache !! k = Some x -> cache' !! k = Some x.
Proof.
  revert task cache cache' r.
  induction fuel as [| f IH]; intros task cache cache' r; cbn [get_path_length].
  - intros [= <- <-]. auto.
  - destruct (cache !! task) as [known |] eqn:Hc; [intros [= <- <-]; auto |].
    destruct (all_tasks !! task) as [info |]; [| intros [= <- <-]; auto].
    match goal with |- context [fold_left ?g cs _] => set (visit := g) end.
    assert (Hfold : forall l (acc : res Z * gmap string Z),
              forall k x, snd acc !! k = Some x -> snd (fold_left visit l acc) !! k = Some x).
    { induction l as [| c l IHl]; intros acc k x Hk; cbn [fold_left]; [exact Hk |].
      apply IHl. unfold visit at 1. destruct acc as [[m |] c1]; [| exact Hk].
      destruct (String.eqb (First c) task && bool_decide (is_Some (all_tasks !! Second c)));
        [| exact Hk].
      destruct (get_path_length f all_tasks cs (Second c) c1) as [[p |] c2] eqn:Hg;
        cbn [snd] in *; eapply IH; eauto. }
    intros H k x Hk.
    pose proof (Hfold cs (Ok 0, cache) k x Hk) as Hkept.
    destruct (fold_left visit cs (Ok 0, cache)) as [[m |] c1]; cbn [snd] in Hkept;
      injection H as <- <-; [| exact Hkept].
    rewrite lookup_insert_ne; [exact Hkept |].
    intros ->. congruence.
Qed.

(** X26: [calculate_critical_path_length] only adds to its memo, and a
    length it returns is stored under the task, so that asking again
    returns the same length and changes nothing. *)
Theorem critical_path_length_memoised (st st' : scheduler) (task_instance_id : string)
    (r : res Z) :
  calculate_critical_path_length compose_dynamic_constraints st task_instance_id
    = (r, st') ->
  (forall task known,
      _critical_path_cache st !! task = Some known ->
      _critical_path_cache st' !! task = Some known)
  /\ forall length,
       r = Ok length ->
       _critical_path_cache st' !! task_instance_id = Some length
       /\ calculate_critical_path_length compose_dynamic_constraints st' task_instance_id
          = (Ok length, st').
Proof.
  unfold calculate_critical_path_length at 1.
  destruct (_critical_path_cache st !! task_instance_id) as [known |] eqn:Hc.
  - intros [= <- <-]. split; [auto |].
    intros length [= <-]. split; [exact Hc |].
    unfold calculate_critical_path_length. rewrite Hc. reflexivity.
  - destruct (build_dynamic_dependencies compose_dynamic_constraints st)
      as [cs st1] eqn:Hb.
    assert (Hsame : _critical_path_cache st1 = _critical_path_cache st).
    { unfold build_dynamic_dependencies in Hb.
      destruct (_dynamic_constraints_cache st); injection Hb as <- <-; reflexivity. }
    destruct (get_path_length recursion_limit (tasks st1) cs task_instance_id
                (_critical_path_cache st1)) as [r' cache] eqn:Hg.
    intros [= <- <-].
    assert (Hcache : _critical_path_cache (set_critical_path_cache cache st1) = cache)
      by reflexivity.
    split.
    + intros task known Hk. rewrite Hcache.
      eapply get_path_length_grows; [exact Hg |]. rewrite Hsame. exact Hk.
    + intros length ->.
      pose proof (get_path_length_stores _ _ _ _ _ _ _ Hg) as Hs.
      split; [rewrite Hcache; exact Hs |].
      unfold calculate_critical_path_length. rewrite Hcache, Hs. reflexivity.
Qed.

End CriticalPathMemo.

Lemma critical_path_length_memoised_witness :
  _critical_path_cache
    (snd (calculate_critical_path_length (fun _ => []) late_part_example "LP_1"))
    !! "LP_1" = Some 60.
Proof.
  refine (proj1 (proj2 (critical_path_length_memoised (fun _ => []) late_part_example _
                          "LP_1" _ (surjective_pairing _)) 60 _)).
  reflexivity.
Defined.

(** ** A constraint on an undefined task *)

Section RejectedRun.

Variable compose_dynamic_constraints : scheduler -> list constraint.
Variable now : Z.

Local Opaque recursion_limit.

(** X27: when a constraint of the run names a task that is not defined, a
    run of [schedule_tasks] that is not silent raises, and leaves the
    schedule empty. *)
Theorem schedule_tasks_rejects_undefined_task (st : scheduler) (c : constraint) :
  In c (run_constraints compose_dynamic_constraints st) ->
  tasks st !! First c = None \/ tasks st !! Second c = None ->
  fst (schedule_tasks compose_dynamic_constraints now false st) = Raise
  /\ task_schedule (snd (schedule_tasks compose_dynamic_constraints now false st)) = ∅.
Proof.
  intros Hc Hmissing.
  unfold schedule_tasks. cbv zeta.
  change (set_critical_path_cache ∅ (set_task_schedule ∅ st)) with (cleared st).
  destruct (validate_dag compose_dynamic_constraints (cleared st)) as [valid st1] eqn:Hv.
  pose proof (validate_dag_caches _ _ _ _ Hv) as Hcaches.
  assert (Hvalid : valid = Ok false).
  { unfold validate_dag in Hv. unfold run_constraints in Hc.
    destruct (build_dynamic_dependencies compose_dynamic_constraints (cleared st))
      as [cs st2] eqn:Hb.
    cbn [fst] in Hc.
    assert (Htasks : tasks st2 = tasks st).
    { apply build_dynamic_dependencies_caches in Hb. destruct Hb as [Hb _].
      rewrite Hb. reflexivity. }
    destruct (List.filter _ _) as [| t rest] eqn:Hf; [| congruence].
    exfalso.
    assert (Hall : forall t, In t (remove_dups (flat_map (fun c => [First c; Second c]) cs)) ->
                             tasks st !! t <> None).
    { intros t Ht. pose proof (filter_nil_none _ _ Hf t Ht) as Hn.
      apply negb_false_iff, bool_decide_eq_true in Hn.
      rewrite Htasks in Hn. destruct Hn as [x Hx]. congruence. }
    assert (Hin : forall t, t = First c \/ t = Second c ->
                            In t (remove_dups (flat_map (fun c => [First c; Second c]) cs))).
    { intros t Ht. apply list_elem_of_In, elem_of_remove_dups, list_elem_of_In.
      apply in_flat_map. exists c. split; [exact Hc |].
      destruct Ht as [-> | ->]; [left | right; left]; reflexivity. }
    destruct Hmissing as [H | H].
    - apply (Hall (First c)); [apply Hin; left; reflexivity | exact H].
    - apply (Hall (Second c)); [apply Hin; right; reflexivity | exact H]. }
  subst valid. cbn [fst snd]. split; [reflexivity |].
  apply caches_only_schedule in Hcaches. rewrite Hcaches. reflexivity.
Qed.

End RejectedRun.

Lemma schedule_tasks_rejects_undefined_task_witness :
  fst (schedule_tasks
         (fun _ => [ {| First := "LP_1"; Second := "A_404";
                        Relationship := "Finish <= Start" |} ])
         start_date false late_part_example) = Raise.
Proof.
  refine (proj1 (schedule_tasks_rejects_undefined_task _ start_date late_part_example
                   {| First := "LP_1"; Second := "A_404";
                      Relationship := "Finish <= Start" |} _ _)).
  - left. reflexivity.
  - right. reflexivity.
Defined.

(** ** Successors and predecessors *)

Section Neighbours.

Variable compose_dynamic_constraints : scheduler -> list constraint.

(** [get_successors] *)
Definition get_successors (st : scheduler) (task_id : string)
    : list string * scheduler :=
  let '(dynamic_constraints, st) :=
    build_dynamic_dependencies compose_dynamic_constraints st in
  (Second <$> List.filter (fun c => String.eqb (First c) task_id) dynamic_constraints,
   st).

(** [get_predecessors] *)
Definition get_predecessors (st : scheduler) (task_id : string)
    : list string * scheduler :=
  let '(dynamic_constraints, st) :=
    build_dynamic_dependencies compose_dynamic_constraints st in
  (First <$> List.filter (fun c => String.eqb (Second c) task_id) dynamic_constraints,
   st).

Lemma count_successors (cs : list constraint) (a b : string) :
  count_occ string_dec (Second <$> List.filter (fun c => String.eqb (First c) a) cs) b
  = length (List.filter (fun c => String.eqb (First c) a && String.eqb (Second c) b) cs).
Proof.
  induction cs as [| c cs IH]; [reflexivity |].
  cbn [List.filter]. destruct (String.eqb (First c) a); cbn [andb]; [| exact IH].
  cbn [fmap list_fmap count_occ].
  destruct (string_dec (Second c) b) as [-> | Hne].
  - rewrite String.eqb_refl. cbn [length]. f_equal. exact IH.
  - apply String.eqb_neq in Hne. rewrite Hne. exact IH.
Qed.

Lemma count_predecessors (cs : list constraint) (a b : string) :
  count_occ string_dec (First <$> List.filter (fun c => String.eqb (Second c) b) cs) a
  = length (List.filter (fun c => String.eqb (First c) a && String.eqb (Second c) b) cs).
Proof.
  induction cs as [| c cs IH]; [reflexivity |].
  cbn [List.filter]. destruct (String.eqb (Second c) b); rewrite ?andb_false_r, ?andb_true_r;
    [| exact IH].
  cbn [fmap list_fmap count_occ].
  destruct (string_dec (First c) a) as [-> | Hne].
  - rewrite String.eqb_refl. cbn [length]. f_equal. exact IH.
  - apply String.eqb_neq in Hne. rewrite Hne. exact IH.
Qed.

(** X28: [get_successors] and [get_predecessors] are two views of one
    list: a task is listed among the successors of another as often as
    the other is listed among its predecessors, and both calls leave the
    same object. *)
Theorem successors_mirror_predecessors (st : scheduler) (a b : string) :
  count_occ string_dec (fst (get_successors st a)) b
  = count_occ string_dec (fst (get_predecessors st b)) a
  /\ (In b (fst (get_successors st a)) <-> In a (fst (get_predecessors st b)))
  /\ snd (get_successors st a) = snd (get_predecessors st b).
Proof.
  unfold get_successors, get_predecessors.
  destruct (build_dynamic_dependencies compose_dynamic_constraints st) as [cs st1].
  cbn [fst snd].
  assert (Hcount : count_occ string_dec
                     (Second <$> List.filter (fun c => String.eqb (First c) a) cs) b
                   = count_occ string_dec
                       (First <$> List.filter (fun c => String.eqb (Second c) b) cs) a).
  { rewrite count_successors, count_predecessors. reflexivity. }
  split; [exact Hcount |]. split; [| reflexivity].
  rewrite (count_occ_In string_dec), (count_occ_In string_dec), Hcount. reflexivity.
Qed.

End Neighbours.
